(** * OneMed1a: the identity-reconciliation merge of the collection page

    A shallow embedding of the list-merging part of [MediaPage]
    (onemed1a-frontend/src/app/collection/.../page.js, the block that
    starts at "Build external items and alias maps" and ends with the
    construction of [items]), and the properties the specification
    states about it.

    Conventions of the embedding.
    - A JavaScript property value is a [value]: one of the primitives
      [undefined], [null], a boolean, a number or a string.  Nested
      objects and arrays as property values are outside the model.
    - A string is a Rocq [string]; every character is read as one code
      unit.  [trim] and [toLowerCase] are the ASCII parts of the
      JavaScript methods (the six ASCII white-space characters, the
      letters A-Z): they are these methods on strings of ASCII
      characters, and the statements that depend on how two titles
      compare are made for such strings ([ascii_inputs]).
    - A number is represented by the decimal that JavaScript prints for
      it (sign, digits, power of ten), or NaN, or an infinity.  The code
      never calculates with numbers: it only tests them for truthiness,
      prints them, and reads one from the first four characters of a
      date.  A decimal literal of at most fifteen digits is printed back
      by JavaScript as the same decimal, so on these inputs
      [JsNumber.ofString] followed by [JsNumber.toString] is exact.
    - A call of a method that the receiver does not have ([slice],
      [trim], [toLowerCase] on a number or a boolean) throws; the
      embedding returns [TypeError]. *)

From Stdlib Require Import List String Ascii Bool Arith ZArith NArith Lia.
From Stdlib Require Import DecimalString.
Import ListNotations.
Local Open Scope string_scope.

(** ** Results of computations that may throw *)

Inductive result (A : Type) : Type :=
| Ok (a : A)
| TypeError.
Arguments Ok {A} a.
Arguments TypeError {A}.

Definition bind {A B : Type} (r : result A) (k : A -> result B) : result B :=
  match r with
  | Ok a => k a
  | TypeError => TypeError
  end.

Notation "x <- c1 ;; c2" := (bind c1 (fun x => c2))
  (at level 61, c1 at next level, right associativity).

(** ** JavaScript strings *)

Module JsString.

(** White space that [String.prototype.trim] and the string-to-number
    conversion strip, among the ASCII characters: TAB, LF, VT, FF, CR
    and SPACE. *)
Definition is_white_space (c : ascii) : bool :=
  let n := nat_of_ascii c in
  (((9 <=? n) && (n <=? 13)) || (n =? 32))%nat.

Fixpoint trimStart (s : string) : string :=
  match s with
  | EmptyString => EmptyString
  | String c s' => if is_white_space c then trimStart s' else s
  end.

Fixpoint trimEnd (s : string) : string :=
  match s with
  | EmptyString => EmptyString
  | String c s' =>
      match trimEnd s' with
      | EmptyString => if is_white_space c then EmptyString else String c EmptyString
      | r => String c r
      end
  end.

Definition trim (s : string) : string := trimEnd (trimStart s).

(** [toLowerCase] on one ASCII character. *)
Definition lower_char (c : ascii) : ascii :=
  let n := nat_of_ascii c in
  if ((65 <=? n) && (n <=? 90))%nat then ascii_of_nat (n + 32) else c.

Fixpoint toLowerCase (s : string) : string :=
  match s with
  | EmptyString => EmptyString
  | String c s' => String (lower_char c) (toLowerCase s')
  end.

(** [s.slice(0, n)] *)
Definition slice0 (n : nat) (s : string) : string := substring 0 n s.

(** [s.startsWith(p)] *)
Definition startsWith (p s : string) : bool := prefix p s.

Definition is_empty (s : string) : bool :=
  match s with EmptyString => true | _ => false end.

End JsString.

(** ** JavaScript numbers *)

Module JsNumber.

(** [Dec neg m e] is the number (-1)^neg * m * 10^e. *)
Inductive number : Type :=
| NaN
| Infinity (neg : bool)
| Dec (neg : bool) (m : N) (e : Z).

(** ToBoolean on a number: false for NaN, +0 and -0. *)
Definition truthy (x : number) : bool :=
  match x with
  | NaN => false
  | Infinity _ => true
  | Dec _ m _ => negb (N.eqb m 0)
  end.

(** *** Number::toString, radix 10 *)

Definition digits_of_N (m : N) : string :=
  NilZero.string_of_uint (N.to_uint m).

Definition is_char_zero (c : ascii) : bool := Ascii.eqb c "0"%char.

(** Removes the zeros at the end of a digit string and counts them. *)
Fixpoint strip_zeros (s : string) : string * nat :=
  match s with
  | EmptyString => (EmptyString, 0)
  | String c s' =>
      match strip_zeros s' with
      | (EmptyString, z) =>
          if is_char_zero c then (EmptyString, S z) else (String c EmptyString, z)
      | (r, z) => (String c r, z)
      end
  end.

Fixpoint zeros (n : nat) : string :=
  match n with
  | O => EmptyString
  | S n' => String "0"%char (zeros n')
  end.

Definition exponent_text (x : Z) : string :=
  ((if (x <? 0)%Z then "-" else "+") ++ digits_of_N (Z.abs_N x))%string.

(** The digits [ds] (k of them, no zero at the end) and the integer n
    with value 0.ds * 10^n, printed as the language standard says. *)
Definition print_digits (ds : string) (n : Z) : string :=
  match ds with
  | EmptyString => "0"
  | String d rest =>
      let k := Z.of_nat (String.length ds) in
      if ((k <=? n) && (n <=? 21))%Z then
        String d (rest ++ zeros (Z.to_nat (n - k)))
      else if ((0 <? n) && (n <=? 21))%Z then
        String d (substring 1 (Z.to_nat n - 1)%nat ds ++ "."
                  ++ substring (Z.to_nat n) (String.length ds) ds)
      else if ((-6 <? n) && (n <=? 0))%Z then
        String "0"%char ("." ++ zeros (Z.to_nat (- n)) ++ ds)
      else
        match rest with
        | EmptyString => String d ("e" ++ exponent_text (n - 1))
        | _ => String d ("." ++ rest ++ "e" ++ exponent_text (n - 1))
        end
  end.

Definition toString (x : number) : string :=
  match x with
  | NaN => "NaN"
  | Infinity neg => if neg then "-Infinity" else "Infinity"
  | Dec neg m e =>
      if N.eqb m 0 then "0"
      else
        let '(ds, z) := strip_zeros (digits_of_N m) in
        let body := print_digits ds (Z.of_nat (String.length ds) + (e + Z.of_nat z)) in
        if neg then String "-"%char body else body
  end.

(** *** StringToNumber *)

Definition digit_value (base : N) (c : ascii) : option N :=
  let n := N_of_ascii c in
  let v :=
    if ((48 <=? n) && (n <=? 57))%N then Some (n - 48)%N
    else if ((97 <=? n) && (n <=? 102))%N then Some (n - 87)%N
    else if ((65 <=? n) && (n <=? 70))%N then Some (n - 55)%N
    else None in
  match v with
  | Some d => if (d <? base)%N then Some d else None
  | None => None
  end.

(** Reads the longest run of digits of the base at the start of [s]:
    the value read so far, how many digits, and what follows. *)
Fixpoint read_digits (base : N) (acc : N) (count : nat) (s : string)
  : N * nat * string :=
  match s with
  | EmptyString => (acc, count, s)
  | String c s' =>
      match digit_value base c with
      | Some d => read_digits base (acc * base + d)%N (S count) s'
      | None => (acc, count, s)
      end
  end.

(** All of [s] is one or more digits of the base. *)
Definition integer_literal (base : N) (s : string) : number :=
  match read_digits base 0 0 s with
  | (v, S _, EmptyString) => Dec false v 0
  | _ => NaN
  end.

(** ExponentPart, when there is one: e or E, a sign, digits. *)
Definition exponent_part (s : string) : option Z :=
  match s with
  | EmptyString => Some 0%Z
  | String c s' =>
      if Ascii.eqb c "e"%char || Ascii.eqb c "E"%char then
        let '(neg, s'') :=
          match s' with
          | String "+"%char t => (false, t)
          | String "-"%char t => (true, t)
          | _ => (false, s')
          end in
        match read_digits 10 0 0 s'' with
        | (v, S _, EmptyString) => Some (if neg then (- Z.of_N v)%Z else Z.of_N v)
        | _ => None
        end
      else None
  end.

(** StrUnsignedDecimalLiteral, apart from Infinity. *)
Definition unsigned_decimal (neg : bool) (s : string) : number :=
  let '(i, ni, after_int) := read_digits 10 0 0 s in
  let '(m, nf, after_frac) :=
    match after_int with
    | String "."%char t =>
        let '(m, nf, t') := read_digits 10 i 0 t in (m, nf, t')
    | _ => (i, 0, after_int)
    end in
  match (ni + nf)%nat with
  | O => NaN
  | S _ =>
      match exponent_part after_frac with
      | Some x => Dec neg m (x - Z.of_nat nf)
      | None => NaN
      end
  end.

Definition signed_decimal (s : string) : number :=
  let '(neg, body) :=
    match s with
    | String "+"%char t => (false, t)
    | String "-"%char t => (true, t)
    | _ => (false, s)
    end in
  if String.eqb body "Infinity" then Infinity neg else unsigned_decimal neg body.

(** [Number(s)] for a string [s]. *)
Definition ofString (s : string) : number :=
  match JsString.trim s with
  | EmptyString => Dec false 0 0
  | String "0"%char (String c t) as lit =>
      if Ascii.eqb c "x"%char || Ascii.eqb c "X"%char then integer_literal 16 t
      else if Ascii.eqb c "o"%char || Ascii.eqb c "O"%char then integer_literal 8 t
      else if Ascii.eqb c "b"%char || Ascii.eqb c "B"%char then integer_literal 2 t
      else signed_decimal lit
  | lit => signed_decimal lit
  end.

End JsNumber.

(** ** JavaScript values *)

Inductive value : Type :=
| VUndefined
| VNull
| VBool (b : bool)
| VNum (x : JsNumber.number)
| VStr (s : string).

(** ToBoolean *)
Definition truthy (v : value) : bool :=
  match v with
  | VUndefined | VNull => false
  | VBool b => b
  | VNum x => JsNumber.truthy x
  | VStr s => negb (JsString.is_empty s)
  end.

(** [v == null] *)
Definition nullish (v : value) : bool :=
  match v with
  | VUndefined | VNull => true
  | _ => false
  end.

(** [a || b] and [a ?? b] on values *)
Definition js_or (a b : value) : value := if truthy a then a else b.
Definition js_coalesce (a b : value) : value := if nullish a then b else a.

(** [String(v)], also what a template literal does to [v] *)
Definition String_of (v : value) : string :=
  match v with
  | VUndefined => "undefined"
  | VNull => "null"
  | VBool b => if b then "true" else "false"
  | VNum x => JsNumber.toString x
  | VStr s => s
  end.

(** [v.m()] for a method [m] that only strings have *)
Definition string_method (f : string -> string) (v : value) : result string :=
  match v with
  | VStr s => Ok (f s)
  | _ => TypeError
  end.

(** [a === b] where [b] is a string *)
Definition strict_eq_string (a : value) (b : string) : bool :=
  match a with
  | VStr s => String.eqb s b
  | _ => false
  end.

(** ** JavaScript [Map] with string keys

    A [Map] remembers the order in which its keys were first inserted;
    [set] on a key that is present replaces the value and keeps the
    position. *)

Module JsMap.

Definition t (V : Type) : Type := list (string * V).

Definition empty {V : Type} : t V := [].

Fixpoint get {V : Type} (k : string) (m : t V) : option V :=
  match m with
  | [] => None
  | (k', v) :: m' => if String.eqb k k' then Some v else get k m'
  end.

Definition has {V : Type} (k : string) (m : t V) : bool :=
  match get k m with Some _ => true | None => false end.

Fixpoint set {V : Type} (k : string) (v : V) (m : t V) : t V :=
  match m with
  | [] => [(k, v)]
  | (k', v') :: m' =>
      if String.eqb k k' then (k, v) :: m' else (k', v') :: set k v m'
  end.

Definition entries {V : Type} (m : t V) : list (string * V) := m.

Definition keys {V : Type} (m : t V) : list string := map fst m.

End JsMap.

(** ** The objects of the page *)

(** An element [m] of the discovery feed, and the [media] of a tracked
    record: the properties the page reads. A property that is missing
    reads as [undefined]. *)
Record Media : Type := mkMedia {
  m_mediaId : value;
  m_externalMediaId : value;
  m_id : value;
  m_title : value;
  m_type : value;
  m_releaseDate : value;
  m_rating : value;
  m_posterUrl : value;
  m_backdropUrl : value
}.

(** [{}] *)
Definition empty_media : Media :=
  mkMedia VUndefined VUndefined VUndefined VUndefined VUndefined
          VUndefined VUndefined VUndefined VUndefined.

(** A user-media-status record [ums].  [ums_media] is [None] when
    [ums.media] is missing, null or not an object. *)
Record Ums : Type := mkUms {
  ums_media : option Media;
  ums_status : value;
  ums_rating : value;
  ums_id : value
}.

(** An entry of [externalItems], [externalMap] and [itemsMap], and an
    element of the list the page hands to the grid. *)
Record Item : Type := mkItem {
  it_id : value;
  it_title : value;
  it_type : value;
  it_year : value;
  it_rating : value;
  it_coverUrl : value;
  it_href : value;
  it_status : value;
  it_raw : option Media
}.

(** [{}] *)
Definition empty_item : Item :=
  mkItem VUndefined VUndefined VUndefined VUndefined VUndefined
         VUndefined VUndefined VUndefined None.

(** ** Helpers of page.js *)

Definition TMDB_IMG_BASE : string := "https://image.tmdb.org/t/p/".

(** [toYear]: [dateStr ? Number(String(dateStr).slice(0, 4)) : undefined] *)
Definition toYear (dateStr : value) : value :=
  if truthy dateStr
  then VNum (JsNumber.ofString (JsString.slice0 4 (String_of dateStr)))
  else VUndefined.

(** [isFullUrl]: a string that matches [/^https?:\/\//i] *)
Definition isFullUrl (v : value) : bool :=
  match v with
  | VStr s =>
      let l := JsString.toLowerCase s in
      JsString.startsWith "http://" l || JsString.startsWith "https://" l
  | _ => false
  end.

Definition withSize (path : value) (size : string) : value :=
  if negb (truthy path) then VNull
  else if isFullUrl path then path
  else
    let p := if JsString.startsWith "/" (String_of path)
             then String_of path
             else "/" ++ String_of path in
    VStr (TMDB_IMG_BASE ++ size ++ p).

Definition pickCover (posterPath backdropPath : value) : value :=
  js_or (js_or (withSize posterPath "w342") (withSize backdropPath "w780"))
        (VStr "/next.svg").

(** [(v || "").toLowerCase()] *)
Definition lower_or_empty (v : value) : result string :=
  string_method JsString.toLowerCase (js_or v (VStr "")).

(** [(v || "").trim().toLowerCase()], for ASCII text *)
Definition title_key (v : value) : result string :=
  string_method (fun s => JsString.toLowerCase (JsString.trim s)) (js_or v (VStr "")).

(** The template [`/collection/${t}/${i}`] *)
Definition collection_href (t : string) (i : value) : value :=
  VStr ("/collection/" ++ t ++ "/" ++ String_of i).

(** ** Building the external items (the callback of [external.map]) *)

(** [String(m.mediaId || m.externalMediaId || m.id)] *)
Definition canonical_id (m : Media) : string :=
  String_of (js_or (js_or (m_mediaId m) (m_externalMediaId m)) (m_id m)).

Definition external_item (m : Media) : result Item :=
  let canonical := canonical_id m in
  ty <- lower_or_empty (m_type m) ;;
  yr <- string_method (JsString.slice0 4) (js_or (m_releaseDate m) (VStr "")) ;;
  Ok {| it_id := VStr canonical;
        it_title := js_coalesce (m_title m) (VStr "Untitled");
        it_type := VStr ty;
        it_year := js_or (VStr yr) VUndefined;
        it_rating := js_or (m_rating m) VUndefined;
        it_coverUrl := pickCover (m_posterUrl m) (m_backdropUrl m);
        it_href := collection_href ty (VStr canonical);
        it_status := VUndefined;
        it_raw := Some m |}.

(** [if (k) aliasMap.set(String(k), canonical)] for a property [k] *)
Definition alias_value (k : value) (canonical : string)
    (aliasMap : JsMap.t string) : JsMap.t string :=
  if truthy k then JsMap.set (String_of k) canonical aliasMap else aliasMap.

(** [external.map((m) => ...)], with the two maps its callback fills *)
Fixpoint map_external (external : list Media)
    (externalMap : JsMap.t Item) (aliasMap : JsMap.t string)
  : result (list Item * JsMap.t Item * JsMap.t string) :=
  match external with
  | [] => Ok ([], externalMap, aliasMap)
  | m :: rest =>
      item <- external_item m ;;
      let externalMap := JsMap.set (canonical_id m) item externalMap in
      let aliasMap := alias_value (m_externalMediaId m) (canonical_id m) aliasMap in
      let aliasMap := alias_value (m_mediaId m) (canonical_id m) aliasMap in
      r <- map_external rest externalMap aliasMap ;;
      let '(items, externalMap, aliasMap) := r in
      Ok (item :: items, externalMap, aliasMap)
  end.

(** [for (const it of externalItems) itemsMap.set(String(it.id), { ...it })] *)
Definition init_itemsMap (externalItems : list Item) : JsMap.t Item :=
  fold_left (fun itemsMap it => JsMap.set (String_of (it_id it)) it itemsMap)
            externalItems JsMap.empty.

(** ** The loop over the tracked records *)

(** [x ? String(x) : null] *)
Definition string_or_null (x : value) : option string :=
  if truthy x then Some (String_of x) else None.

(** [if (k)] on a variable that holds a string, null or undefined:
    the string, when the test passes *)
Definition if_truthy (k : option string) : option string :=
  match k with
  | Some s => if JsString.is_empty s then None else Some s
  | None => None
  end.

(** [k && map.has(k)] *)
Definition key_in {V : Type} (k : option string) (map : JsMap.t V) : bool :=
  match k with
  | Some s => negb (JsString.is_empty s) && JsMap.has s map
  | None => false
  end.

(** [if (k) aliasMap.set(k, canonical)] for a variable [k] *)
Definition alias_key (k : option string) (canonical : string)
    (aliasMap : JsMap.t string) : JsMap.t string :=
  match k with
  | Some s => if JsString.is_empty s then aliasMap else JsMap.set s canonical aliasMap
  | None => aliasMap
  end.

(** The two maps the loop updates *)
Record State : Type := mkState {
  itemsMap : JsMap.t Item;
  aliasMap : JsMap.t string
}.

(** "resolve canonical id": the chain of four tests *)
Definition resolve_canonical (st : State) (umsInternal umsExternal : option string)
  : option string :=
  if key_in umsInternal (itemsMap st) then umsInternal
  else if key_in umsExternal (aliasMap st)
       then match umsExternal with Some e => JsMap.get e (aliasMap st) | None => None end
  else if key_in umsExternal (itemsMap st) then umsExternal
  else if key_in umsInternal (aliasMap st)
       then match umsInternal with Some i => JsMap.get i (aliasMap st) | None => None end
  else None.

(** [itemsMap.get(c) || externalMap.get(c) || {}] *)
Definition base_of (externalMap : JsMap.t Item) (st : State) (c : string) : Item :=
  match JsMap.get c (itemsMap st) with
  | Some b => b
  | None =>
      match JsMap.get c externalMap with
      | Some b => b
      | None => empty_item
      end
  end.

(** [{ ...base, status: ums.status, rating: ums.rating ?? base.rating, href }] *)
Definition overlay (base : Item) (ums : Ums) (href : value) : Item :=
  {| it_id := it_id base;
     it_title := it_title base;
     it_type := it_type base;
     it_year := it_year base;
     it_rating := js_coalesce (ums_rating ums) (it_rating base);
     it_coverUrl := it_coverUrl base;
     it_href := href;
     it_status := ums_status ums;
     it_raw := it_raw base |}.

(** The body of [if (canonical)] and, word for word, of
    [if (fallbackCanonical)]: merge the record into the entry [c]. *)
Definition merge_into (externalMap : JsMap.t Item) (st : State) (ums : Ums) (m : Media)
    (umsInternal umsExternal : option string) (c : string) : result State :=
  let base := base_of externalMap st c in
  ty <- lower_or_empty (m_type m) ;;
  let href := collection_href ty (js_coalesce (m_mediaId m) (ums_id ums)) in
  Ok {| itemsMap := JsMap.set c (overlay base ums href) (itemsMap st);
        aliasMap := alias_key umsInternal c (alias_key umsExternal c (aliasMap st)) |}.

(** [yearKey] *)
Definition year_key (m : Media) : value :=
  js_or (toYear (m_releaseDate m))
        (if truthy (m_releaseDate m)
         then VStr (JsString.slice0 4 (String_of (m_releaseDate m)))
         else VUndefined).

(** The test inside the loop over [externalMap.entries()] *)
Definition fallback_test (titleKey : string) (yearKey : value)
    (extTitle : string) (extYear : value) : bool :=
  negb (JsString.is_empty extTitle)
  && String.eqb extTitle titleKey
  && (nullish yearKey || nullish extYear
      || String.eqb (String_of extYear) (String_of yearKey)).

(** [for (const [extId, extItem] of externalMap.entries()) ... break] *)
Fixpoint fallback_loop (titleKey : string) (yearKey : value)
    (entries : list (string * Item)) : result (option string) :=
  match entries with
  | [] => Ok None
  | (extId, extItem) :: rest =>
      extTitle <- title_key (it_title extItem) ;;
      let extYear := js_or (it_year extItem) VUndefined in
      if fallback_test titleKey yearKey extTitle extYear
      then Ok (Some extId)
      else fallback_loop titleKey yearKey rest
  end.

(** [fallbackCanonical] *)
Definition fallback_canonical (externalMap : JsMap.t Item) (m : Media)
  : result (option string) :=
  titleKey <- title_key (m_title m) ;;
  let yearKey := year_key m in
  if negb (JsString.is_empty titleKey)
  then fallback_loop titleKey yearKey (JsMap.entries externalMap)
  else Ok None.

(** [newKey] *)
Definition new_key (ums : Ums) (m : Media) : string :=
  String_of (js_or (js_or (m_mediaId m) (m_externalMediaId m)) (ums_id ums)).

(** [newItem] *)
Definition new_item (ums : Ums) (m : Media) : result Item :=
  ty <- lower_or_empty (m_type m) ;;
  Ok {| it_id := VStr (new_key ums m);
        it_title := js_coalesce (m_title m) (VStr "");
        it_type := VStr ty;
        it_year := toYear (m_releaseDate m);
        it_rating := ums_rating ums;
        it_coverUrl := pickCover (m_posterUrl m) (m_backdropUrl m);
        it_href := collection_href ty (js_coalesce (m_mediaId m) (ums_id ums));
        it_status := ums_status ums;
        it_raw := None |}.

(** "tracked-only item (not in external list)" *)
Definition track_only (st : State) (ums : Ums) (m : Media)
    (umsInternal umsExternal : option string) : result State :=
  let newKey := new_key ums m in
  newItem <- new_item ums m ;;
  Ok {| itemsMap := JsMap.set newKey newItem (itemsMap st);
        aliasMap := alias_key umsInternal newKey (alias_key umsExternal newKey (aliasMap st)) |}.

(** [ums.media ?? {}] *)
Definition media_of (ums : Ums) : Media :=
  match ums_media ums with
  | Some m => m
  | None => empty_media
  end.

(** One turn of [for (const ums of byWantedType)] *)
Definition process_ums (externalMap : JsMap.t Item) (st : State) (ums : Ums)
  : result State :=
  let m := media_of ums in
  let umsInternal := string_or_null (m_mediaId m) in
  let umsExternal := string_or_null (m_externalMediaId m) in
  let canonical := resolve_canonical st umsInternal umsExternal in
  match if_truthy canonical with
  | Some c => merge_into externalMap st ums m umsInternal umsExternal c
  | None =>
      fallbackCanonical <- fallback_canonical externalMap m ;;
      match if_truthy fallbackCanonical with
      | Some f => merge_into externalMap st ums m umsInternal umsExternal f
      | None => track_only st ums m umsInternal umsExternal
      end
  end.

(** [for (const ums of byWantedType) { ... }] *)
Fixpoint tracked_loop (externalMap : JsMap.t Item) (st : State)
    (byWantedType : list Ums) : result State :=
  match byWantedType with
  | [] => Ok st
  | ums :: rest =>
      st' <- process_ums externalMap st ums ;;
      tracked_loop externalMap st' rest
  end.

(** ** The final list *)

(** "external-ordering first": [itemsMap.get(String(it.id))] for every
    external item, pushed when it is there *)
Fixpoint external_first (itemsMap : JsMap.t Item) (externalItems : list Item)
  : list Item :=
  match externalItems with
  | [] => []
  | it :: rest =>
      match JsMap.get (String_of (it_id it)) itemsMap with
      | Some merged => merged :: external_first itemsMap rest
      | None => external_first itemsMap rest
      end
  end.

(** "then tracked-only items appended": the entries of [itemsMap] whose
    key [externalMap] does not have, in the order of [itemsMap] *)
Fixpoint tracked_only_tail (externalMap : JsMap.t Item)
    (entries : list (string * Item)) : list Item :=
  match entries with
  | [] => []
  | (k, v) :: rest =>
      if JsMap.has k externalMap
      then tracked_only_tail externalMap rest
      else v :: tracked_only_tail externalMap rest
  end.

(** ** The reconciler *)

(** From "Build external items and alias maps" to the end of the
    construction of [items], for the list [byWantedType]. *)
Definition reconcile (external : list Media) (byWantedType : list Ums)
  : result (list Item) :=
  r <- map_external external JsMap.empty JsMap.empty ;;
  let '(externalItems, externalMap, aliasMap0) := r in
  let itemsMap0 := init_itemsMap externalItems in
  st <- tracked_loop externalMap (mkState itemsMap0 aliasMap0) byWantedType ;;
  Ok (external_first (itemsMap st) externalItems
      ++ tracked_only_tail externalMap (JsMap.entries (itemsMap st)))%list.

(** [raw.filter((ums) => ums?.media?.type === wantedType)] *)
Definition byWantedType (wantedType : string) (raw : list Ums) : list Ums :=
  filter (fun ums =>
            match ums_media ums with
            | Some m => strict_eq_string (m_type m) wantedType
            | None => false
            end) raw.

(** The list that [MediaPage] renders, from the two lists it fetched. *)
Definition MediaPage_items (wantedType : string) (external : list Media)
    (raw : list Ums) : result (list Item) :=
  reconcile external (byWantedType wantedType raw).

(** ** Notions used in the statements *)

(** Phases one to three: the external items, [externalMap], and the two
    maps after the loop has seen the records of [tracked]. *)
Definition run (external : list Media) (tracked : list Ums)
  : result (list Item * JsMap.t Item * State) :=
  r <- map_external external JsMap.empty JsMap.empty ;;
  let '(externalItems, externalMap, aliasMap0) := r in
  st <- tracked_loop externalMap (mkState (init_itemsMap externalItems) aliasMap0) tracked ;;
  Ok (externalItems, externalMap, st).

(** What one turn of the loop decides for a record: merge it into the
    entry [c] (found by identifier or by the fallback), or make it a
    tracked-only entry. *)
Inductive outcome : Type :=
| Merge (c : string)
| TrackOnly.

Definition outcome_of (externalMap : JsMap.t Item) (st : State) (ums : Ums)
  : result outcome :=
  let m := media_of ums in
  match if_truthy (resolve_canonical st (string_or_null (m_mediaId m))
                                     (string_or_null (m_externalMediaId m))) with
  | Some c => Ok (Merge c)
  | None =>
      f <- fallback_canonical externalMap m ;;
      match if_truthy f with
      | Some c => Ok (Merge c)
      | None => Ok TrackOnly
      end
  end.

(** The properties of an entry that a merge does not write. *)
Definition frame_of (it : Item) : value * value * value * value * value * option Media :=
  (it_id it, it_title it, it_type it, it_year it, it_coverUrl it, it_raw it).

(** The record carries [mediaId] or [externalMediaId]. *)
Definition identified (ums : Ums) : bool :=
  truthy (m_mediaId (media_of ums)) || truthy (m_externalMediaId (media_of ums)).

(** A property that is a string, or falsy (missing, null, empty, ...). *)
Definition textual (v : value) : Prop :=
  truthy v = false \/ exists s, v = VStr s.

(** ** Sample data *)

(** A feed element with an [id], a title and a release date. *)
Definition feed_item (id title releaseDate : value) : Media :=
  {| m_mediaId := VUndefined; m_externalMediaId := VUndefined; m_id := id;
     m_title := title; m_type := VStr "MOVIE"; m_releaseDate := releaseDate;
     m_rating := VUndefined; m_posterUrl := VUndefined; m_backdropUrl := VUndefined |}.

(** A tracked movie: the two identifiers, title and release date of its
    media, its status and its row id. *)
Definition tracked_movie (mediaId externalMediaId title releaseDate status rowId : value)
  : Ums :=
  {| ums_media :=
       Some {| m_mediaId := mediaId; m_externalMediaId := externalMediaId;
               m_id := VUndefined; m_title := title; m_type := VStr "MOVIE";
               m_releaseDate := releaseDate; m_rating := VUndefined;
               m_posterUrl := VUndefined; m_backdropUrl := VUndefined |};
     ums_status := status; ums_rating := VUndefined; ums_id := rowId |}.

Definition dune_feed : list Media :=
  [feed_item (VStr "7") (VStr "Dune") (VStr "2021-10-01")].

(** A feed in which two elements have the canonical id "7". *)
Definition twice_seven_feed : list Media :=
  [feed_item (VStr "7") (VStr "Alien") VUndefined;
   feed_item (VStr "7") (VStr "Brazil") VUndefined].


(** One record that names the external item "7", one that names nothing
    in the feed. *)
Definition two_tracked : list Ums :=
  [tracked_movie (VStr "7") VUndefined VUndefined VUndefined (VStr "WATCHING") (VStr "r1");
   tracked_movie (VStr "9") VUndefined (VStr "Heat") VUndefined (VStr "COMPLETED") (VStr "r2")].


(** A tracked movie without identifiers, titled "Dune", whose release
    date does not start with a number. *)
Definition dune_no_date : Ums :=
  tracked_movie VUndefined VUndefined (VStr "Dune") (VStr "abcd")
                (VStr "COMPLETED") (VStr "r1").



(** A feed element whose title is the empty string, and a tracked movie
    without identifiers whose title is white space. *)
Definition untitled_feed : list Media :=
  [feed_item (VStr "7") (VStr "") VUndefined].

Definition blank_tracked : Ums :=
  tracked_movie VUndefined VUndefined (VStr "  ") VUndefined
                (VStr "COMPLETED") (VStr "r1").


(** The external items, [externalMap] and the two maps for [dune_feed],
    before any tracked record is seen. *)
Definition dune_items : list Item :=
  Eval vm_compute in
    match run dune_feed [] with Ok (items, _, _) => items | TypeError => [] end.

Definition dune_externalMap : JsMap.t Item :=
  Eval vm_compute in
    match run dune_feed [] with Ok (_, em, _) => em | TypeError => [] end.

Definition dune_state : State :=
  Eval vm_compute in
    match run dune_feed [] with Ok (_, _, st) => st | TypeError => mkState [] [] end.

(** A tracked movie that names the external item "7". *)
Definition watching_seven : Ums :=
  tracked_movie (VStr "7") VUndefined VUndefined VUndefined (VStr "WATCHING") (VStr "r1").


(** The comparison of the fallback as the specification words it: the
    trimmed, lower-case titles are equal and, when both sides have a
    year, the years are equal. *)
Definition same_title_and_year (titleKey : string) (yearKey : value) (it : Item) : bool :=
  match title_key (it_title it) with
  | Ok extTitle =>
      String.eqb extTitle titleKey
      && (nullish yearKey || nullish (it_year it)
          || String.eqb (String_of (it_year it)) (String_of yearKey))
  | TypeError => false
  end.

(** The id of the first item of a list that passes a test. *)
Definition first_match (test : Item -> bool) (items : list Item) : option string :=
  match find test items with
  | Some it => Some (String_of (it_id it))
  | None => None
  end.

(** The external items and [externalMap] for [untitled_feed]. *)
Definition untitled_items : list Item :=
  Eval vm_compute in
    match run untitled_feed [] with Ok (items, _, _) => items | TypeError => [] end.

Definition untitled_externalMap : JsMap.t Item :=
  Eval vm_compute in
    match run untitled_feed [] with Ok (_, em, _) => em | TypeError => [] end.

(** A tracked movie without identifiers, titled "dune", of 2021. *)
Definition dune_by_title : Ums :=
  tracked_movie VUndefined VUndefined (VStr " dune ") (VStr "2021-05-01")
                (VStr "COMPLETED") (VStr "r1").

(** A feed in which the canonical id "7" comes twice, the second time
    with the title of the element "8". *)
Definition repeated_id_feed : list Media :=
  [feed_item (VStr "7") (VStr "Alien") VUndefined;
   feed_item (VStr "8") (VStr "Brazil") VUndefined;
   feed_item (VStr "7") (VStr "Brazil") VUndefined].


(** The text properties of a feed element are strings or missing. *)
Definition well_typed_media (m : Media) : Prop :=
  textual (m_title m) /\ textual (m_type m) /\ textual (m_releaseDate m).

(** The text properties of a tracked record that the loop calls string
    methods on are strings or missing. *)
Definition well_typed_tracked (ums : Ums) : Prop :=
  textual (m_title (media_of ums)) /\ textual (m_type (media_of ums)).


Definition numeric_date_feed : list Media :=
  [feed_item (VStr "7") (VStr "Dune") (VNum (JsNumber.Dec false 2021 0))].


(** A feed with the item "9"; a tracked movie known only by the external
    id "E"; and a second record with the same external id whose internal
    id is "9". *)
Definition heat_feed : list Media :=
  [feed_item (VStr "9") (VStr "Heat") VUndefined].

Definition dune_external_E : Ums :=
  tracked_movie VUndefined (VStr "E") (VStr "Dune") VUndefined
                (VStr "COMPLETED") (VStr "r1").

Definition nine_external_E : Ums :=
  tracked_movie (VStr "9") (VStr "E") VUndefined VUndefined
                (VStr "WATCHING") (VStr "r2").

Definition heat_items : list Item :=
  Eval vm_compute in
    match run heat_feed [] with Ok (items, _, _) => items | TypeError => [] end.

Definition heat_externalMap : JsMap.t Item :=
  Eval vm_compute in
    match run heat_feed [] with Ok (_, em, _) => em | TypeError => [] end.

Definition heat_state : State :=
  Eval vm_compute in
    match run heat_feed [] with Ok (_, _, st) => st | TypeError => mkState [] [] end.

(** The two maps after the loop has seen [dune_external_E]. *)
Definition heat_state_E : State :=
  Eval vm_compute in
    match run heat_feed [dune_external_E] with
    | Ok (_, _, st) => st
    | TypeError => mkState [] []
    end.


(** A later record that has the external id "E" and no internal id. *)
Definition again_external_E : Ums :=
  tracked_movie VUndefined (VStr "E") (VStr "Dune") VUndefined
                (VStr "WATCHING") (VStr "r3").


(** The keys of a map with the frame of each entry. *)
Definition frames (m : JsMap.t Item)
  : JsMap.t (value * value * value * value * value * option Media) :=
  map (fun kv => (fst kv, frame_of (snd kv))) m.

(** The entry [it] has the canonical id [c]. *)
Definition has_id (c : string) (it : Item) : bool := strict_eq_string (it_id it) c.

(** The records for which the loop, started in [st], takes the
    tracked-only branch, in the order it meets them. *)
Fixpoint tracked_only_records (externalMap : JsMap.t Item) (st : State)
    (tracked : list Ums) : list Ums :=
  match tracked with
  | [] => []
  | ums :: rest =>
      match process_ums externalMap st ums with
      | Ok st' =>
          match outcome_of externalMap st ums with
          | Ok TrackOnly => ums :: tracked_only_records externalMap st' rest
          | _ => tracked_only_records externalMap st' rest
          end
      | TypeError => []
      end
  end.

(** The same, for a whole call. *)
Definition unmatched (external : list Media) (tracked : list Ums) : list Ums :=
  match map_external external JsMap.empty JsMap.empty with
  | Ok (externalItems, externalMap, aliasMap0) =>
      tracked_only_records externalMap
        (mkState (init_itemsMap externalItems) aliasMap0) tracked
  | TypeError => []
  end.

(** No record without media identifiers has a row id whose string is a
    canonical id of the feed or the new key of a record before it.
    [used] holds the strings that are taken. *)
Fixpoint row_keys_fresh (used : list string) (tracked : list Ums) : bool :=
  match tracked with
  | [] => true
  | ums :: rest =>
      (identified ums
       || negb (existsb (String.eqb (new_key ums (media_of ums))) used))
      && row_keys_fresh (new_key ums (media_of ums) :: used) rest
  end.

(** [it] is the entry made from the feed element [m], up to what a merge
    writes. *)
Definition derived_from (m : Media) (it : Item) : Prop :=
  exists it0, external_item m = Ok it0 /\ frame_of it = frame_of it0.

(** [it] is the tracked-only entry made from the record [ums], up to
    what a merge writes. *)
Definition made_from (ums : Ums) (it : Item) : Prop :=
  exists it0, new_item ums (media_of ums) = Ok it0 /\ frame_of it = frame_of it0.

(** A feed in which the canonical id "7" comes first and last. *)
Definition seven_eight_seven_feed : list Media :=
  [feed_item (VStr "7") (VStr "Alien") VUndefined;
   feed_item (VStr "8") (VStr "Brazil") VUndefined;
   feed_item (VStr "7") (VStr "Casablanca") VUndefined].

(** A feed with the items "5" and "6", and a tracked movie without media
    identifiers whose row id is 5. *)
Definition five_six_feed : list Media :=
  [feed_item (VStr "5") (VStr "Alien") VUndefined;
   feed_item (VStr "6") (VStr "Brazil") VUndefined].

Definition row_five : Ums :=
  tracked_movie VUndefined VUndefined (VStr "Zelig") VUndefined
                (VStr "COMPLETED") (VNum (JsNumber.Dec false 5 0)).


(** ** The route of the page *)

(** [normalizeTypeKey]; its parameter defaults to [""] when it is
    [undefined]. *)
Definition normalizeTypeKey (t : value) : string :=
  let t := match t with VUndefined => VStr "" | _ => t end in
  let key := JsString.toLowerCase (String_of t) in
  if String.eqb key "movie" then "movie"
  else if String.eqb key "tv" then "tv"
  else if String.eqb key "music" || String.eqb key "audio" then "music"
  else if String.eqb key "books" || String.eqb key "book" then "books"
  else key.

(** [typeMap]: the properties the object literal has of its own. *)
Definition typeMap : list (string * string) :=
  [("movie", "MOVIE"); ("tv", "TV"); ("music", "MUSIC"); ("books", "BOOKS")].

(** What [o[key]] finds on an object literal: a property of its own, a
    property of [Object.prototype] (a function or an object: truthy,
    and not a string), or nothing. *)
Inductive property : Type :=
| Own (v : string)
| Inherited
| Missing.

(** The names [Object.prototype] answers to. *)
Definition Object_prototype : list string :=
  ["constructor"; "__proto__"; "hasOwnProperty"; "isPrototypeOf";
   "propertyIsEnumerable"; "toLocaleString"; "toString"; "valueOf";
   "__defineGetter__"; "__defineSetter__"; "__lookupGetter__"; "__lookupSetter__"].

(** [o[key]] *)
Definition get_property (o : list (string * string)) (key : string) : property :=
  match find (fun kv => String.eqb (fst kv) key) o with
  | Some kv => Own (snd kv)
  | None => if existsb (String.eqb key) Object_prototype then Inherited else Missing
  end.

(** The url of the discover feed, after [base]. *)
Definition discover_url (base mediaTypeKey : string) : string :=
  if String.eqb mediaTypeKey "tv" then base ++ "/api/v1/externalMediaData/tv"
  else if String.eqb mediaTypeKey "music" then base ++ "/api/v1/externalMediaData/music"
  else if String.eqb mediaTypeKey "books" then base ++ "/api/v1/externalMediaData/books"
  else base ++ "/api/v1/externalMediaData/movies".

(** What the page does: a redirect, or a grid of items. *)
Inductive page : Type :=
| Redirect (to : string)
| Grid (items : list Item).

(** [MediaPage], the version with the reconciler.  [base] is
    [NEXT_PUBLIC_API_BASE] or its default; [fetchFeed url] is the array
    the discover request for [url] answers with, [[]] when it fails;
    [raw] is the list [getUserMediaByUserId] gives, [[]] when it fails;
    [userId] is the value of the cookie.  A record read from JSON is
    never [===] to an inherited property, so no record passes the filter
    when [wantedType] is one. *)
Definition MediaPage (base : string) (fetchFeed : string -> list Media)
    (raw : list Ums) (rawMediaType userId : value) : result page :=
  let mediaTypeKey := normalizeTypeKey rawMediaType in
  match get_property typeMap mediaTypeKey with
  | Missing => Ok (Redirect "/")
  | wantedType =>
      if negb (truthy userId) then Ok (Redirect "/")
      else
        let external :=
          if existsb (String.eqb mediaTypeKey) ["movie"; "tv"; "music"; "books"]
          then fetchFeed (discover_url base mediaTypeKey)
          else [] in
        let tracked :=
          match wantedType with
          | Own w => byWantedType w raw
          | _ => []
          end in
        items <- reconcile external tracked ;;
        Ok (Grid items)
  end.


(** ** The book page *)

Module BookPage.

Definition GOOGLE_BOOKS_BASE : string := "https://books.google.com".

(** [normalizeBookUrl].  When [String(path)] starts with "/", [path] is
    that string. *)
Definition normalizeBookUrl (path : value) : value :=
  if negb (truthy path) then VNull
  else if isFullUrl path then path
  else
    let p := if JsString.startsWith "/" (String_of path)
             then String_of path
             else "/" ++ String_of path in
    if JsString.startsWith "/books" p then VStr (GOOGLE_BOOKS_BASE ++ p) else VNull.

(** [pickCover] of the book page *)
Definition pickCover (posterPath backdropPath : value) : value :=
  js_or (js_or (normalizeBookUrl posterPath) (normalizeBookUrl backdropPath))
        (VStr "/next.svg").

(** [posterSrc] and [backdropSrc] of [BookPage], from the two urls of
    the book. *)
Definition posterSrc (posterUrl backdropUrl : value) : value :=
  pickCover posterUrl backdropUrl.

Definition backdropSrc (posterUrl backdropUrl : value) : value :=
  pickCover backdropUrl posterUrl.

End BookPage.


(** ** Notions used in the statements about the rest of the code *)

(** The decimal digits of [y] are four characters, are read back as [y],
    and [y] is printed as them. *)
Definition four_digit_year_ok (y : N) : bool :=
  (String.length (JsNumber.digits_of_N y) =? 4)%nat
  && match JsNumber.ofString (JsNumber.digits_of_N y) with
     | JsNumber.Dec false m 0%Z => N.eqb m y
     | _ => false
     end
  && String.eqb (JsNumber.toString (JsNumber.Dec false y 0)) (JsNumber.digits_of_N y).

(** The last element of the feed with the canonical id [c]. *)
Definition last_with_id (external : list Media) (c : string) : option Media :=
  find (fun m => String.eqb (canonical_id m) c) (rev external).


(** ** The page without the reconciler

    The file holds an earlier [MediaPage] as well: the tracked records
    are shown, and the discover feed only when there is none to show. *)

(** [l.map(f)] for a callback that may throw *)
Fixpoint mapM {A B : Type} (f : A -> result B) (l : list A) : result (list B) :=
  match l with
  | [] => Ok []
  | x :: l' =>
      y <- f x ;;
      ys <- mapM f l' ;;
      Ok (y :: ys)
  end.

Module TrackedFirst.

(** The callback of [raw.filter(...).map(...)]; the object has no
    [rating]. *)
Definition tracked_item (ums : Ums) : result Item :=
  let m := media_of ums in
  ty <- lower_or_empty (m_type m) ;;
  Ok {| it_id := js_coalesce (m_mediaId m) (ums_id ums);
        it_title := js_coalesce (m_title m) (VStr "");
        it_type := VStr ty;
        it_year := toYear (m_releaseDate m);
        it_rating := VUndefined;
        it_coverUrl := pickCover (m_posterUrl m) (m_backdropUrl m);
        it_href := collection_href ty (js_coalesce (m_mediaId m) (ums_id ums));
        it_status := ums_status ums;
        it_raw := None |}.

(** The callback of [data.map(...)]; the object has no [status]. *)
Definition discover_item (m : Media) : result Item :=
  let id := js_or (js_or (m_mediaId m) (m_externalMediaId m)) (m_id m) in
  ty <- lower_or_empty (m_type m) ;;
  yr <- string_method (JsString.slice0 4) (js_or (m_releaseDate m) (VStr "")) ;;
  Ok {| it_id := id;
        it_title := js_coalesce (m_title m) (VStr "Untitled");
        it_type := VStr ty;
        it_year := js_or (VStr yr) VUndefined;
        it_rating := js_or (m_rating m) VUndefined;
        it_coverUrl := pickCover (m_posterUrl m) (m_backdropUrl m);
        it_href := collection_href ty id;
        it_status := VUndefined;
        it_raw := None |}.

(** The [try] block around the discover request: an exception of
    [data.map] is caught and [items] stays the empty array. *)
Definition discover_items (data : list Media) : list Item :=
  match mapM discover_item data with
  | Ok items => items
  | TypeError => []
  end.

(** [MediaPage]; the arguments are those of the version with the
    reconciler. *)
Definition MediaPage (base : string) (fetchFeed : string -> list Media)
    (raw : list Ums) (rawMediaType userId : value) : result page :=
  let mediaTypeKey := normalizeTypeKey rawMediaType in
  match get_property typeMap mediaTypeKey with
  | Missing => Ok (Redirect "/")
  | wantedType =>
      if negb (truthy userId) then Ok (Redirect "/")
      else
        let tracked :=
          match wantedType with
          | Own w => byWantedType w raw
          | _ => []
          end in
        items <- mapM tracked_item tracked ;;
        if (List.length items =? 0)%nat
           && existsb (String.eqb mediaTypeKey) ["movie"; "tv"; "music"; "books"]
        then Ok (Grid (discover_items (fetchFeed (discover_url base mediaTypeKey))))
        else Ok (Grid items)
  end.

End TrackedFirst.

(** What the grid shows of an item: everything but [id] and [raw]. *)
Definition shown (it : Item) : value * value * value * value * value * value * value :=
  (it_title it, it_type it, it_year it, it_rating it, it_coverUrl it,
   it_href it, it_status it).


(** ** The profile page: [initials] *)

Module Profile.

(** [toUpperCase] on one ASCII character.  (On other characters the
    JavaScript method can give several: the statements about [initials]
    are made for ASCII names.) *)
Definition upper_char (c : ascii) : ascii :=
  let n := nat_of_ascii c in
  if ((97 <=? n) && (n <=? 122))%nat then ascii_of_nat (n - 32) else c.

(** [s.split(/\s+/)] on an ASCII string: the pieces between the maximal
    runs of white space, the empty pieces at the two ends included.
    [in_run] tells that the character before [s] was white space. *)
Fixpoint split_white_space (in_run : bool) (s : string) : list string :=
  match s with
  | EmptyString => [EmptyString]
  | String c s' =>
      if JsString.is_white_space c
      then if in_run then split_white_space true s'
           else EmptyString :: split_white_space true s'
      else match split_white_space false s' with
           | piece :: pieces => String c piece :: pieces
           | [] => [String c EmptyString]
           end
  end.

(** [s[0]?.toUpperCase()], as [join] prints it *)
Definition first_upper (s : string) : string :=
  match s with
  | EmptyString => EmptyString
  | String c _ => String (upper_char c) EmptyString
  end.

(** [initials]; its parameter defaults to [""] when it is [undefined]. *)
Definition initials (name : value) : result string :=
  match (match name with VUndefined => VStr "" | _ => name end) with
  | VStr s =>
      let pieces := split_white_space false s in
      let words := filter (fun p => negb (JsString.is_empty p)) pieces in
      let joined := String.concat "" (map first_upper (firstn 2 words)) in
      Ok (if JsString.is_empty joined then "U" else joined)
  | _ => TypeError
  end.

End Profile.

Definition is_lower_case_letter (c : ascii) : bool :=
  let n := nat_of_ascii c in ((97 <=? n) && (n <=? 122))%nat.

Fixpoint all_chars (p : ascii -> bool) (s : string) : bool :=
  match s with
  | EmptyString => true
  | String c s' => p c && all_chars p s'
  end.


(** A character that may stand in initials: no white space and no
    lower-case letter. *)
Definition initial_char (c : ascii) : bool :=
  negb (JsString.is_white_space c) && negb (is_lower_case_letter c).

(** The words of a name: the pieces that are not empty. *)
Definition words (name : string) : list string :=
  filter (fun p => negb (JsString.is_empty p)) (Profile.split_white_space false name).


(** ** The star rating: its handlers

    The handlers of [StarRating] as functions of the state the render
    had.  A rating is an integer, as the five buttons and the arrow keys
    produce; [saveTimer] holds the argument [n] of the one callback
    that waits for its 300 ms, if any: [setTimeout] after [clearTimeout]
    leaves one.  When its time has come the callback calls
    [doSave(n || null)], with the [statusId] its render had. *)

Module StarRating.

Record State : Type := mkState {
  rating : Z;
  hover : Z;
  statusId : value;
  prevRating : Z;
  saveTimer : option Z
}.

(** What [doSave] does with the network. *)
Record Payload : Type := mkPayload {
  p_id : value;
  p_userId : value;
  p_mediaId : value;
  p_status : string;
  p_rating : Z
}.

Inductive request : Type :=
| PushLogin
| NoRequest
| Delete (id : value)
| Upsert (payload : Payload).

(** [n || null] on an integer *)
Definition or_null (n : Z) : option Z := if (n =? 0)%Z then None else Some n.

(** [doSave(newRating)], up to the request *)
Definition doSave (userId mediaId : value) (statusId : value) (newRating : option Z)
  : request :=
  if negb (truthy userId) then PushLogin
  else
    match newRating with
    | Some n =>
        if (n =? 0)%Z
        then if negb (truthy statusId) then NoRequest else Delete statusId
        else Upsert {| p_id := js_or statusId VNull; p_userId := userId;
                       p_mediaId := mediaId; p_status := "COMPLETED"; p_rating := n |}
    | None => if negb (truthy statusId) then NoRequest else Delete statusId
    end.

(** [setAndSave(n)] *)
Definition setAndSave (disabled : bool) (st : State) (n : Z) : State :=
  if disabled then st
  else {| rating := n; hover := hover st; statusId := statusId st;
          prevRating := rating st; saveTimer := Some n |}.

(** [handleKeyDown(e)], from [e.key] *)
Definition handleKeyDown (disabled : bool) (st : State) (key : string) : State :=
  if disabled then st
  else if String.eqb key "ArrowRight" || String.eqb key "ArrowUp"
  then setAndSave disabled st (Z.min 5 (rating st + 1))
  else if String.eqb key "ArrowLeft" || String.eqb key "ArrowDown"
  then setAndSave disabled st (Z.max 1 (rating st - 1))
  else st.




End StarRating.


(** The stars a user can click, and a rating the widget can show. *)
Definition star (n : Z) : Prop := (1 <= n <= 5)%Z.




(** ** ASCII text

    [trim], [toLowerCase] and the string-to-number conversion above are
    the JavaScript methods on strings all of whose characters are ASCII
    (code units below 128); so is [upper_char] for [toUpperCase].  The
    statements that depend on how titles are compared, or on what the
    initials of a name are, are made for such strings. *)

Definition ascii_char (c : ascii) : bool := (nat_of_ascii c <? 128)%nat.

(** A property that is not a string, or a string of ASCII characters. *)
Definition ascii_text (v : value) : bool :=
  match v with
  | VStr s => all_chars ascii_char s
  | _ => true
  end.

(** The properties of a media object that the string methods are called
    on. *)
Definition ascii_media (m : Media) : bool :=
  ascii_text (m_title m) && ascii_text (m_type m) && ascii_text (m_releaseDate m).

Definition ascii_inputs (external : list Media) (tracked : list Ums) : bool :=
  forallb ascii_media external && forallb (fun ums => ascii_media (media_of ums)) tracked.


(** A feed element whose canonical id is the empty string, before one
    with the same title; and the external items and [externalMap] for
    them. *)
Definition nameless_feed : list Media :=
  [feed_item (VStr "") (VStr "Dune") VUndefined;
   feed_item (VStr "8") (VStr "Dune") VUndefined].

Definition nameless_items : list Item :=
  Eval vm_compute in
    match run nameless_feed [] with Ok (items, _, _) => items | TypeError => [] end.

Definition nameless_externalMap : JsMap.t Item :=
  Eval vm_compute in
    match run nameless_feed [] with Ok (_, em, _) => em | TypeError => [] end.

Definition nameless_state : State :=
  Eval vm_compute in
    match run nameless_feed [] with Ok (_, _, st) => st | TypeError => mkState [] [] end.



(** * Properties *)

(** ** The error monad *)

Lemma bind_Ok_inv {A B : Type} (r : result A) (k : A -> result B) (b : B) :
  bind r k = Ok b -> exists a, r = Ok a /\ k a = Ok b.
Proof.
  destruct r as [a|]; simpl; intros H; [exists a; auto | discriminate].
Qed.

Ltac inv_bind H :=
  let a := fresh "a" in
  let Ha := fresh "Ha" in
  apply bind_Ok_inv in H; destruct H as (a & Ha & H).

(** ** Maps *)

Module JsMapFacts.
Import JsMap.

Section Facts.
Context {V : Type}.
Implicit Types (m : t V) (k : string) (v : V).

Lemma has_true_iff k m : has k m = true <-> exists v, get k m = Some v.
Proof.
  unfold has. destruct (get k m) as [v|]; split; intros H.
  - exists v; reflexivity.
  - reflexivity.
  - discriminate.
  - destruct H as [v H]; discriminate.
Qed.

Lemma has_false_iff k m : has k m = false <-> get k m = None.
Proof.
  unfold has. destruct (get k m); split; intros H; congruence.
Qed.

Lemma has_in_keys k m : has k m = true <-> In k (keys m).
Proof.
  unfold has, keys. induction m as [|[k' v'] m IH]; simpl.
  - split; [discriminate | tauto].
  - destruct (String.eqb_spec k k') as [->|Hne].
    + split; auto.
    + rewrite IH. split; [auto | intros [H|H]; [congruence | exact H]].
Qed.

Lemma get_in k v m : get k m = Some v -> In (k, v) m.
Proof.
  induction m as [|[k' v'] m IH]; simpl; [discriminate|].
  destruct (String.eqb_spec k k') as [->|Hne]; intros H.
  - left. congruence.
  - right. auto.
Qed.

Lemma in_get k v m : NoDup (keys m) -> In (k, v) m -> get k m = Some v.
Proof.
  unfold keys. induction m as [|[k' v'] m IH]; simpl; [tauto|].
  intros Hnd [Heq|Hin].
  - inversion Heq; subst. now rewrite String.eqb_refl.
  - inversion Hnd as [|? ? Hnotin Hnd']; subst.
    destruct (String.eqb_spec k k') as [->|Hne].
    + exfalso. apply Hnotin. change k' with (fst (k', v)). now apply in_map.
    + auto.
Qed.

Lemma get_set_same k v m : get k (set k v m) = Some v.
Proof.
  induction m as [|[k' v'] m IH]; simpl.
  - now rewrite String.eqb_refl.
  - destruct (String.eqb_spec k k') as [->|Hne]; simpl.
    + now rewrite String.eqb_refl.
    + destruct (String.eqb_spec k k'); [contradiction | exact IH].
Qed.

Lemma get_set_other k k' v m : k' <> k -> get k' (set k v m) = get k' m.
Proof.
  intros Hne. induction m as [|[k0 v0] m IH]; simpl.
  - destruct (String.eqb_spec k' k); [contradiction | reflexivity].
  - destruct (String.eqb_spec k k0) as [->|Hne0]; simpl.
    + destruct (String.eqb_spec k' k0); [contradiction | reflexivity].
    + destruct (String.eqb_spec k' k0); [reflexivity | exact IH].
Qed.

Lemma has_set k k' v m : has k' (set k v m) = String.eqb k' k || has k' m.
Proof.
  unfold has. destruct (String.eqb_spec k' k) as [->|Hne].
  - now rewrite get_set_same.
  - now rewrite get_set_other.
Qed.

Lemma has_set_mono k k' v m : has k' m = true -> has k' (set k v m) = true.
Proof. intros H. rewrite has_set, H. apply orb_true_r. Qed.

(** [set] on a key that is present keeps every position. *)
Lemma keys_set_present k v m : has k m = true -> keys (set k v m) = keys m.
Proof.
  unfold has, keys. induction m as [|[k' v'] m IH]; simpl; [discriminate|].
  destruct (String.eqb_spec k k') as [->|Hne]; simpl; intros H.
  - reflexivity.
  - f_equal. auto.
Qed.

(** [set] on a new key appends it. *)
Lemma set_absent k v m : has k m = false -> set k v m = (m ++ [(k, v)])%list.
Proof.
  unfold has. induction m as [|[k' v'] m IH]; simpl; [reflexivity|].
  destruct (String.eqb_spec k k') as [->|Hne]; simpl; intros H.
  - discriminate.
  - f_equal. auto.
Qed.

Lemma keys_set_absent k v m : has k m = false -> keys (set k v m) = (keys m ++ [k])%list.
Proof.
  intros H. rewrite (set_absent _ _ _ H). unfold keys. now rewrite map_app.
Qed.

Lemma NoDup_keys_set k v m : NoDup (keys m) -> NoDup (keys (set k v m)).
Proof.
  intros Hnd. destruct (has k m) eqn:Hk.
  - now rewrite keys_set_present.
  - rewrite keys_set_absent by assumption.
    apply NoDup_app; [assumption | constructor; [simpl; tauto | constructor] |].
    intros x Hx [<-|[]]. apply has_in_keys in Hx. congruence.
Qed.

(** Where [set] writes when the key is present. *)
Lemma set_present_split k v m :
  has k m = true ->
  exists pre old post,
    m = (pre ++ (k, old) :: post)%list /\ ~ In k (keys pre)
    /\ set k v m = (pre ++ (k, v) :: post)%list.
Proof.
  unfold has, keys. induction m as [|[k' v'] m IH]; simpl; [discriminate|].
  destruct (String.eqb_spec k k') as [->|Hne]; intros H.
  - exists [], v', m. simpl. auto.
  - destruct (IH H) as (pre & old & post & -> & Hpre & Hset).
    exists ((k', v') :: pre), old, post. simpl. rewrite Hset.
    repeat split; auto. intros [Heq|Hin]; [congruence | contradiction].
Qed.

End Facts.
End JsMapFacts.
Import JsMapFacts.

(** ** Strings of values *)

Lemma is_empty_true (s : string) : JsString.is_empty s = true <-> s = "".
Proof. destruct s; simpl; split; congruence. Qed.

Lemma is_empty_false (s : string) : JsString.is_empty s = false <-> s <> "".
Proof. destruct s; simpl; split; congruence. Qed.

Lemma print_digits_not_empty (ds : string) (n : Z) : JsNumber.print_digits ds n <> "".
Proof.
  unfold JsNumber.print_digits. destruct ds as [|d rest]; [discriminate|].
  repeat match goal with
         | |- context [if ?b then _ else _] => destruct b
         end; try discriminate; destruct rest; discriminate.
Qed.

Lemma toString_not_empty (x : JsNumber.number) : JsNumber.toString x <> "".
Proof.
  destruct x as [|neg|neg m e]; simpl; try discriminate.
  - destruct neg; discriminate.
  - destruct (N.eqb m 0); [discriminate|].
    destruct (JsNumber.strip_zeros (JsNumber.digits_of_N m)) as [ds z].
    destruct neg; [discriminate | apply print_digits_not_empty].
Qed.

(** The string of a truthy value is not empty. *)
Lemma String_of_truthy (v : value) : truthy v = true -> String_of v <> "".
Proof.
  destruct v as [| |b|x|s]; simpl; try discriminate.
  - intros ->. discriminate.
  - intros _. apply toString_not_empty.
  - intros H. apply is_empty_false. now apply negb_true_iff.
Qed.

Lemma string_or_null_some (v : value) (s : string) :
  string_or_null v = Some s -> truthy v = true /\ s = String_of v /\ s <> "".
Proof.
  unfold string_or_null. destruct (truthy v) eqn:Hv; [|discriminate].
  intros H. inversion H; subst. auto using String_of_truthy.
Qed.

Lemma if_truthy_some (k : option string) (c : string) :
  if_truthy k = Some c <-> k = Some c /\ c <> "".
Proof.
  unfold if_truthy. destruct k as [s|].
  - destruct (JsString.is_empty s) eqn:Hs.
    + apply is_empty_true in Hs. subst. split; [discriminate | intros [H1 H2]; congruence].
    + apply is_empty_false in Hs. split; intros H.
      * inversion H; subst; auto.
      * now destruct H.
  - split; [discriminate | intros [H _]; discriminate].
Qed.

Lemma key_in_true {V : Type} (k : option string) (m : JsMap.t V) :
  key_in k m = true <-> exists s, k = Some s /\ s <> "" /\ JsMap.has s m = true.
Proof.
  unfold key_in. destruct k as [s|].
  - rewrite andb_true_iff, negb_true_iff, is_empty_false. split.
    + intros [H1 H2]. exists s; auto.
    + intros (s' & Heq & H1 & H2). inversion Heq; subst; auto.
  - split; [discriminate | intros (s & H & _); discriminate].
Qed.

(** ** One turn of the loop, by outcome *)

Lemma process_ums_outcome (externalMap : JsMap.t Item) (st : State) (ums : Ums) :
  process_ums externalMap st ums =
  (o <- outcome_of externalMap st ums ;;
   match o with
   | Merge c =>
       merge_into externalMap st ums (media_of ums)
                  (string_or_null (m_mediaId (media_of ums)))
                  (string_or_null (m_externalMediaId (media_of ums))) c
   | TrackOnly =>
       track_only st ums (media_of ums)
                  (string_or_null (m_mediaId (media_of ums)))
                  (string_or_null (m_externalMediaId (media_of ums)))
   end).
Proof.
  unfold process_ums, outcome_of.
  destruct (if_truthy (resolve_canonical _ _ _)); simpl; [reflexivity|].
  destruct (fallback_canonical _ _) as [f|]; simpl; [|reflexivity].
  destruct (if_truthy f); reflexivity.
Qed.

Lemma fallback_loop_in (titleKey : string) (yearKey : value)
    (entries : list (string * Item)) (f : string) :
  fallback_loop titleKey yearKey entries = Ok (Some f) -> In f (map fst entries).
Proof.
  induction entries as [|[k it] rest IH]; simpl; [discriminate|].
  intros H. inv_bind H.
  destruct (fallback_test _ _ _ _).
  - inversion H; subst. now left.
  - right. auto.
Qed.

Lemma fallback_canonical_has (externalMap : JsMap.t Item) (m : Media) (f : string) :
  fallback_canonical externalMap m = Ok (Some f) -> JsMap.has f externalMap = true.
Proof.
  unfold fallback_canonical. intros H. inv_bind H.
  destruct (negb (JsString.is_empty a)); [|discriminate].
  apply has_in_keys. now apply fallback_loop_in in H.
Qed.

(** ** The invariant of the loop *)

Record Inv (externalMap : JsMap.t Item) (st : State) : Prop := mkInv {
  inv_nodup : NoDup (JsMap.keys (itemsMap st));
  inv_id : forall k it, JsMap.get k (itemsMap st) = Some it -> it_id it = VStr k;
  inv_alias : forall a c, JsMap.get a (aliasMap st) = Some c ->
                          c <> "" /\ JsMap.has c (itemsMap st) = true;
  inv_external : forall k, JsMap.has k externalMap = true ->
                           JsMap.has k (itemsMap st) = true
}.

Lemma resolve_canonical_has (externalMap : JsMap.t Item) (st : State)
    (i e : option string) (c : string) :
  Inv externalMap st ->
  resolve_canonical st i e = Some c ->
  c <> "" /\ JsMap.has c (itemsMap st) = true.
Proof.
  intros HI. unfold resolve_canonical.
  destruct (key_in i (itemsMap st)) eqn:H1.
  { apply key_in_true in H1. destruct H1 as (s & -> & Hs & Hhas).
    intros H; inversion H; subst; auto. }
  destruct (key_in e (aliasMap st)) eqn:H2.
  { destruct e as [x|]; [|discriminate]. intros H. eapply inv_alias; eauto. }
  destruct (key_in e (itemsMap st)) eqn:H3.
  { apply key_in_true in H3. destruct H3 as (s & -> & Hs & Hhas).
    intros H; inversion H; subst; auto. }
  destruct (key_in i (aliasMap st)) eqn:H4; [|discriminate].
  destruct i as [x|]; [|discriminate]. intros H. eapply inv_alias; eauto.
Qed.

Lemma outcome_merge_has (externalMap : JsMap.t Item) (st : State) (ums : Ums) (c : string) :
  Inv externalMap st ->
  outcome_of externalMap st ums = Ok (Merge c) ->
  c <> "" /\ JsMap.has c (itemsMap st) = true.
Proof.
  intros HI. unfold outcome_of.
  destruct (if_truthy (resolve_canonical _ _ _)) as [c'|] eqn:Hr.
  - intros H; inversion H; subst. apply if_truthy_some in Hr. destruct Hr as [Hr _].
    eapply resolve_canonical_has; eauto.
  - intros H. inv_bind H. destruct (if_truthy a) as [f|] eqn:Hf; [|discriminate].
    inversion H; subst. apply if_truthy_some in Hf. destruct Hf as [-> Hne].
    split; [assumption|]. eapply inv_external; eauto using fallback_canonical_has.
Qed.

Lemma alias_key_get (k : option string) (c : string) (am : JsMap.t string)
    (a c' : string) :
  JsMap.get a (alias_key k c am) = Some c' ->
  (c' = c /\ k <> None) \/ JsMap.get a am = Some c'.
Proof.
  unfold alias_key. destruct k as [s|]; [|auto].
  destruct (JsString.is_empty s); [auto|].
  destruct (String.eqb_spec a s) as [->|Hne].
  - rewrite get_set_same. intros H; inversion H; subst. left. split; congruence.
  - rewrite get_set_other by assumption. auto.
Qed.

Lemma alias_key_has (k : option string) (c : string) (am : JsMap.t string) (a : string) :
  JsMap.has a am = true -> JsMap.has a (alias_key k c am) = true.
Proof.
  unfold alias_key. destruct k as [s|]; [|auto].
  destruct (JsString.is_empty s); auto using has_set_mono.
Qed.

Lemma alias_key_registered (k : option string) (c : string) (am : JsMap.t string) (s : string) :
  k = Some s -> s <> "" -> JsMap.get s (alias_key k c am) = Some c.
Proof.
  intros -> Hs. unfold alias_key. apply is_empty_false in Hs. rewrite Hs.
  apply get_set_same.
Qed.

Lemma base_of_present (externalMap : JsMap.t Item) (st : State) (c : string) (b : Item) :
  JsMap.get c (itemsMap st) = Some b -> base_of externalMap st c = b.
Proof. unfold base_of. now intros ->. Qed.

Lemma merge_into_Inv (externalMap : JsMap.t Item) (st st' : State) (ums : Ums)
    (m : Media) (i e : option string) (c : string) :
  Inv externalMap st ->
  c <> "" -> JsMap.has c (itemsMap st) = true ->
  merge_into externalMap st ums m i e c = Ok st' ->
  Inv externalMap st'.
Proof.
  intros HI Hc Hhas H. unfold merge_into in H. inv_bind H.
  inversion H; subst; clear H.
  apply has_true_iff in Hhas. destruct Hhas as [b Hb].
  rewrite (base_of_present _ _ _ _ Hb).
  constructor; simpl.
  - apply NoDup_keys_set, HI.
  - intros k it. destruct (String.eqb_spec k c) as [->|Hne].
    + rewrite get_set_same. intros H; inversion H; subst. simpl.
      eapply inv_id; eauto.
    + rewrite get_set_other by assumption. apply HI.
  - intros a0 c' Hget.
    assert (Hor : c' = c \/ JsMap.get a0 (aliasMap st) = Some c').
    { apply alias_key_get in Hget. destruct Hget as [[-> _]|Hget]; [auto|].
      apply alias_key_get in Hget. destruct Hget as [[-> _]|Hget]; auto. }
    destruct Hor as [->|Hold].
    + split; [assumption|]. rewrite has_set, String.eqb_refl. reflexivity.
    + destruct (inv_alias _ _ HI _ _ Hold) as [Hne Hh].
      split; [assumption | now apply has_set_mono].
  - intros k Hk. apply has_set_mono. now apply HI.
Qed.

Lemma new_key_identified (ums : Ums) (m : Media) :
  truthy (m_mediaId m) = true \/ truthy (m_externalMediaId m) = true ->
  new_key ums m <> "".
Proof.
  unfold new_key, js_or. intros H.
  destruct (truthy (m_mediaId m)) eqn:H1.
  - rewrite H1. now apply String_of_truthy.
  - destruct H as [H|H]; [discriminate|]. rewrite H. now apply String_of_truthy.
Qed.

Lemma string_or_null_not_none (v : value) :
  string_or_null v <> None -> truthy v = true.
Proof. unfold string_or_null. destruct (truthy v); congruence. Qed.

Lemma track_only_Inv (externalMap : JsMap.t Item) (st st' : State) (ums : Ums) (m : Media) :
  Inv externalMap st ->
  track_only st ums m (string_or_null (m_mediaId m))
             (string_or_null (m_externalMediaId m)) = Ok st' ->
  Inv externalMap st'.
Proof.
  intros HI H. unfold track_only in H. inv_bind H.
  inversion H; subst; clear H.
  unfold new_item in Ha. inv_bind Ha. inversion Ha; subst; clear Ha.
  constructor; simpl.
  - apply NoDup_keys_set, HI.
  - intros k it. destruct (String.eqb_spec k (new_key ums m)) as [->|Hne].
    + rewrite get_set_same. intros H; inversion H; subst. reflexivity.
    + rewrite get_set_other by assumption. apply HI.
  - intros a c' Hget.
    assert (Hor : (c' = new_key ums m /\ new_key ums m <> "")
                  \/ JsMap.get a (aliasMap st) = Some c').
    { apply alias_key_get in Hget. destruct Hget as [[-> Hk]|Hget].
      { left. split; [reflexivity|]. apply new_key_identified. left.
        now apply string_or_null_not_none. }
      apply alias_key_get in Hget. destruct Hget as [[-> Hk]|Hget]; [|auto].
      left. split; [reflexivity|]. apply new_key_identified. right.
      now apply string_or_null_not_none. }
    destruct Hor as [[-> Hne]|Hold].
    + split; [assumption|]. rewrite has_set, String.eqb_refl. reflexivity.
    + destruct (inv_alias _ _ HI _ _ Hold) as [Hne Hh].
      split; [assumption | now apply has_set_mono].
  - intros k Hk. apply has_set_mono. now apply HI.
Qed.

Lemma process_ums_Inv (externalMap : JsMap.t Item) (st st' : State) (ums : Ums) :
  Inv externalMap st ->
  process_ums externalMap st ums = Ok st' ->
  Inv externalMap st'.
Proof.
  intros HI H. rewrite process_ums_outcome in H. inv_bind H.
  destruct a as [c|].
  - destruct (outcome_merge_has _ _ _ _ HI Ha) as [Hc Hh].
    eapply merge_into_Inv; eauto.
  - eapply track_only_Inv; eauto.
Qed.

Lemma tracked_loop_Inv (externalMap : JsMap.t Item) (tracked : list Ums) :
  forall st st',
    Inv externalMap st ->
    tracked_loop externalMap st tracked = Ok st' ->
    Inv externalMap st'.
Proof.
  induction tracked as [|ums rest IH]; simpl; intros st st' HI H.
  - inversion H; subst; assumption.
  - inv_bind H. eapply IH; [|exact H]. eapply process_ums_Inv; eauto.
Qed.

(** ** The external phase *)

Lemma external_item_id (m : Media) (it : Item) :
  external_item m = Ok it -> it_id it = VStr (canonical_id m).
Proof.
  unfold external_item. intros H. inv_bind H. inv_bind H.
  inversion H; subst. reflexivity.
Qed.

(** [itemsMap] before the loop has the entries of [externalMap]. *)
Lemma map_external_spec (external : list Media) :
  forall em0 am0 items em am,
    map_external external em0 am0 = Ok (items, em, am) ->
    Forall2 (fun m it => external_item m = Ok it) external items
    /\ em = fold_left (fun acc it => JsMap.set (String_of (it_id it)) it acc) items em0
    /\ (forall a c, JsMap.get a am = Some c ->
          JsMap.get a am0 = Some c
          \/ (c <> "" /\ In c (map canonical_id external))).
Proof.
  induction external as [|m rest IH]; simpl; intros em0 am0 items em am H.
  - inversion H; subst. repeat split; auto.
  - inv_bind H. inv_bind H. destruct a0 as [[items' em'] am'].
    inversion H; subst; clear H.
    destruct (IH _ _ _ _ _ Ha0) as (HF & Hem & Ham).
    split; [constructor; assumption|]. split.
    + simpl. rewrite (external_item_id _ _ Ha). exact Hem.
    + intros a0 c Hget. destruct (Ham _ _ Hget) as [Hold|[Hne Hin]]; [|auto].
      unfold alias_value in Hold.
      assert (Hid : forall v, truthy v = true ->
                 v = m_mediaId m \/ v = m_externalMediaId m -> canonical_id m <> "").
      { intros v Hv Hor. unfold canonical_id, js_or.
        destruct (truthy (m_mediaId m)) eqn:H1.
        - rewrite H1. now apply String_of_truthy.
        - destruct Hor as [->| ->]; [congruence|]. rewrite Hv.
          now apply String_of_truthy. }
      destruct (truthy (m_mediaId m)) eqn:H1.
      * destruct (String.eqb_spec a0 (String_of (m_mediaId m))) as [->|Hne].
        { rewrite get_set_same in Hold. inversion Hold; subst. right.
          split; [eapply Hid; eauto | now left]. }
        rewrite get_set_other in Hold by assumption.
        destruct (truthy (m_externalMediaId m)) eqn:H2; [|auto].
        destruct (String.eqb_spec a0 (String_of (m_externalMediaId m))) as [->|Hne2].
        { rewrite get_set_same in Hold. inversion Hold; subst. right.
          split; [eapply Hid; eauto | now left]. }
        rewrite get_set_other in Hold by assumption. auto.
      * destruct (truthy (m_externalMediaId m)) eqn:H2; [|auto].
        destruct (String.eqb_spec a0 (String_of (m_externalMediaId m))) as [->|Hne2].
        { rewrite get_set_same in Hold. inversion Hold; subst. right.
          split; [eapply Hid; eauto | now left]. }
        rewrite get_set_other in Hold by assumption. auto.
Qed.

Lemma fold_set_props (items : list Item) :
  forall m0,
    NoDup (JsMap.keys m0) ->
    (forall k it, JsMap.get k m0 = Some it -> it_id it = VStr k) ->
    Forall (fun it => exists s, it_id it = VStr s) items ->
    let m := fold_left (fun acc it => JsMap.set (String_of (it_id it)) it acc) items m0 in
    NoDup (JsMap.keys m)
    /\ (forall k it, JsMap.get k m = Some it -> it_id it = VStr k)
    /\ (forall k, JsMap.has k m = true <->
                  JsMap.has k m0 = true \/ In k (map (fun it => String_of (it_id it)) items)).
Proof.
  induction items as [|it rest IH]; simpl; intros m0 Hnd Hid HF.
  - repeat split; auto. intros [H|[]]; exact H.
  - inversion HF as [|? ? [s Hs] HF']; subst.
    destruct (IH (JsMap.set (String_of (it_id it)) it m0)) as (H1 & H2 & H3).
    + now apply NoDup_keys_set.
    + intros k it'. destruct (String.eqb_spec k (String_of (it_id it))) as [->|Hne].
      * rewrite get_set_same. intros H; inversion H; subst. rewrite Hs. reflexivity.
      * rewrite get_set_other by assumption. apply Hid.
    + assumption.
    + split; [assumption|]. split; [assumption|].
      intros k. rewrite H3, has_set, orb_true_iff, String.eqb_eq. intuition.
Qed.

Lemma Forall2_external_ids (external : list Media) (items : list Item) :
  Forall2 (fun m it => external_item m = Ok it) external items ->
  map (fun it => String_of (it_id it)) items = map canonical_id external
  /\ Forall (fun it => exists s, it_id it = VStr s) items.
Proof.
  induction 1 as [|m it external items Hm HF [IH1 IH2]]; simpl;
    [split; constructor|].
  rewrite (external_item_id _ _ Hm). simpl. split.
  - now f_equal.
  - constructor; [|assumption].
    exists (canonical_id m). now apply external_item_id.
Qed.

(** What holds of a run, whatever the inputs. *)
Lemma run_Inv (external : list Media) (tracked : list Ums)
    (items : list Item) (em : JsMap.t Item) (st : State) :
  run external tracked = Ok (items, em, st) ->
  Inv em st
  /\ Forall2 (fun m it => external_item m = Ok it) external items
  /\ em = init_itemsMap items
  /\ (forall k, JsMap.has k em = true <-> In k (map canonical_id external)).
Proof.
  unfold run. intros H. inv_bind H. destruct a as [[items0 em0] am0].
  inv_bind H. inversion H; subst; clear H.
  destruct (map_external_spec _ _ _ _ _ _ Ha) as (HF & Hem & Ham).
  destruct (Forall2_external_ids _ _ HF) as [Hids HFid].
  destruct (fold_set_props items JsMap.empty) as (H1 & H2 & H3); simpl; auto.
  { constructor. }
  { discriminate. }
  fold (init_itemsMap items) in H1, H2, H3, Hem. subst em.
  assert (Hkeys : forall k, JsMap.has k (init_itemsMap items) = true <->
                            In k (map canonical_id external)).
  { intros k. rewrite H3, Hids. unfold JsMap.has. simpl. intuition discriminate. }
  split; [|auto].
  eapply tracked_loop_Inv; [|exact Ha0].
  constructor; simpl; auto.
  intros a c Hget. destruct (Ham _ _ Hget) as [Hold|[Hne Hin]]; [discriminate|].
  split; [assumption | now apply Hkeys].
Qed.

(** ** The final list *)

Lemma external_first_ids (im : JsMap.t Item) (items : list Item) :
  (forall k it, JsMap.get k im = Some it -> it_id it = VStr k) ->
  Forall (fun it => JsMap.has (String_of (it_id it)) im = true) items ->
  map it_id (external_first im items)
  = map (fun it => VStr (String_of (it_id it))) items.
Proof.
  intros Hid. induction 1 as [|it rest Hh HF IH]; simpl; [reflexivity|].
  apply has_true_iff in Hh. destruct Hh as [merged Hm]. rewrite Hm. simpl.
  rewrite (Hid _ _ Hm), IH. reflexivity.
Qed.

Lemma tracked_only_tail_ids (em : JsMap.t Item) (entries : list (string * Item)) :
  (forall k v, In (k, v) entries -> it_id v = VStr k) ->
  map it_id (tracked_only_tail em entries)
  = map VStr (filter (fun k => negb (JsMap.has k em)) (map fst entries)).
Proof.
  induction entries as [|[k v] rest IH]; simpl; intros Hid; [reflexivity|].
  destruct (JsMap.has k em); simpl.
  - apply IH. intros; apply Hid; auto.
  - rewrite (Hid k v) by auto. f_equal. apply IH. intros; apply Hid; auto.
Qed.

Lemma reconcile_run (external : list Media) (tracked : list Ums) :
  reconcile external tracked =
  (r <- run external tracked ;;
   let '(externalItems, externalMap, st) := r in
   Ok (external_first (itemsMap st) externalItems
       ++ tracked_only_tail externalMap (JsMap.entries (itemsMap st)))%list).
Proof.
  unfold reconcile, run.
  destruct (map_external external JsMap.empty JsMap.empty) as [[[items em] am]|];
    simpl; [|reflexivity].
  destruct (tracked_loop _ _ _); reflexivity.
Qed.

(** The ids of the final list: the canonical id of every external item,
    in the order of the feed, then the keys of [itemsMap] that
    [externalMap] does not have. *)
Lemma reconcile_ids (external : list Media) (tracked : list Ums) (out : list Item) :
  reconcile external tracked = Ok out ->
  exists items em st,
    run external tracked = Ok (items, em, st)
    /\ out = (external_first (itemsMap st) items
              ++ tracked_only_tail em (JsMap.entries (itemsMap st)))%list
    /\ map it_id out
       = map VStr (map canonical_id external
                   ++ filter (fun k => negb (JsMap.has k em))
                             (JsMap.keys (itemsMap st)))%list.
Proof.
  rewrite reconcile_run. intros H. inv_bind H. destruct a as [[items em] st].
  inversion H; subst; clear H. exists items, em, st.
  split; [assumption|]. split; [reflexivity|].
  destruct (run_Inv _ _ _ _ _ Ha) as (HI & HF & Hem & Hkeys).
  destruct (Forall2_external_ids _ _ HF) as [Hids _].
  rewrite !map_app. f_equal.
  - rewrite external_first_ids.
    + rewrite <- Hids, map_map. reflexivity.
    + apply HI.
    + apply Forall_forall. intros it Hin. apply (inv_external _ _ HI).
      apply Hkeys. rewrite <- Hids. now apply (in_map (fun it => String_of (it_id it))).
  - apply tracked_only_tail_ids. intros k v Hin.
    apply (inv_id _ _ HI). apply in_get; [apply HI | exact Hin].
Qed.

(** The ids again: the keys that come after the external ones are
    pairwise distinct and are not canonical ids of the feed, and every
    key of [itemsMap] is the id of an entry of the final list. *)
Lemma reconcile_ids_tail (external : list Media) (tracked : list Ums) (out : list Item) :
  reconcile external tracked = Ok out ->
  exists items em st tail,
    run external tracked = Ok (items, em, st)
    /\ map it_id out = map VStr (map canonical_id external ++ tail)%list
    /\ NoDup tail
    /\ (forall k, In k tail -> ~ In k (map canonical_id external))
    /\ (forall k, JsMap.has k (itemsMap st) = true ->
                  In k (map canonical_id external ++ tail)%list).
Proof.
  intros H. destruct (reconcile_ids _ _ _ H) as (items & em & st & Hrun & _ & Hids).
  destruct (run_Inv _ _ _ _ _ Hrun) as (HI & _ & _ & Hkeys).
  exists items, em, st,
         (filter (fun k => negb (JsMap.has k em)) (JsMap.keys (itemsMap st))).
  split; [exact Hrun|]. split; [exact Hids|]. split; [apply NoDup_filter, HI|]. split.
  - intros k Hf Hk. apply filter_In in Hf. destruct Hf as [_ Hf].
    apply Hkeys in Hk. rewrite Hk in Hf. discriminate.
  - intros k Hk. apply in_or_app. destruct (JsMap.has k em) eqn:He.
    + left. now apply Hkeys.
    + right. apply filter_In. split; [now apply has_in_keys | now rewrite He].
Qed.

(** ** No duplicate ids *)

Lemma NoDup_map_VStr (l : list string) : NoDup l -> NoDup (map VStr l).
Proof.
  induction 1 as [|x l Hx Hnd IH]; simpl; constructor; [|assumption].
  rewrite in_map_iff. intros (y & Heq & Hy). inversion Heq; subst. contradiction.
Qed.

(** C1, as stated, fails: a feed with two elements of canonical id "7"
    and no tracked record gives a list of two entries with id "7". *)
Lemma reconcile_twice_seven :
  exists out,
    reconcile twice_seven_feed [] = Ok out
    /\ map it_id out = [VStr "7"; VStr "7"]
    /\ ~ NoDup (map it_id out).
Proof.
  eexists. split; [vm_compute; reflexivity|]. split; [reflexivity|].
  simpl. intros H. inversion H as [|? ? Hin _]. apply Hin. now left.
Qed.

(** C1, amended: when the canonical ids of the external items are
    pairwise distinct, no two entries of the final list share an id,
    whatever the tracked records are. *)
Theorem reconcile_ids_unique (external : list Media) (tracked : list Ums)
    (out : list Item) :
  NoDup (map canonical_id external) ->
  reconcile external tracked = Ok out ->
  NoDup (map it_id out).
Proof.
  intros Hnd H.
  destruct (reconcile_ids_tail _ _ _ H) as (items & em & st & tail & _ & -> & Htail & Hdis & _).
  apply NoDup_map_VStr, NoDup_app; [assumption | assumption |].
  intros k Hk Hf. exact (Hdis k Hf Hk).
Qed.

Lemma reconcile_ids_unique_witness :
  NoDup (map canonical_id dune_feed)
  /\ exists out,
       reconcile dune_feed two_tracked = Ok out /\ NoDup (map it_id out).
Proof.
  assert (Hnd : NoDup (map canonical_id dune_feed)).
  { simpl. constructor; [simpl; tauto | constructor]. }
  split; [exact Hnd|].
  eexists. split; [vm_compute; reflexivity|].
  apply (reconcile_ids_unique dune_feed two_tracked); [exact Hnd | vm_compute; reflexivity].
Defined.

(** ** The year of the fallback comparison *)

Lemma slice0_empty (n : nat) (s : string) :
  JsString.slice0 n s = "" -> n = 0 \/ s = "".
Proof.
  unfold JsString.slice0. destruct n; [auto|]. destruct s; simpl; [auto | discriminate].
Qed.

Lemma external_item_year (m : Media) (it : Item) :
  external_item m = Ok it ->
  it_year it = if truthy (m_releaseDate m)
               then VStr (JsString.slice0 4 (String_of (m_releaseDate m)))
               else VUndefined.
Proof.
  unfold external_item. intros H. inv_bind H. inv_bind H.
  inversion H; subst; clear H. simpl.
  unfold js_or in Ha0. destruct (truthy (m_releaseDate m)) eqn:Hd.
  - destruct (m_releaseDate m) as [| |b|x|s]; try discriminate.
    simpl in Ha0. inversion Ha0; subst. simpl in *.
    unfold js_or. simpl.
    destruct (JsString.slice0 4 s) eqn:Hs; [|reflexivity].
    apply slice0_empty in Hs. destruct Hs as [Hs|Hs]; [discriminate|].
    subst. discriminate.
  - simpl in Ha0. inversion Ha0; subst. reflexivity.
Qed.

(** C4, as stated, fails: the tracked record "Dune" with release date
    "abcd" has the year key "abcd", not an absent one, and is kept from
    matching the external item "Dune" of 2021; it becomes an entry of
    its own. *)
Lemma malformed_date_blocks_fallback :
  toYear (m_releaseDate (media_of dune_no_date)) = VNum JsNumber.NaN
  /\ year_key (media_of dune_no_date) = VStr "abcd"
  /\ exists out,
       reconcile dune_feed [dune_no_date] = Ok out
       /\ map it_id out = [VStr "7"; VStr "r1"]
       /\ map it_title out = [VStr "Dune"; VStr "Dune"]
       /\ map it_status out = [VUndefined; VStr "COMPLETED"].
Proof.
  split; [reflexivity|]. split; [reflexivity|].
  eexists. split; [vm_compute; reflexivity|]. repeat split; reflexivity.
Qed.

(** C4, amended: the year of an external item is the first four
    characters of its release date, as a string, and is absent when the
    date is missing or empty.  The year key of a tracked record is
    absent when its date is missing or empty; it is the number read from
    the first four characters of the date when that number is neither
    NaN nor zero, and otherwise those four characters themselves.  Only
    an absent year is a wild card: a record with a date matches an
    external item of the same title exactly when that item has no year
    or its year is the text of the record's year key, which for a date
    that does not start with a number is its first four characters. *)
Theorem year_key_rule (m : Media) :
  let d := m_releaseDate m in
  let lead := JsString.slice0 4 (String_of d) in
  let n := JsNumber.ofString lead in
  year_key m = (if truthy d
                then if JsNumber.truthy n then VNum n else VStr lead
                else VUndefined)
  /\ (forall it, external_item m = Ok it ->
        it_year it = if truthy d then VStr lead else VUndefined)
  /\ (forall titleKey extTitle extYear,
        truthy d = true ->
        (fallback_test titleKey (year_key m) extTitle extYear = true
         <-> extTitle <> "" /\ extTitle = titleKey
             /\ (nullish extYear = true
                 \/ String_of extYear
                    = if JsNumber.truthy n then JsNumber.toString n else lead))).
Proof.
  intros d lead n.
  assert (Hkey : year_key m = (if truthy d
                               then if JsNumber.truthy n then VNum n else VStr lead
                               else VUndefined)).
  { unfold year_key, toYear, js_or. fold d. destruct (truthy d); [|reflexivity].
    fold lead. fold n. simpl. destruct (JsNumber.truthy n); reflexivity. }
  split; [exact Hkey|]. split; [apply external_item_year|].
  intros titleKey extTitle extYear Hd. rewrite Hkey, Hd.
  unfold fallback_test.
  rewrite !andb_true_iff, !orb_true_iff, negb_true_iff, is_empty_false, !String.eqb_eq.
  destruct (JsNumber.truthy n); simpl; intuition discriminate.
Qed.

Lemma year_key_rule_witness :
  truthy (m_releaseDate (media_of dune_no_date)) = true
  /\ (fallback_test "dune" (year_key (media_of dune_no_date)) "dune" (VStr "2021") = true
      <-> "dune" <> "" /\ "dune" = "dune"
          /\ (nullish (VStr "2021") = true \/ String_of (VStr "2021") = "abcd")).
Proof.
  split; [reflexivity|].
  apply (year_key_rule (media_of dune_no_date)); reflexivity.
Defined.

(** The two sides do not read a year in the same way: the tracked date
    "0099-01-01" has the year key 99, whose text is not the year "0099"
    of an external item with the very same date. *)
Lemma leading_zero_year_differs :
  year_key (media_of (tracked_movie VUndefined VUndefined (VStr "Ben-Hur")
                        (VStr "0099-01-01") VUndefined VUndefined))
  = VNum (JsNumber.Dec false 99 0)
  /\ fallback_test "ben-hur" (VNum (JsNumber.Dec false 99 0)) "ben-hur" (VStr "0099")
     = false.
Proof. split; reflexivity. Qed.

(** ** Records without a title *)


Lemma lower_or_empty_string (s : string) :
  lower_or_empty (VStr s) = Ok (JsString.toLowerCase s).
Proof.
  unfold lower_or_empty, js_or. simpl. destruct s; reflexivity.
Qed.

(** ** What a merge writes *)

Lemma merge_into_spec (externalMap : JsMap.t Item) (st st' : State) (ums : Ums)
    (m : Media) (i e : option string) (c : string) (old : Item) :
  JsMap.get c (itemsMap st) = Some old ->
  merge_into externalMap st ums m i e c = Ok st' ->
  exists ty,
    lower_or_empty (m_type m) = Ok ty
    /\ itemsMap st'
       = JsMap.set c (overlay old ums
                        (collection_href ty (js_coalesce (m_mediaId m) (ums_id ums))))
                   (itemsMap st)
    /\ aliasMap st' = alias_key i c (alias_key e c (aliasMap st)).
Proof.
  intros Hold H. unfold merge_into in H. inv_bind H. inversion H; subst; clear H.
  rewrite (base_of_present _ _ _ _ Hold). exists a. simpl. auto.
Qed.



(** ** The order of the identifier tests *)

Lemma key_in_string_or_null {V : Type} (v : value) (map : JsMap.t V) :
  key_in (string_or_null v) map = truthy v && JsMap.has (String_of v) map.
Proof.
  unfold key_in, string_or_null. destruct (truthy v) eqn:Hv; [|reflexivity].
  apply String_of_truthy, is_empty_false in Hv. now rewrite Hv.
Qed.




(** ** The fallback match *)

Lemma title_key_textual (v : value) : textual v -> exists t, title_key v = Ok t.
Proof.
  unfold title_key, js_or. intros [Hf|[s ->]].
  - rewrite Hf. simpl. eauto.
  - destruct (truthy (VStr s)); simpl; eauto.
Qed.

Lemma external_item_title (m : Media) (it : Item) :
  external_item m = Ok it -> textual (m_title m) -> textual (it_title it).
Proof.
  unfold external_item. intros H Ht. inv_bind H. inv_bind H.
  inversion H; subst; clear H. simpl. unfold js_coalesce.
  destruct (nullish (m_title m)); [right; eauto | exact Ht].
Qed.

Lemma external_item_year_or (m : Media) (it : Item) :
  external_item m = Ok it -> js_or (it_year it) VUndefined = it_year it.
Proof.
  intros H. rewrite (external_item_year _ _ H). unfold js_or.
  destruct (truthy (m_releaseDate m)) eqn:Hd; [|reflexivity].
  destruct (truthy (VStr _)) eqn:Ht; [reflexivity|].
  simpl in Ht. apply negb_false_iff, is_empty_true, slice0_empty in Ht.
  destruct Ht as [Ht|Ht]; [discriminate|].
  now apply String_of_truthy in Hd.
Qed.

(** With pairwise distinct keys, a map filled by successive [set]s has
    its entries in the order of the [set]s. *)
Lemma fold_set_distinct (items : list Item) :
  forall m0,
    NoDup (map (fun it => String_of (it_id it)) items) ->
    (forall it, In it items -> JsMap.has (String_of (it_id it)) m0 = false) ->
    fold_left (fun acc it => JsMap.set (String_of (it_id it)) it acc) items m0
    = (m0 ++ map (fun it => (String_of (it_id it), it)) items)%list.
Proof.
  induction items as [|it rest IH]; simpl; intros m0 Hnd Hfresh.
  - now rewrite app_nil_r.
  - inversion Hnd as [|? ? Hnotin Hnd']; subst.
    rewrite IH.
    + rewrite set_absent by (apply Hfresh; now left).
      rewrite <- app_assoc. reflexivity.
    + assumption.
    + intros it' Hin. rewrite has_set.
      rewrite (Hfresh it') by now right. rewrite orb_false_r.
      apply String.eqb_neq. intros Heq. apply Hnotin. rewrite <- Heq.
      now apply (in_map (fun it => String_of (it_id it))).
Qed.

Lemma run_distinct_entries (external : list Media) (tracked : list Ums)
    (items : list Item) (em : JsMap.t Item) (st : State) :
  run external tracked = Ok (items, em, st) ->
  NoDup (map canonical_id external) ->
  JsMap.entries em = map (fun it => (String_of (it_id it), it)) items.
Proof.
  intros Hrun Hnd. destruct (run_Inv _ _ _ _ _ Hrun) as (_ & HF & -> & _).
  destruct (Forall2_external_ids _ _ HF) as [Hids _].
  unfold init_itemsMap, JsMap.entries. rewrite fold_set_distinct.
  - reflexivity.
  - now rewrite Hids.
  - reflexivity.
Qed.

Lemma fallback_loop_first_match (titleKey : string) (yearKey : value) (items : list Item) :
  titleKey <> "" ->
  Forall (fun it => textual (it_title it)
                    /\ js_or (it_year it) VUndefined = it_year it) items ->
  fallback_loop titleKey yearKey (map (fun it => (String_of (it_id it), it)) items)
  = Ok (first_match (same_title_and_year titleKey yearKey) items).
Proof.
  intros Hne. unfold first_match.
  induction 1 as [|it rest [Ht Hy] HF IH]; simpl; [reflexivity|].
  destruct (title_key_textual _ Ht) as [t Hk].
  unfold same_title_and_year at 1. rewrite Hk, Hy. simpl. unfold fallback_test.
  destruct (String.eqb_spec t titleKey) as [->|Hneq].
  - apply is_empty_false in Hne. rewrite Hne. simpl.
    destruct (nullish yearKey || nullish (it_year it)
              || String.eqb (String_of (it_year it)) (String_of yearKey));
      [reflexivity | exact IH].
  - rewrite andb_false_r. simpl. exact IH.
Qed.

(** C3, as stated, fails: a tracked record and an external item whose
    trimmed titles are both empty are equal by title, with no year on
    either side, and yet the record is not merged into the item. *)
Lemma empty_titles_do_not_match :
  title_key (m_title (media_of blank_tracked)) = Ok ""
  /\ first_match (same_title_and_year "" (year_key (media_of blank_tracked))) untitled_items
     = Some "7"
  /\ fallback_canonical untitled_externalMap (media_of blank_tracked) = Ok None
  /\ exists out,
       reconcile untitled_feed [blank_tracked] = Ok out
       /\ map it_id out = [VStr "7"; VStr "r1"]
       /\ map it_status out = [VUndefined; VStr "COMPLETED"].
Proof.
  split; [reflexivity|]. split; [reflexivity|]. split; [reflexivity|].
  eexists. split; [vm_compute; reflexivity|]. split; reflexivity.
Qed.

(** When a canonical id comes twice in the feed, the fallback does not
    go through the feed in its order either: "Brazil" is found under
    "7", the key of the first element, which carries the title of the
    third, and not under "8". *)
Lemma fallback_order_with_repeated_id :
  exists items em st,
    run repeated_id_feed [] = Ok (items, em, st)
    /\ first_match (same_title_and_year "brazil" VUndefined) items = Some "8"
    /\ fallback_loop "brazil" VUndefined (JsMap.entries em) = Ok (Some "7").
Proof.
  do 3 eexists. split; [vm_compute; reflexivity|]. split; reflexivity.
Qed.

(** An external item whose canonical id is the empty string is found by
    the loop and stops it, but [if (fallbackCanonical)] then fails: the
    record becomes a tracked-only entry, though the item "8" has its
    title too. *)
Lemma nameless_match_is_tracked_only :
  run nameless_feed [] = Ok (nameless_items, nameless_externalMap, nameless_state)
  /\ fallback_canonical nameless_externalMap (media_of dune_by_title) = Ok (Some "")
  /\ process_ums nameless_externalMap nameless_state dune_by_title
     = track_only nameless_state dune_by_title (media_of dune_by_title) None None.
Proof.
  split; [reflexivity|]. split; reflexivity.
Qed.

(** C3, amended: for a tracked record whose trimmed title is not empty,
    over a feed with pairwise distinct canonical ids, the titles, types
    and release dates being ASCII text, the fallback gives the first
    external item, in the order of the feed, whose trimmed lower-case
    title equals that of the record and whose year, when both sides have
    one, equals the year key of the record.  A canonical id found by the
    identifier tests is used whatever the fallback would give; when the
    tests find none, the record is merged into the item the fallback
    gives, unless the canonical id of that item is the empty string; it
    becomes a tracked-only entry when the fallback gives none, and when
    it gives the item whose canonical id is the empty string. *)
Theorem fallback_first_in_feed_order (external : list Media) (seen : list Ums)
    (externalItems : list Item) (externalMap : JsMap.t Item) (st : State)
    (ums : Ums) (titleKey : string) :
  let m := media_of ums in
  let umsInternal := string_or_null (m_mediaId m) in
  let umsExternal := string_or_null (m_externalMediaId m) in
  let merge := merge_into externalMap st ums m umsInternal umsExternal in
  let found := first_match (same_title_and_year titleKey (year_key m)) externalItems in
  run external seen = Ok (externalItems, externalMap, st) ->
  NoDup (map canonical_id external) ->
  ascii_inputs external (seen ++ [ums]) = true ->
  Forall (fun x => textual (m_title x)) external ->
  title_key (m_title m) = Ok titleKey ->
  titleKey <> "" ->
  fallback_canonical externalMap m = Ok found
  /\ (forall c, resolve_canonical st umsInternal umsExternal = Some c ->
                process_ums externalMap st ums = merge c)
  /\ (resolve_canonical st umsInternal umsExternal = None ->
      forall c, found = Some c -> c <> "" ->
                process_ums externalMap st ums = merge c)
  /\ (resolve_canonical st umsInternal umsExternal = None ->
      found = Some "" ->
      process_ums externalMap st ums = track_only st ums m umsInternal umsExternal)
  /\ (resolve_canonical st umsInternal umsExternal = None ->
      found = None ->
      process_ums externalMap st ums = track_only st ums m umsInternal umsExternal).
Proof.
  intros m i e merge found Hrun Hnd _ Htit Hkey Hne.
  destruct (run_Inv _ _ _ _ _ Hrun) as (HI & HF & _ & _).
  assert (Hfb : fallback_canonical externalMap m = Ok found).
  { unfold fallback_canonical. rewrite Hkey. simpl.
    pose proof Hne as Hne'. apply is_empty_false in Hne'. rewrite Hne'. simpl.
    rewrite (run_distinct_entries _ _ _ _ _ Hrun Hnd).
    apply fallback_loop_first_match; [assumption|].
    clear - HF Htit. induction HF as [|x it xs its Hx HF IH]; constructor.
    - inversion Htit; subst. split.
      + eapply external_item_title; eauto.
      + eapply external_item_year_or; eauto.
    - apply IH. now inversion Htit. }
  split; [exact Hfb|]. unfold process_ums. fold m i e. repeat split.
  - intros c Hc. rewrite Hc. destruct (resolve_canonical_has _ _ _ _ _ HI Hc) as [Hcne _].
    apply is_empty_false in Hcne. simpl. now rewrite Hcne.
  - intros Hnone c Hc Hcne. rewrite Hnone, Hfb, Hc. simpl.
    apply is_empty_false in Hcne. now rewrite Hcne.
  - intros Hnone Hc. rewrite Hnone, Hfb, Hc. reflexivity.
  - intros Hnone Hc. rewrite Hnone, Hfb, Hc. reflexivity.
Qed.

Lemma fallback_first_in_feed_order_witness :
  run dune_feed [] = Ok (dune_items, dune_externalMap, dune_state)
  /\ NoDup (map canonical_id dune_feed)
  /\ ascii_inputs dune_feed ([] ++ [dune_by_title]) = true
  /\ Forall (fun x => textual (m_title x)) dune_feed
  /\ title_key (m_title (media_of dune_by_title)) = Ok "dune"
  /\ "dune" <> ""
  /\ fallback_canonical dune_externalMap (media_of dune_by_title) = Ok (Some "7").
Proof.
  assert (Hnd : NoDup (map canonical_id dune_feed)).
  { simpl. constructor; [simpl; tauto | constructor]. }
  assert (Ht : Forall (fun x => textual (m_title x)) dune_feed).
  { constructor; [right; eexists; reflexivity | constructor]. }
  assert (Hne : "dune" <> "") by discriminate.
  split; [reflexivity|]. split; [exact Hnd|]. split; [reflexivity|]. split; [exact Ht|].
  split; [reflexivity|]. split; [exact Hne|].
  exact (proj1 (fallback_first_in_feed_order dune_feed [] dune_items dune_externalMap
                  dune_state dune_by_title "dune" eq_refl Hnd eq_refl Ht eq_refl Hne)).
Defined.

(** ** Totality *)

Lemma lower_or_empty_textual (v : value) : textual v -> exists t, lower_or_empty v = Ok t.
Proof.
  unfold lower_or_empty, js_or. intros [Hf|[s ->]].
  - rewrite Hf. simpl. eauto.
  - destruct (truthy (VStr s)); simpl; eauto.
Qed.

Lemma slice_or_empty_textual (v : value) :
  textual v -> exists t, string_method (JsString.slice0 4) (js_or v (VStr "")) = Ok t.
Proof.
  unfold js_or. intros [Hf|[s ->]].
  - rewrite Hf. simpl. eauto.
  - destruct (truthy (VStr s)); simpl; eauto.
Qed.

Lemma external_item_total (m : Media) :
  well_typed_media m -> exists it, external_item m = Ok it.
Proof.
  intros (Ht & Hty & Hd). unfold external_item.
  destruct (lower_or_empty_textual _ Hty) as [ty ->].
  destruct (slice_or_empty_textual _ Hd) as [yr ->].
  simpl. eauto.
Qed.

Lemma map_external_total (external : list Media) :
  Forall well_typed_media external ->
  forall em am, exists r, map_external external em am = Ok r.
Proof.
  induction 1 as [|m rest Hm HF IH]; simpl; intros em am; [eauto|].
  destruct (external_item_total _ Hm) as [it ->]. simpl.
  destruct (IH (JsMap.set (canonical_id m) it em)
               (alias_value (m_mediaId m) (canonical_id m)
                  (alias_value (m_externalMediaId m) (canonical_id m) am)))
    as [[[items em'] am'] ->].
  simpl. eauto.
Qed.

Lemma fallback_loop_total (titleKey : string) (yearKey : value)
    (entries : list (string * Item)) :
  Forall (fun kv => textual (it_title (snd kv))) entries ->
  exists f, fallback_loop titleKey yearKey entries = Ok f.
Proof.
  induction 1 as [|[k it] rest Ht HF IH]; simpl; [eauto|].
  simpl in Ht. destruct (title_key_textual _ Ht) as [t ->]. simpl.
  destruct (fallback_test _ _ _ _); eauto.
Qed.

Lemma process_ums_total (externalMap : JsMap.t Item) (st : State) (ums : Ums) :
  Forall (fun kv => textual (it_title (snd kv))) externalMap ->
  well_typed_tracked ums ->
  exists st', process_ums externalMap st ums = Ok st'.
Proof.
  intros Hem [Ht Hty]. unfold process_ums, merge_into, track_only, new_item.
  destruct (lower_or_empty_textual _ Hty) as [ty ->]. simpl.
  destruct (if_truthy (resolve_canonical _ _ _)); [eauto|].
  unfold fallback_canonical. destruct (title_key_textual _ Ht) as [t ->]. simpl.
  destruct (negb (JsString.is_empty t)); simpl.
  - unfold JsMap.entries.
    destruct (fallback_loop_total t (year_key (media_of ums)) _ Hem) as [f ->]. simpl.
    destruct (if_truthy f); eauto.
  - eauto.
Qed.

Lemma tracked_loop_total (externalMap : JsMap.t Item) (tracked : list Ums) :
  Forall (fun kv => textual (it_title (snd kv))) externalMap ->
  Forall well_typed_tracked tracked ->
  forall st, exists st', tracked_loop externalMap st tracked = Ok st'.
Proof.
  intros Hem. induction 1 as [|ums rest Hu HF IH]; simpl; intros st; [eauto|].
  destruct (process_ums_total _ st _ Hem Hu) as [st1 ->]. simpl. apply IH.
Qed.

Lemma fold_set_in (items : list Item) :
  forall m0 k v,
    In (k, v) (fold_left (fun acc it => JsMap.set (String_of (it_id it)) it acc) items m0) ->
    In (k, v) m0 \/ In v items.
Proof.
  induction items as [|it rest IH]; simpl; intros m0 k v Hin; [auto|].
  destruct (IH _ _ _ Hin) as [H|H]; [|auto].
  destruct (JsMap.has (String_of (it_id it)) m0) eqn:Hh.
  - destruct (set_present_split _ it _ Hh) as (pre & old & post & Hm & _ & Hset).
    rewrite Hset in H. rewrite Hm. rewrite in_app_iff in *. simpl in *.
    destruct H as [H|[H|H]]; auto. inversion H; subst. auto.
  - rewrite (set_absent _ _ _ Hh), in_app_iff in H. simpl in H.
    destruct H as [H|[H|[]]]; auto. inversion H; subst. auto.
Qed.

Lemma map_external_titles (external : list Media) (items : list Item) :
  Forall2 (fun m it => external_item m = Ok it) external items ->
  Forall well_typed_media external ->
  Forall (fun it => textual (it_title it)) items.
Proof.
  induction 1 as [|m it external items Hm HF IH]; intros Hwt; constructor.
  - inversion Hwt as [|? ? (Ht & _) _]; subst. eapply external_item_title; eauto.
  - apply IH. now inversion Hwt.
Qed.




(** ** Aliases of a tracked-only entry *)

Lemma process_ums_mono (externalMap : JsMap.t Item) (st st' : State) (ums : Ums) :
  process_ums externalMap st ums = Ok st' ->
  (forall k, JsMap.has k (itemsMap st) = true -> JsMap.has k (itemsMap st') = true)
  /\ (forall k, JsMap.has k (aliasMap st) = true -> JsMap.has k (aliasMap st') = true).
Proof.
  rewrite process_ums_outcome. intros H. inv_bind H. destruct a as [c|].
  - unfold merge_into in H. inv_bind H. inversion H; subst; clear H. simpl.
    split; intros k Hk; auto using has_set_mono, alias_key_has.
  - unfold track_only in H. inv_bind H. inversion H; subst; clear H. simpl.
    split; intros k Hk; auto using has_set_mono, alias_key_has.
Qed.

Lemma tracked_loop_mono (externalMap : JsMap.t Item) (tracked : list Ums) :
  forall st st',
    tracked_loop externalMap st tracked = Ok st' ->
    (forall k, JsMap.has k (itemsMap st) = true -> JsMap.has k (itemsMap st') = true)
    /\ (forall k, JsMap.has k (aliasMap st) = true -> JsMap.has k (aliasMap st') = true).
Proof.
  induction tracked as [|ums rest IH]; simpl; intros st st' H.
  - inversion H; subst. auto.
  - inv_bind H. destruct (process_ums_mono _ _ _ _ Ha) as [H1 H2].
    destruct (IH _ _ H) as [H3 H4]. split; auto.
Qed.

Lemma resolve_canonical_alias (externalMap : JsMap.t Item) (st : State)
    (i e : option string) (x : string) :
  Inv externalMap st ->
  x <> "" -> JsMap.has x (aliasMap st) = true ->
  i = Some x \/ e = Some x ->
  exists c, resolve_canonical st i e = Some c.
Proof.
  intros HI Hx Hh Hshare. unfold resolve_canonical.
  assert (Hget : forall k, JsMap.has k (aliasMap st) = true ->
                           exists c, JsMap.get k (aliasMap st) = Some c).
  { intros k. apply has_true_iff. }
  destruct (key_in i (itemsMap st)) eqn:H1.
  { apply key_in_true in H1. destruct H1 as (s & -> & _). eauto. }
  destruct (key_in e (aliasMap st)) eqn:H2.
  { apply key_in_true in H2. destruct H2 as (s & -> & _ & Hs). now apply Hget. }
  destruct (key_in e (itemsMap st)) eqn:H3.
  { apply key_in_true in H3. destruct H3 as (s & -> & _). eauto. }
  destruct Hshare as [->| ->].
  - assert (H4 : key_in (Some x) (aliasMap st) = true).
    { apply key_in_true. eauto. }
    rewrite H4. now apply Hget.
  - assert (H2' : key_in (Some x) (aliasMap st) = true).
    { apply key_in_true. eauto. }
    congruence.
Qed.

(** C10, as stated, fails: "Dune", known only by the external id "E",
    becomes the tracked-only entry "E" and "E" is registered as its
    alias; the next record has the same external id "E" and the internal
    id "9" of an external item, and is merged into "9", not into "E". *)
Lemma shared_external_id_other_entry :
  run heat_feed [dune_external_E] = Ok (heat_items, heat_externalMap, heat_state_E)
  /\ JsMap.get "E" (aliasMap heat_state_E) = Some "E"
  /\ outcome_of heat_externalMap heat_state_E nine_external_E = Ok (Merge "9")
  /\ exists out,
       reconcile heat_feed [dune_external_E; nine_external_E] = Ok out
       /\ map it_id out = [VStr "9"; VStr "E"]
       /\ map it_status out = [VStr "WATCHING"; VStr "COMPLETED"].
Proof.
  split; [reflexivity|]. split; [reflexivity|]. split; [reflexivity|].
  eexists. split; [vm_compute; reflexivity|]. split; reflexivity.
Qed.

(** C10, amended: when a tracked record becomes a tracked-only entry,
    its internal and external identifiers are registered in the alias
    map and point at the new canonical id.  Every later record of the
    same call that shares one of these identifiers is resolved by the
    identifier tests to an entry that exists and is merged onto it: it
    never makes a second tracked-only entry.  It is merged onto that
    same entry when it has the same internal id; and when it has the
    same external id, provided its own internal id is not a canonical id
    and the alias still points at the entry. *)
Theorem tracked_only_aliases (external : list Media) (seen between : list Ums)
    (externalItems : list Item) (externalMap : JsMap.t Item)
    (st0 st1 st2 : State) (first later : Ums) :
  let m1 := media_of first in
  let m2 := media_of later in
  let i1 := string_or_null (m_mediaId m1) in
  let e1 := string_or_null (m_externalMediaId m1) in
  let i2 := string_or_null (m_mediaId m2) in
  let e2 := string_or_null (m_externalMediaId m2) in
  let merge := merge_into externalMap st2 later m2 i2 e2 in
  run external seen = Ok (externalItems, externalMap, st0) ->
  outcome_of externalMap st0 first = Ok TrackOnly ->
  process_ums externalMap st0 first = Ok st1 ->
  tracked_loop externalMap st1 between = Ok st2 ->
  (forall x, i1 = Some x \/ e1 = Some x ->
             JsMap.get x (aliasMap st1) = Some (new_key first m1))
  /\ JsMap.has (new_key first m1) (itemsMap st1) = true
  /\ (forall x, i1 = Some x \/ e1 = Some x -> i2 = Some x \/ e2 = Some x ->
        exists c, JsMap.has c (itemsMap st2) = true
                  /\ process_ums externalMap st2 later = merge c
                  /\ forall st3, process_ums externalMap st2 later = Ok st3 ->
                                 JsMap.keys (itemsMap st3) = JsMap.keys (itemsMap st2))
  /\ (forall x, i1 = Some x -> i2 = Some x ->
        process_ums externalMap st2 later = merge (new_key first m1))
  /\ (forall x, e1 = Some x -> e2 = Some x ->
        key_in i2 (itemsMap st2) = false ->
        JsMap.get x (aliasMap st2) = Some (new_key first m1) ->
        process_ums externalMap st2 later = merge (new_key first m1)).
Proof.
  intros m1 m2 i1 e1 i2 e2 merge Hrun Hout Hstep Hloop.
  destruct (run_Inv _ _ _ _ _ Hrun) as (HI0 & _).
  pose proof (process_ums_Inv _ _ _ _ HI0 Hstep) as HI1.
  pose proof (tracked_loop_Inv _ _ _ _ HI1 Hloop) as HI2.
  destruct (tracked_loop_mono _ _ _ _ Hloop) as [Hmono_i Hmono_a].
  rewrite process_ums_outcome, Hout in Hstep. simpl in Hstep.
  unfold track_only in Hstep. inv_bind Hstep. inversion Hstep; subst st1; clear Hstep.
  simpl in *. fold m1 i1 e1 in Hmono_a |- *.
  assert (Hreg : forall x, i1 = Some x \/ e1 = Some x ->
             JsMap.get x (alias_key i1 (new_key first m1)
                            (alias_key e1 (new_key first m1) (aliasMap st0)))
             = Some (new_key first m1)).
  { intros x [Hx|Hx].
    - apply alias_key_registered; [exact Hx|].
      now destruct (string_or_null_some _ _ Hx) as (_ & _ & Hne).
    - destruct (string_or_null_some _ _ Hx) as (_ & _ & Hne).
      unfold alias_key at 1. destruct i1 as [s|].
      + destruct (JsString.is_empty s) eqn:Hs.
        * now apply alias_key_registered.
        * destruct (String.eqb_spec x s) as [->|Hxs].
          -- apply get_set_same.
          -- rewrite get_set_other by assumption. now apply alias_key_registered.
      + now apply alias_key_registered. }
  assert (Hpick : forall c, resolve_canonical st2 i2 e2 = Some c ->
             JsMap.has c (itemsMap st2) = true
             /\ process_ums externalMap st2 later = merge c).
  { intros c Hc. destruct (resolve_canonical_has _ _ _ _ _ HI2 Hc) as [Hne Hh].
    split; [exact Hh|]. unfold process_ums. fold m2 i2 e2. rewrite Hc. simpl.
    apply is_empty_false in Hne. now rewrite Hne. }
  assert (Hkeep : forall c st3, JsMap.has c (itemsMap st2) = true ->
             merge c = Ok st3 -> JsMap.keys (itemsMap st3) = JsMap.keys (itemsMap st2)).
  { intros c st3 Hh Hm. unfold merge, merge_into in Hm. inv_bind Hm.
    inversion Hm; subst; simpl. now apply keys_set_present. }
  split; [exact Hreg|]. split; [rewrite has_set, String.eqb_refl; reflexivity|].
  split; [|split].
  - intros x H1 H2.
    assert (Hx : x <> "").
    { destruct H1 as [H1|H1]; now destruct (string_or_null_some _ _ H1) as (_ & _ & Hne). }
    assert (Hh : JsMap.has x (aliasMap st2) = true).
    { apply Hmono_a. apply has_true_iff. eauto. }
    destruct (resolve_canonical_alias _ _ i2 e2 _ HI2 Hx Hh H2) as [c Hc].
    destruct (Hpick _ Hc) as [Hhc Hp]. exists c. split; [exact Hhc|].
    split; [exact Hp|]. intros st3 H3. rewrite Hp in H3. eauto.
  - intros x H1 H2. apply Hpick.
    destruct (string_or_null_some _ _ H1) as (Ht & -> & Hne).
    assert (Hk : new_key first m1 = String_of (m_mediaId m1)).
    { unfold new_key, js_or. now rewrite Ht, Ht. }
    rewrite Hk. unfold resolve_canonical.
    assert (Hin : key_in i2 (itemsMap st2) = true).
    { apply key_in_true. exists (String_of (m_mediaId m1)). repeat split; auto.
      apply Hmono_i. fold m1. rewrite has_set, Hk, String.eqb_refl. reflexivity. }
    now rewrite Hin.
  - intros x H1 H2 Hno Hal. apply Hpick. unfold resolve_canonical. rewrite Hno.
    destruct (string_or_null_some _ _ H1) as (_ & _ & Hne).
    assert (Hin : key_in e2 (aliasMap st2) = true).
    { apply key_in_true. exists x. repeat split; auto. apply has_true_iff. eauto. }
    rewrite Hin, H2. exact Hal.
Qed.

Lemma tracked_only_aliases_witness :
  run heat_feed [] = Ok (heat_items, heat_externalMap, heat_state)
  /\ outcome_of heat_externalMap heat_state dune_external_E = Ok TrackOnly
  /\ process_ums heat_externalMap heat_state dune_external_E = Ok heat_state_E
  /\ tracked_loop heat_externalMap heat_state_E [] = Ok heat_state_E
  /\ process_ums heat_externalMap heat_state_E again_external_E
     = merge_into heat_externalMap heat_state_E again_external_E
                  (media_of again_external_E) None (Some "E") "E".
Proof.
  split; [reflexivity|]. split; [reflexivity|]. split; [reflexivity|].
  split; [reflexivity|].
  destruct (tracked_only_aliases heat_feed [] [] heat_items heat_externalMap
              heat_state heat_state_E heat_state_E dune_external_E again_external_E
              eq_refl eq_refl eq_refl eq_refl) as (_ & _ & _ & _ & H).
  exact (H "E" eq_refl eq_refl eq_refl eq_refl).
Defined.

(** ** Frames: what the loop keeps of every entry *)

Lemma frames_set_present (c : string) (v old : Item) (m : JsMap.t Item) :
  JsMap.get c m = Some old -> frame_of v = frame_of old ->
  frames (JsMap.set c v m) = frames m.
Proof.
  intros Hget Hf. induction m as [|[k w] m IH]; simpl in *; [discriminate|].
  destruct (String.eqb_spec c k) as [->|Hne]; simpl.
  - inversion Hget; subst. now rewrite Hf.
  - f_equal. auto.
Qed.

Lemma frames_set_absent (c : string) (v : Item) (m : JsMap.t Item) :
  JsMap.has c m = false ->
  frames (JsMap.set c v m) = (frames m ++ [(c, frame_of v)])%list.
Proof.
  intros H. rewrite (set_absent _ _ _ H). unfold frames. now rewrite map_app.
Qed.

Lemma get_frames (k : string) (m : JsMap.t Item) :
  JsMap.get k (frames m) = option_map frame_of (JsMap.get k m).
Proof.
  induction m as [|[k' v] m IH]; simpl; [reflexivity|].
  destruct (String.eqb k k'); [reflexivity | exact IH].
Qed.

Lemma get_app_left {V : Type} (k : string) (m1 m2 : JsMap.t V) (v : V) :
  JsMap.get k m1 = Some v -> JsMap.get k (m1 ++ m2)%list = Some v.
Proof.
  induction m1 as [|[k' v'] m1 IH]; simpl; [discriminate|].
  destruct (String.eqb k k'); auto.
Qed.

Lemma external_first_frames (im : JsMap.t Item) (items : list Item) :
  Forall (fun it => exists v, JsMap.get (String_of (it_id it)) im = Some v
                              /\ frame_of v = frame_of it) items ->
  map frame_of (external_first im items) = map frame_of items.
Proof.
  induction 1 as [|it rest (v & Hv & Hf) HF IH]; simpl; [reflexivity|].
  rewrite Hv. simpl. now rewrite Hf, IH.
Qed.

Lemma tracked_only_tail_frames (em : JsMap.t Item) (entries : list (string * Item)) :
  map frame_of (tracked_only_tail em entries)
  = map snd (filter (fun kf => negb (JsMap.has (fst kf) em)) (frames entries)).
Proof.
  induction entries as [|[k v] rest IH]; simpl; [reflexivity|].
  destruct (JsMap.has k em); simpl; now rewrite IH.
Qed.

Lemma resolve_canonical_none (st : State) (i e : option string) :
  resolve_canonical st i e = None ->
  key_in i (itemsMap st) = false /\ key_in e (itemsMap st) = false.
Proof.
  unfold resolve_canonical.
  destruct (key_in i (itemsMap st)) eqn:H1.
  { apply key_in_true in H1. destruct H1 as (s & -> & _). discriminate. }
  destruct (key_in e (aliasMap st)) eqn:H2.
  { apply key_in_true in H2. destruct H2 as (s & -> & _ & Hh).
    apply has_true_iff in Hh. destruct Hh as [c Hc]. congruence. }
  destruct (key_in e (itemsMap st)) eqn:H3.
  { apply key_in_true in H3. destruct H3 as (s & -> & _). discriminate. }
  auto.
Qed.

(** A record that takes the tracked-only branch and carries a media
    identifier gets a key that is new. *)
Lemma track_only_key_new (externalMap : JsMap.t Item) (st : State) (ums : Ums) :
  Inv externalMap st ->
  outcome_of externalMap st ums = Ok TrackOnly ->
  identified ums = true ->
  JsMap.has (new_key ums (media_of ums)) (itemsMap st) = false.
Proof.
  intros HI Hout Hid. unfold outcome_of in Hout.
  destruct (resolve_canonical st _ _) as [c|] eqn:Hres.
  { destruct (resolve_canonical_has _ _ _ _ _ HI Hres) as [Hne _].
    apply is_empty_false in Hne. simpl in Hout. rewrite Hne in Hout. discriminate. }
  apply resolve_canonical_none in Hres. destruct Hres as [H1 H2].
  rewrite key_in_string_or_null in H1, H2.
  unfold identified in Hid. unfold new_key, js_or.
  destruct (truthy (m_mediaId (media_of ums))) eqn:Hi; simpl in *.
  - rewrite Hi. exact H1.
  - rewrite Hid in *. simpl in H2. exact H2.
Qed.

Lemma existsb_eqb_false (k : string) (l : list string) :
  existsb (String.eqb k) l = false -> ~ In k l.
Proof.
  intros H Hin. assert (Ht : existsb (String.eqb k) l = true).
  { apply existsb_exists. exists k. split; [exact Hin | apply String.eqb_refl]. }
  congruence.
Qed.

(** The loop, frame by frame: entries that were there keep their place
    and their frame, and each record of the tracked-only branch adds one
    entry at the end. *)
Lemma tracked_loop_frames (externalMap : JsMap.t Item) (tracked : list Ums) :
  forall st st' used,
    Inv externalMap st ->
    (forall k, JsMap.has k (itemsMap st) = true -> In k used) ->
    row_keys_fresh used tracked = true ->
    tracked_loop externalMap st tracked = Ok st' ->
    exists created,
      Forall2 (fun ums it => new_item ums (media_of ums) = Ok it)
              (tracked_only_records externalMap st tracked) created
      /\ frames (itemsMap st')
         = (frames (itemsMap st)
            ++ map (fun it => (String_of (it_id it), frame_of it)) created)%list
      /\ Forall (fun it => JsMap.has (String_of (it_id it)) (itemsMap st) = false) created.
Proof.
  induction tracked as [|ums rest IH]; simpl; intros st st' used HI Hused Hfresh Hloop.
  - inversion Hloop; subst. exists []. simpl. rewrite app_nil_r. repeat constructor.
  - inv_bind Hloop. rename a into st1. rename Ha into Hstep.
    apply andb_true_iff in Hfresh. destruct Hfresh as [Hnow Hlater].
    pose proof (process_ums_Inv _ _ _ _ HI Hstep) as HI1.
    rewrite Hstep. rewrite process_ums_outcome in Hstep. inv_bind Hstep.
    rename a into o. rewrite Ha. destruct o as [c|].
    + destruct (outcome_merge_has _ _ _ _ HI Ha) as [Hc Hhas].
      pose proof Hhas as Hh. apply has_true_iff in Hh. destruct Hh as [old Hold].
      destruct (merge_into_spec _ _ _ _ _ _ _ _ _ Hold Hstep) as (ty & _ & Him & _).
      destruct (IH st1 st' (new_key ums (media_of ums) :: used) HI1) as (created & HF & Hfr & Hnew).
      * intros k Hk. right. apply Hused. rewrite Him, has_set in Hk.
        apply orb_true_iff in Hk. destruct Hk as [Hk|Hk]; [|exact Hk].
        apply String.eqb_eq in Hk. now subst.
      * exact Hlater.
      * exact Hloop.
      * exists created. split; [exact HF|]. split.
        -- rewrite Hfr, Him. f_equal. eapply frames_set_present; eauto.
        -- eapply Forall_impl; [|exact Hnew]. intros it Hit. simpl in Hit.
           rewrite Him, has_set in Hit. apply orb_false_iff in Hit. tauto.
    + assert (Hkey : JsMap.has (new_key ums (media_of ums)) (itemsMap st) = false).
      { destruct (identified ums) eqn:Hid.
        - eapply track_only_key_new; eauto.
        - simpl in Hnow. apply negb_true_iff, existsb_eqb_false in Hnow.
          destruct (JsMap.has _ (itemsMap st)) eqn:Hh; [|reflexivity].
          exfalso. apply Hnow. now apply Hused. }
      unfold track_only in Hstep. inv_bind Hstep. rename a into newItem.
      inversion Hstep; subst st1; clear Hstep. simpl in *.
      assert (Hid : it_id newItem = VStr (new_key ums (media_of ums))).
      { unfold new_item in Ha0. inv_bind Ha0. inversion Ha0; subst. reflexivity. }
      destruct (IH _ st' (new_key ums (media_of ums) :: used) HI1) as (created & HF & Hfr & Hnew).
      * intros k Hk. simpl in Hk. rewrite has_set in Hk.
        apply orb_true_iff in Hk. destruct Hk as [Hk|Hk].
        -- left. apply String.eqb_eq in Hk. now subst.
        -- right. now apply Hused.
      * exact Hlater.
      * exact Hloop.
      * exists (newItem :: created). split; [constructor; assumption|]. split.
        -- rewrite Hfr. simpl. rewrite frames_set_absent by exact Hkey.
           rewrite <- app_assoc. simpl. now rewrite Hid.
        -- constructor.
           ++ now rewrite Hid.
           ++ eapply Forall_impl; [|exact Hnew]. intros it Hit. simpl in Hit.
              rewrite has_set in Hit. apply orb_false_iff in Hit. tauto.
Qed.

Lemma Forall2_same_image {A B C : Type} (f : B -> C) (R : A -> B -> Prop)
    (l : list A) (items : list B) :
  Forall2 R l items ->
  forall its, map f its = map f items ->
  Forall2 (fun a it => exists it0, R a it0 /\ f it = f it0) l its.
Proof.
  induction 1 as [|a it0 l items Ha HF IH]; intros its Hmap.
  - destruct its; [constructor | discriminate].
  - destruct its as [|it its]; [discriminate|]. simpl in Hmap.
    inversion Hmap as [[Hhd Htl]]. constructor.
    + exists it0. split; assumption.
    + apply IH. exact Htl.
Qed.

Lemma Forall2_frames {A : Type} (R : A -> Item -> Prop) (l : list A) (items : list Item) :
  Forall2 R l items ->
  forall its, map frame_of its = map frame_of items ->
  Forall2 (fun a it => exists it0, R a it0 /\ frame_of it = frame_of it0) l its.
Proof. apply Forall2_same_image. Qed.

Lemma filter_all_out {A : Type} (p : A -> bool) (l : list A) :
  (forall x, In x l -> p x = false) -> filter p l = [].
Proof.
  induction l as [|x l IH]; simpl; intros H; [reflexivity|].
  rewrite (H x) by now left. apply IH. intros; apply H; now right.
Qed.

Lemma filter_all_in {A : Type} (p : A -> bool) (l : list A) :
  (forall x, In x l -> p x = true) -> filter p l = l.
Proof.
  induction l as [|x l IH]; simpl; intros H; [reflexivity|].
  rewrite (H x) by now left. f_equal. apply IH. intros; apply H; now right.
Qed.

Lemma run_inv (external : list Media) (tracked : list Ums)
    (items : list Item) (em : JsMap.t Item) (st : State) :
  run external tracked = Ok (items, em, st) ->
  exists st0,
    run external [] = Ok (items, em, st0)
    /\ itemsMap st0 = em
    /\ tracked_loop em st0 tracked = Ok st
    /\ unmatched external tracked = tracked_only_records em st0 tracked.
Proof.
  intros Hrun. pose proof Hrun as H. unfold run in H. inv_bind H.
  destruct a as [[items0 em0] am0]. inv_bind H. inversion H; subst; clear H.
  exists (mkState (init_itemsMap items) am0).
  assert (H0 : run external [] = Ok (items, em, mkState (init_itemsMap items) am0)).
  { unfold run. rewrite Ha. reflexivity. }
  split; [exact H0|]. split.
  - destruct (run_Inv _ _ _ _ _ H0) as (_ & _ & Hem & _). simpl. now rewrite Hem.
  - split; [exact Ha0|]. unfold unmatched. rewrite Ha. reflexivity.
Qed.

Lemma tracked_only_tail_in (em : JsMap.t Item) (entries : list (string * Item))
    (v : Item) :
  In v (tracked_only_tail em entries) ->
  exists k, In (k, v) entries /\ JsMap.has k em = false.
Proof.
  induction entries as [|[k w] rest IH]; simpl; [tauto|].
  destruct (JsMap.has k em) eqn:Hk.
  - intros H. destruct (IH H) as (k' & Hin & Hk'). eauto.
  - intros [->|H]; [eauto|]. destruct (IH H) as (k' & Hin & Hk'). eauto.
Qed.

(** The final list when the canonical ids of the feed are distinct and
    no row id runs into a key: one entry per external item, in the order
    of the feed and with its frame, then one entry per record of the
    tracked-only branch, in the order of the records. *)
Lemma reconcile_shape (external : list Media) (tracked : list Ums) (out : list Item) :
  NoDup (map canonical_id external) ->
  row_keys_fresh (map canonical_id external) tracked = true ->
  reconcile external tracked = Ok out ->
  exists fromExternal trackedOnly,
    out = (fromExternal ++ trackedOnly)%list
    /\ Forall2 derived_from external fromExternal
    /\ Forall2 made_from (unmatched external tracked) trackedOnly
    /\ (forall it m, In it trackedOnly -> In m external ->
                     it_id it <> VStr (canonical_id m)).
Proof.
  intros Hnd Hfresh H.
  destruct (reconcile_ids _ _ _ H) as (items & em & st & Hrun & Hout & _).
  destruct (run_Inv _ _ _ _ _ Hrun) as (HI & _ & _ & Hkeys').
  destruct (run_inv _ _ _ _ _ Hrun) as (st0 & Hrun0 & Him0 & Hloop & Hun).
  destruct (run_Inv _ _ _ _ _ Hrun0) as (HI0 & HF & Hem & Hkeys).
  destruct (Forall2_external_ids _ _ HF) as [Hids _].
  pose proof (run_distinct_entries _ _ _ _ _ Hrun0 Hnd) as Hentries.
  unfold JsMap.entries in Hentries.
  destruct (tracked_loop_frames em tracked st0 st (map canonical_id external) HI0)
    as (created & Hcreated & Hfr & Hnew); auto.
  { intros k Hk. apply Hkeys. now rewrite <- Him0. }
  rewrite Him0 in Hfr, Hnew.
  exists (external_first (itemsMap st) items),
         (tracked_only_tail em (JsMap.entries (itemsMap st))).
  split; [exact Hout|]. split; [|split].
  - apply (Forall2_frames _ _ _ HF). apply external_first_frames.
    apply Forall_forall. intros it Hin.
    assert (Hget : JsMap.get (String_of (it_id it)) em = Some it).
    { apply in_get.
      - rewrite <- Him0. apply HI0.
      - rewrite Hentries. now apply (in_map (fun it => (String_of (it_id it), it))). }
    assert (Hf : JsMap.get (String_of (it_id it)) (frames (itemsMap st))
                 = Some (frame_of it)).
    { rewrite Hfr. apply get_app_left. rewrite get_frames, Hget. reflexivity. }
    rewrite get_frames in Hf. destruct (JsMap.get _ (itemsMap st)) as [v|]; [|discriminate].
    exists v. split; [reflexivity|]. simpl in Hf. congruence.
  - rewrite Hun. apply (Forall2_frames _ _ _ Hcreated).
    rewrite tracked_only_tail_frames. unfold JsMap.entries. rewrite Hfr, filter_app.
    rewrite filter_all_out, filter_all_in; simpl.
    + rewrite map_map. reflexivity.
    + intros [k f] Hin. apply in_map_iff in Hin. destruct Hin as (it & Heq & Hin).
      inversion Heq; subst. simpl. rewrite Forall_forall in Hnew.
      now rewrite (Hnew _ Hin).
    + intros [k f] Hin. unfold frames in Hin. apply in_map_iff in Hin.
      destruct Hin as ([k' v] & Heq & Hin). inversion Heq; subst. simpl.
      apply negb_false_iff, has_in_keys. unfold JsMap.keys.
      now apply (in_map fst) in Hin.
  - intros it m Hit Hm Heq. apply tracked_only_tail_in in Hit.
    destruct Hit as (k & Hin & Hk). unfold JsMap.entries in Hin.
    assert (Hid : it_id it = VStr k).
    { apply (inv_id _ _ HI). apply in_get; [apply HI | exact Hin]. }
    rewrite Hid in Heq. inversion Heq; subst k.
    assert (Ht : JsMap.has (canonical_id m) em = true).
    { apply Hkeys'. now apply in_map. }
    congruence.
Qed.

(** ** The order of the final list *)

(** The records of the tracked-only branch are records of the list, and
    each took that branch at its turn. *)
Lemma tracked_only_records_in (externalMap : JsMap.t Item) (tracked : list Ums) :
  forall st ums,
    In ums (tracked_only_records externalMap st tracked) ->
    exists seen rest st1,
      tracked = (seen ++ ums :: rest)%list
      /\ tracked_loop externalMap st seen = Ok st1
      /\ outcome_of externalMap st1 ums = Ok TrackOnly.
Proof.
  induction tracked as [|u rest IH]; simpl; intros st ums Hin; [contradiction|].
  destruct (process_ums externalMap st u) as [st'|] eqn:Hstep; [|contradiction].
  assert (Hrest : In ums (tracked_only_records externalMap st' rest) ->
            exists seen rest0 st1,
              u :: rest = (seen ++ ums :: rest0)%list
              /\ tracked_loop externalMap st seen = Ok st1
              /\ outcome_of externalMap st1 ums = Ok TrackOnly).
  { intros H. destruct (IH _ _ H) as (seen & rest0 & st1 & -> & Hl & Ho).
    exists (u :: seen), rest0, st1. simpl. rewrite Hstep. simpl. auto. }
  destruct (outcome_of externalMap st u) as [[c|]|] eqn:Hout; auto.
  destruct Hin as [->|Hin]; [|auto].
  exists [], rest, st. simpl. auto.
Qed.

(** Records that all carry a media identifier never run into a key. *)
Lemma identified_row_keys_fresh (tracked : list Ums) :
  Forall (fun ums => identified ums = true) tracked ->
  forall used, row_keys_fresh used tracked = true.
Proof.
  induction 1 as [|ums rest Hid HF IH]; simpl; intros used; [reflexivity|].
  rewrite Hid. simpl. apply IH.
Qed.

(** C5, as stated, fails: in a feed where the canonical id "7" comes
    first and last, the entry made from the last element stands first in
    the final list, before the entry of the second, and the first
    element has no entry. *)
Lemma repeated_id_breaks_feed_order :
  exists out,
    reconcile seven_eight_seven_feed [] = Ok out
    /\ map it_title out = [VStr "Casablanca"; VStr "Brazil"; VStr "Casablanca"]
    /\ derived_from (nth 2 seven_eight_seven_feed empty_media) (nth 0 out empty_item)
    /\ derived_from (nth 1 seven_eight_seven_feed empty_media) (nth 1 out empty_item)
    /\ ~ Forall2 derived_from seven_eight_seven_feed out.
Proof.
  eexists. split; [vm_compute; reflexivity|]. split; [reflexivity|].
  split; [eexists; split; [vm_compute; reflexivity | reflexivity]|].
  split; [eexists; split; [vm_compute; reflexivity | reflexivity]|].
  intros H. inversion H as [|m it ms its (it0 & Hit0 & Hf) _]; subst.
  vm_compute in Hit0. inversion Hit0; subst. discriminate Hf.
Qed.

(** A row id that is the canonical id of an external item: the record
    without media identifiers and with row id 5 takes the place of the
    external item "5" in the final list. *)
Lemma row_id_takes_external_key :
  row_keys_fresh (map canonical_id five_six_feed) [row_five] = false
  /\ exists out,
       reconcile five_six_feed [row_five] = Ok out
       /\ map it_id out = [VStr "5"; VStr "6"]
       /\ map it_title out = [VStr "Zelig"; VStr "Brazil"]
       /\ map it_raw out = [None; Some (feed_item (VStr "6") (VStr "Brazil") VUndefined)].
Proof.
  split; [reflexivity|].
  eexists. split; [vm_compute; reflexivity|]. repeat split; reflexivity.
Qed.

(** C5, amended: when the canonical ids of the feed are pairwise
    distinct, no record without media identifiers has a row id that is
    already a key, and the titles, types and release dates of the two
    lists are ASCII text, the final list is the entries of the external
    items, one for each and in the order of the feed, merged or not,
    followed by the tracked-only entries in the order in which their
    records were met; no tracked-only entry has the id of an external
    item. *)
Theorem external_order_then_tracked_only (external : list Media) (tracked : list Ums)
    (out : list Item) :
  NoDup (map canonical_id external) ->
  row_keys_fresh (map canonical_id external) tracked = true ->
  ascii_inputs external tracked = true ->
  reconcile external tracked = Ok out ->
  exists fromExternal trackedOnly,
    out = (fromExternal ++ trackedOnly)%list
    /\ Forall2 derived_from external fromExternal
    /\ map it_id fromExternal = map (fun m => VStr (canonical_id m)) external
    /\ Forall2 made_from (unmatched external tracked) trackedOnly
    /\ map it_id trackedOnly
       = map (fun ums => VStr (new_key ums (media_of ums))) (unmatched external tracked)
    /\ (forall it m, In it trackedOnly -> In m external ->
                     it_id it <> VStr (canonical_id m)).
Proof.
  intros Hnd Hfresh _ H.
  destruct (reconcile_shape _ _ _ Hnd Hfresh H)
    as (fromExternal & trackedOnly & Hout & Hext & Htr & Hdis).
  exists fromExternal, trackedOnly. repeat split; auto.
  - clear - Hext. induction Hext as [|m it ms its (it0 & Hit0 & Hf) _ IH]; simpl;
      [reflexivity|].
    rewrite IH. f_equal. apply external_item_id in Hit0.
    unfold frame_of in Hf. inversion Hf. congruence.
  - clear - Htr. induction Htr as [|ums it us its (it0 & Hit0 & Hf) _ IH]; simpl;
      [reflexivity|].
    rewrite IH. f_equal. unfold new_item in Hit0. inv_bind Hit0.
    inversion Hit0; subst. unfold frame_of in Hf. inversion Hf. congruence.
Qed.

Lemma external_order_then_tracked_only_witness :
  NoDup (map canonical_id dune_feed)
  /\ row_keys_fresh (map canonical_id dune_feed) two_tracked = true
  /\ ascii_inputs dune_feed two_tracked = true
  /\ exists out fromExternal trackedOnly,
       reconcile dune_feed two_tracked = Ok out
       /\ out = (fromExternal ++ trackedOnly)%list
       /\ map it_id fromExternal = [VStr "7"]
       /\ map it_id trackedOnly = [VStr "9"].
Proof.
  assert (Hnd : NoDup (map canonical_id dune_feed)).
  { simpl. constructor; [simpl; tauto | constructor]. }
  split; [exact Hnd|]. split; [reflexivity|]. split; [reflexivity|].
  destruct (reconcile dune_feed two_tracked) as [out|] eqn:Hrec; [|discriminate Hrec].
  destruct (external_order_then_tracked_only dune_feed two_tracked out Hnd eq_refl eq_refl
              Hrec)
    as (fromExternal & trackedOnly & Hout & _ & Hids & _ & Htids & _).
  exists out, fromExternal, trackedOnly. auto.
Defined.

(** ** Every input has its entry *)

Lemma has_id_true (c : string) (it : Item) : has_id c it = true <-> it_id it = VStr c.
Proof.
  unfold has_id, strict_eq_string. destruct (it_id it) as [| |b|x|s];
    try (split; [discriminate | intros H; discriminate H]).
  rewrite String.eqb_eq. split; [now intros -> | intros H; now inversion H].
Qed.

Lemma one_entry_with_id (c : string) (out : list Item) :
  NoDup (map it_id out) ->
  In (VStr c) (map it_id out) ->
  List.length (filter (has_id c) out) = 1.
Proof.
  induction out as [|it rest IH]; simpl; intros Hnd Hin; [contradiction|].
  inversion Hnd as [|? ? Hnotin Hnd']; subst.
  destruct (has_id c it) eqn:Hc.
  - apply has_id_true in Hc. simpl. f_equal.
    rewrite filter_all_out; [reflexivity|].
    intros x Hx. destruct (has_id c x) eqn:Hcx; [|reflexivity].
    apply has_id_true in Hcx. exfalso. apply Hnotin. rewrite Hc, <- Hcx.
    now apply in_map.
  - destruct Hin as [Heq|Hin]; [|auto].
    apply has_id_true in Heq. congruence.
Qed.

Lemma tracked_loop_app_inv (externalMap : JsMap.t Item) (seen : list Ums) :
  forall st ums rest st',
    tracked_loop externalMap st (seen ++ ums :: rest) = Ok st' ->
    exists st1 st2,
      tracked_loop externalMap st seen = Ok st1
      /\ process_ums externalMap st1 ums = Ok st2
      /\ tracked_loop externalMap st2 rest = Ok st'.
Proof.
  induction seen as [|u seen IH]; simpl; intros st ums rest st' H.
  - inv_bind H. eauto.
  - inv_bind H. destruct (IH _ _ _ _ H) as (st1 & st2 & H1 & H2 & H3).
    exists st1, st2. rewrite Ha. simpl. auto.
Qed.

Lemma run_app_inv (external : list Media) (seen : list Ums) (ums : Ums) (rest : list Ums)
    (items : list Item) (em : JsMap.t Item) (st' : State) :
  run external (seen ++ ums :: rest) = Ok (items, em, st') ->
  exists st1 st2,
    run external seen = Ok (items, em, st1)
    /\ process_ums em st1 ums = Ok st2
    /\ tracked_loop em st2 rest = Ok st'.
Proof.
  unfold run. intros H. inv_bind H. destruct a as [[items0 em0] am0].
  inv_bind H. inversion H; subst; clear H.
  destruct (tracked_loop_app_inv _ _ _ _ _ _ Ha0) as (st1 & st2 & H1 & H2 & H3).
  exists st1, st2. rewrite Ha. simpl. rewrite H1. simpl. auto.
Qed.

Lemma Forall2_in_left {A B : Type} (R : A -> B -> Prop) (l : list A) (l' : list B) (a : A) :
  Forall2 R l l' -> In a l -> exists b, In b l' /\ R a b.
Proof.
  induction 1 as [|x y l l' Hxy HF IH]; simpl; [tauto|].
  intros [->|Hin]; [eauto|]. destruct (IH Hin) as (b & Hb & Hr). eauto.
Qed.

(** C6, as stated, fails: of two feed elements with the canonical id
    "7", the first has no entry in the final list and the second has
    two. *)
Lemma repeated_id_loses_an_item :
  exists out,
    reconcile twice_seven_feed [] = Ok out
    /\ map it_title out = [VStr "Brazil"; VStr "Brazil"]
    /\ List.length (filter (has_id "7") out) = 2
    /\ ~ exists it, In it out /\ derived_from (hd empty_media twice_seven_feed) it.
Proof.
  eexists. split; [vm_compute; reflexivity|]. split; [reflexivity|].
  split; [reflexivity|].
  intros (it & Hin & it0 & Hit0 & Hf). vm_compute in Hit0. inversion Hit0; subst.
  simpl in Hin. destruct Hin as [<-|[<-|[]]]; discriminate Hf.
Qed.

(** C6, amended: when the canonical ids of the feed are pairwise
    distinct, no record without media identifiers has a row id that is
    already a key, and the titles, types and release dates of the two
    lists are ASCII text, every external item has exactly one entry in the
    final list, made from it; and every tracked record was either merged
    into an entry that existed at its turn or made a tracked-only entry
    under its new key, and the final list has exactly one entry with
    that canonical id. *)
Theorem every_input_has_one_entry (external : list Media) (tracked : list Ums)
    (out : list Item) :
  NoDup (map canonical_id external) ->
  row_keys_fresh (map canonical_id external) tracked = true ->
  ascii_inputs external tracked = true ->
  reconcile external tracked = Ok out ->
  (forall m, In m external ->
     List.length (filter (has_id (canonical_id m)) out) = 1
     /\ exists it, In it out /\ has_id (canonical_id m) it = true /\ derived_from m it)
  /\ (forall seen ums rest, tracked = (seen ++ ums :: rest)%list ->
        exists items em st c,
          run external seen = Ok (items, em, st)
          /\ ((outcome_of em st ums = Ok (Merge c) /\ JsMap.has c (itemsMap st) = true)
              \/ (outcome_of em st ums = Ok TrackOnly /\ c = new_key ums (media_of ums)))
          /\ List.length (filter (has_id c) out) = 1).
Proof.
  intros Hnd Hfresh _ H.
  destruct (reconcile_ids_tail _ _ _ H)
    as (items & em & st & tail & Hrun & Hids & Htail & Hdis & Hall).
  assert (Hunique : NoDup (map it_id out)).
  { rewrite Hids. apply NoDup_map_VStr, NoDup_app; [assumption | assumption |].
    intros k Hk Hf. exact (Hdis k Hf Hk). }
  split.
  - intros m Hm. split.
    + apply one_entry_with_id; [exact Hunique|]. rewrite Hids, map_app.
      apply in_or_app. left. apply in_map. now apply in_map.
    + destruct (reconcile_shape _ _ _ Hnd Hfresh H)
        as (fromExternal & trackedOnly & Hout & Hext & _).
      destruct (Forall2_in_left _ _ _ _ Hext Hm) as (it & Hin & Hder).
      exists it. split; [subst out; apply in_or_app; now left|].
      split; [|exact Hder]. apply has_id_true.
      destruct Hder as (it0 & Hit0 & Hf). apply external_item_id in Hit0.
      unfold frame_of in Hf. inversion Hf. congruence.
  - intros seen ums rest ->.
    destruct (run_app_inv _ _ _ _ _ _ _ Hrun) as (st1 & st2 & Hseen & Hstep & Hrest).
    destruct (run_Inv _ _ _ _ _ Hseen) as (HI1 & _).
    destruct (tracked_loop_mono _ _ _ _ Hrest) as [Hmono _].
    rewrite process_ums_outcome in Hstep. inv_bind Hstep. destruct a as [c|].
    + destruct (outcome_merge_has _ _ _ _ HI1 Ha) as [_ Hhas].
      exists items, em, st1, c. split; [exact Hseen|]. split; [left; auto|].
      apply one_entry_with_id; [exact Hunique|]. rewrite Hids. apply in_map, Hall, Hmono.
      unfold merge_into in Hstep. inv_bind Hstep. inversion Hstep; subst; simpl.
      now apply has_set_mono.
    + exists items, em, st1, (new_key ums (media_of ums)).
      split; [exact Hseen|]. split; [right; auto|].
      apply one_entry_with_id; [exact Hunique|]. rewrite Hids. apply in_map, Hall, Hmono.
      unfold track_only in Hstep. inv_bind Hstep. inversion Hstep; subst; simpl.
      rewrite has_set, String.eqb_refl. reflexivity.
Qed.

Lemma every_input_has_one_entry_witness :
  NoDup (map canonical_id dune_feed)
  /\ row_keys_fresh (map canonical_id dune_feed) two_tracked = true
  /\ ascii_inputs dune_feed two_tracked = true
  /\ exists out,
       reconcile dune_feed two_tracked = Ok out
       /\ List.length (filter (has_id "7") out) = 1.
Proof.
  assert (Hnd : NoDup (map canonical_id dune_feed)).
  { simpl. constructor; [simpl; tauto | constructor]. }
  split; [exact Hnd|]. split; [reflexivity|]. split; [reflexivity|].
  destruct (reconcile dune_feed two_tracked) as [out|] eqn:Hrec; [|discriminate Hrec].
  exists out. split; [reflexivity|].
  destruct (every_input_has_one_entry dune_feed two_tracked out Hnd eq_refl eq_refl Hrec)
    as [Hext _].
  exact (proj1 (Hext (hd empty_media dune_feed) (or_introl eq_refl))).
Defined.

(** ** Records with a blank title *)







(** ** The page, with its filter *)

Lemma byWantedType_typed (wantedType : string) (raw : list Ums) :
  Forall (fun ums => textual (m_title (media_of ums))) raw ->
  Forall well_typed_tracked (byWantedType wantedType raw).
Proof.
  intros H. apply Forall_forall. intros ums Hin. unfold byWantedType in Hin.
  apply filter_In in Hin. destruct Hin as [Hin Htype].
  rewrite Forall_forall in H. split; [now apply H|].
  unfold media_of. destruct (ums_media ums) as [m|]; [|discriminate].
  destruct (m_type m) as [| |b|x|s]; try discriminate. right. eauto.
Qed.

(** After the filter the type of a record is the wanted type, a string:
    the page builds its list whenever the text properties of the feed
    and the titles of the records are strings or missing. *)
Lemma MediaPage_items_total (wantedType : string) (external : list Media) (raw : list Ums) :
  Forall well_typed_media external ->
  Forall (fun ums => textual (m_title (media_of ums))) raw ->
  exists out, MediaPage_items wantedType external raw = Ok out.
Proof.
  intros Hext Hraw. unfold MediaPage_items.
  rewrite reconcile_run. unfold run.
  destruct (map_external_total _ Hext JsMap.empty JsMap.empty) as [[[items em] am] Hmap].
  rewrite Hmap. simpl.
  destruct (map_external_spec _ _ _ _ _ _ Hmap) as (HF & Hem & _).
  assert (Htitles : Forall (fun kv => textual (it_title (snd kv))) em).
  { apply Forall_forall. intros [k v] Hin. simpl. subst em.
    apply fold_set_in in Hin. destruct Hin as [[]|Hin].
    pose proof (map_external_titles _ _ HF Hext) as Hall.
    rewrite Forall_forall in Hall. now apply Hall. }
  destruct (tracked_loop_total _ _ Htitles (byWantedType_typed wantedType _ Hraw)
              (mkState (init_itemsMap items) am)) as [st ->].
  simpl. eauto.
Qed.

(** ** The scenarios of the specification *)

(** An empty feed and one tracked record with [mediaId] "7": a single
    tracked-only entry with id "7". *)
Example scenario_tracked_only :
  exists it,
    reconcile [] [tracked_movie (VStr "7") VUndefined (VStr "Dune") VUndefined
                                (VStr "COMPLETED") VUndefined] = Ok [it]
    /\ it_id it = VStr "7" /\ it_status it = VStr "COMPLETED" /\ it_raw it = None.
Proof. eexists. split; [vm_compute; reflexivity|]. repeat split. Qed.

(** One external item "7" and a record with [mediaId] "7": a single
    merged entry, with the year of the item. *)
Example scenario_merge_by_id :
  exists it,
    reconcile dune_feed [watching_seven] = Ok [it]
    /\ it_id it = VStr "7" /\ it_status it = VStr "WATCHING" /\ it_year it = VStr "2021".
Proof. eexists. split; [vm_compute; reflexivity|]. repeat split. Qed.

(** One external item "Dune" of 2021 and a record without ids, titled
    " dune ", released on 2021-05-01: the fallback merges it into "7". *)
Example scenario_fallback :
  exists it,
    reconcile dune_feed [dune_by_title] = Ok [it]
    /\ it_id it = VStr "7" /\ it_status it = VStr "COMPLETED".
Proof. eexists. split; [vm_compute; reflexivity|]. repeat split. Qed.

(** The same record released in 1999: the years differ, and the record
    becomes an entry of its own. *)
Example scenario_year_mismatch :
  exists out,
    reconcile dune_feed
      [tracked_movie VUndefined VUndefined (VStr "Dune") (VStr "1999-01-01")
                     (VStr "COMPLETED") (VStr "r1")] = Ok out
    /\ map it_id out = [VStr "7"; VStr "r1"]
    /\ map it_status out = [VUndefined; VStr "COMPLETED"].
Proof. eexists. split; [vm_compute; reflexivity|]. repeat split. Qed.

(** * The rest of the code *)

(** ** The route key *)

Lemma lower_char_idempotent (c : ascii) :
  JsString.lower_char (JsString.lower_char c) = JsString.lower_char c.
Proof.
  destruct c as [b0 b1 b2 b3 b4 b5 b6 b7].
  destruct b0, b1, b2, b3, b4, b5, b6, b7; reflexivity.
Qed.

Lemma toLowerCase_idempotent (s : string) :
  JsString.toLowerCase (JsString.toLowerCase s) = JsString.toLowerCase s.
Proof.
  induction s as [|c s IH]; simpl; [reflexivity|].
  now rewrite lower_char_idempotent, IH.
Qed.

(** A string in lower case is not a name that has a capital. *)
Lemma lower_case_differs (s name : string) :
  JsString.toLowerCase name <> name -> JsString.toLowerCase s <> name.
Proof.
  intros Hname Heq. apply Hname. rewrite <- Heq. apply toLowerCase_idempotent.
Qed.

(** [String(t).toLowerCase()], with the default of the parameter *)
Lemma normalizeTypeKey_cases (t : value) :
  let key := JsString.toLowerCase
               (String_of (match t with VUndefined => VStr "" | _ => t end)) in
  normalizeTypeKey t
  = if String.eqb key "movie" then "movie"
    else if String.eqb key "tv" then "tv"
    else if String.eqb key "music" || String.eqb key "audio" then "music"
    else if String.eqb key "books" || String.eqb key "book" then "books"
    else key.
Proof. reflexivity. Qed.

(** X1: [normalizeTypeKey] is idempotent: a key it has given is given
    back unchanged. *)
Theorem normalizeTypeKey_idempotent (t : value) :
  normalizeTypeKey (VStr (normalizeTypeKey t)) = normalizeTypeKey t.
Proof.
  rewrite (normalizeTypeKey_cases t). cbv zeta.
  set (key := JsString.toLowerCase (String_of _)).
  assert (Hlow : JsString.toLowerCase key = key) by apply toLowerCase_idempotent.
  destruct (String.eqb key "movie") eqn:H1; [reflexivity|].
  destruct (String.eqb key "tv") eqn:H2; [reflexivity|].
  destruct (String.eqb key "music" || String.eqb key "audio") eqn:H3; [reflexivity|].
  destruct (String.eqb key "books" || String.eqb key "book") eqn:H4; [reflexivity|].
  unfold normalizeTypeKey. simpl String_of. rewrite Hlow, H1, H2, H3, H4. reflexivity.
Qed.

(** X2: the wanted type, by the lower-case route key: movie, tv, music
    and books have their backend type, audio is MUSIC and book is BOOKS;
    the keys constructor and __proto__ find a property of
    [Object.prototype]; every other key finds nothing. *)
Theorem wanted_type_by_key (t : value) :
  let key := JsString.toLowerCase
               (String_of (match t with VUndefined => VStr "" | _ => t end)) in
  get_property typeMap (normalizeTypeKey t)
  = if String.eqb key "movie" then Own "MOVIE"
    else if String.eqb key "tv" then Own "TV"
    else if String.eqb key "music" || String.eqb key "audio" then Own "MUSIC"
    else if String.eqb key "books" || String.eqb key "book" then Own "BOOKS"
    else if String.eqb key "constructor" || String.eqb key "__proto__" then Inherited
    else Missing.
Proof.
  rewrite (normalizeTypeKey_cases t). cbv zeta.
  set (key := JsString.toLowerCase (String_of _)).
  destruct (String.eqb key "movie") eqn:H1; [reflexivity|].
  destruct (String.eqb key "tv") eqn:H2; [reflexivity|].
  destruct (String.eqb key "music" || String.eqb key "audio") eqn:H3; [reflexivity|].
  destruct (String.eqb key "books" || String.eqb key "book") eqn:H4; [reflexivity|].
  apply orb_false_iff in H3, H4. destruct H3 as [H3 _], H4 as [H4 _].
  unfold get_property, typeMap. cbn [find fst snd].
  rewrite (String.eqb_sym "movie"), (String.eqb_sym "tv"),
    (String.eqb_sym "music"), (String.eqb_sym "books"), H1, H2, H3, H4.
  assert (Hcap : forall name, JsString.toLowerCase name <> name ->
                              String.eqb key name = false).
  { intros name Hname. apply String.eqb_neq. now apply lower_case_differs. }
  unfold Object_prototype. cbn [existsb].
  rewrite (Hcap "hasOwnProperty"), (Hcap "isPrototypeOf"),
    (Hcap "propertyIsEnumerable"), (Hcap "toLocaleString"), (Hcap "toString"),
    (Hcap "valueOf"), (Hcap "__defineGetter__"), (Hcap "__defineSetter__"),
    (Hcap "__lookupGetter__"), (Hcap "__lookupSetter__")
    by (vm_compute; discriminate).
  rewrite !orb_false_r. reflexivity.
Qed.

(** ** The page *)

(** X3: the page redirects, and then to "/", exactly when the route key
    finds nothing in [typeMap] or the cookie gives no user. *)
Theorem page_redirects (base : string) (fetchFeed : string -> list Media)
    (raw : list Ums) (rawMediaType userId : value) (to : string) :
  MediaPage base fetchFeed raw rawMediaType userId = Ok (Redirect to)
  <-> to = "/"
      /\ (get_property typeMap (normalizeTypeKey rawMediaType) = Missing
          \/ truthy userId = false).
Proof.
  unfold MediaPage.
  destruct (get_property typeMap (normalizeTypeKey rawMediaType)) as [w| |] eqn:Hw.
  - destruct (truthy userId); simpl.
    + destruct (reconcile _ _); simpl; split;
        [discriminate | intros [_ [H|H]]; discriminate
         | discriminate | intros [_ [H|H]]; discriminate].
    + split; [intros H; inversion H; auto | intros [-> _]; reflexivity].
  - destruct (truthy userId); simpl.
    + destruct (reconcile _ _); simpl; split;
        [discriminate | intros [_ [H|H]]; discriminate
         | discriminate | intros [_ [H|H]]; discriminate].
    + split; [intros H; inversion H; auto | intros [-> _]; reflexivity].
  - split; [intros H; inversion H; auto | intros [-> _]; reflexivity].
Qed.

(** X4: for a user who is logged in and a route key that is, in lower
    case, movie, tv, music, audio, books or book, the page shows the
    reconciled list of the feed of that kind (movies, tv, music, music,
    books, books under /api/v1/externalMediaData/) and of the records
    whose media type is the backend type of the key. *)
Theorem page_feed_and_records (base : string) (fetchFeed : string -> list Media)
    (raw : list Ums) (rawMediaType userId : value) (key wanted segment : string) :
  truthy userId = true ->
  JsString.toLowerCase
    (String_of (match rawMediaType with VUndefined => VStr "" | _ => rawMediaType end))
  = key ->
  In (key, wanted, segment)
     [("movie", "MOVIE", "movies"); ("tv", "TV", "tv"); ("music", "MUSIC", "music");
      ("audio", "MUSIC", "music"); ("books", "BOOKS", "books"); ("book", "BOOKS", "books")] ->
  MediaPage base fetchFeed raw rawMediaType userId
  = (items <- reconcile (fetchFeed (base ++ "/api/v1/externalMediaData/" ++ segment))
                        (byWantedType wanted raw) ;;
     Ok (Grid items)).
Proof.
  intros Hu Hkey Hin. unfold MediaPage.
  rewrite (normalizeTypeKey_cases rawMediaType). cbv zeta. rewrite Hkey, Hu.
  simpl in Hin.
  destruct Hin as [H|[H|[H|[H|[H|[H|[]]]]]]]; inversion H; subst; reflexivity.
Qed.

Lemma page_feed_and_records_witness :
  truthy (VStr "u1") = true
  /\ MediaPage "http://localhost:8080" (fun _ => dune_feed) two_tracked
               (VStr "Audio") (VStr "u1")
     = (items <- reconcile dune_feed (byWantedType "MUSIC" two_tracked) ;;
        Ok (Grid items)).
Proof.
  split; [reflexivity|].
  apply (page_feed_and_records "http://localhost:8080" (fun _ => dune_feed) two_tracked
           (VStr "Audio") (VStr "u1") "audio" "MUSIC" "music");
    [reflexivity | reflexivity | simpl; tauto].
Defined.

(** X5: the route keys constructor and __proto__ are not redirected:
    the page shows an empty grid, and asks for no feed. *)
Theorem page_of_inherited_key (base : string) (fetchFeed : string -> list Media)
    (raw : list Ums) (rawMediaType userId : value) :
  truthy userId = true ->
  get_property typeMap (normalizeTypeKey rawMediaType) = Inherited ->
  MediaPage base fetchFeed raw rawMediaType userId = Ok (Grid []).
Proof.
  intros Hu Hw. unfold MediaPage. rewrite Hw, Hu. simpl negb. cbv iota.
  destruct (existsb (String.eqb (normalizeTypeKey rawMediaType))
                    ["movie"; "tv"; "music"; "books"]) eqn:Hfeed; [|reflexivity].
  exfalso. apply existsb_exists in Hfeed. destruct Hfeed as (k & Hin & Hk).
  apply String.eqb_eq in Hk. rewrite Hk in Hw. simpl in Hin.
  destruct Hin as [<-|[<-|[<-|[<-|[]]]]]; discriminate Hw.
Qed.

Lemma page_of_inherited_key_witness :
  truthy (VStr "u1") = true
  /\ get_property typeMap (normalizeTypeKey (VStr "Constructor")) = Inherited
  /\ MediaPage "http://localhost:8080" (fun _ => dune_feed) two_tracked
               (VStr "Constructor") (VStr "u1") = Ok (Grid []).
Proof.
  split; [reflexivity|]. split; [reflexivity|].
  apply page_of_inherited_key; reflexivity.
Defined.

(** ** Covers *)

Lemma withSize_missing (path : value) (size : string) :
  truthy path = false -> withSize path size = VNull.
Proof. unfold withSize. now intros ->. Qed.

Lemma withSize_present (path : value) (size : string) :
  truthy path = true ->
  exists s, withSize path size = VStr s /\ isFullUrl (VStr s) = true.
Proof.
  unfold withSize. intros ->. simpl.
  destruct (isFullUrl path) eqn:Hfull.
  - destruct path as [| |b|x|s]; try discriminate. eauto.
  - eexists. split; [reflexivity|]. reflexivity.
Qed.

Lemma isFullUrl_truthy (v : value) : isFullUrl v = true -> truthy v = true.
Proof.
  destruct v as [| |b|x|s]; try discriminate. destruct s; [discriminate | reflexivity].
Qed.

Lemma js_or_left (a b : value) : truthy a = true -> js_or a b = a.
Proof. unfold js_or. now intros ->. Qed.

Lemma js_or_right (a b : value) : truthy a = false -> js_or a b = b.
Proof. unfold js_or. now intros ->. Qed.

(** X6: the cover of an item is always a string, never null: an
    absolute http or https url or, only when both paths are missing, the
    placeholder "/next.svg". *)
Theorem pickCover_is_url (posterPath backdropPath : value) :
  exists s,
    pickCover posterPath backdropPath = VStr s
    /\ (isFullUrl (VStr s) = true
        \/ (s = "/next.svg" /\ truthy posterPath = false /\ truthy backdropPath = false)).
Proof.
  unfold pickCover. destruct (truthy posterPath) eqn:Hp.
  - destruct (withSize_present _ "w342" Hp) as (s & Hs & Hfull). exists s.
    pose proof (isFullUrl_truthy _ Hfull) as Ht.
    rewrite Hs, (js_or_left _ _ Ht), (js_or_left _ _ Ht). auto.
  - rewrite (withSize_missing _ _ Hp), (js_or_right VNull) by reflexivity.
    destruct (truthy backdropPath) eqn:Hb.
    + destruct (withSize_present _ "w780" Hb) as (s & Hs & Hfull). exists s.
      pose proof (isFullUrl_truthy _ Hfull) as Ht.
      rewrite Hs, (js_or_left _ _ Ht). auto.
    + rewrite (withSize_missing _ _ Hb). exists "/next.svg". simpl. auto.
Qed.

(** X7: the poster is used whenever it is there, whatever the backdrop:
    a full url is kept as it is, and a path is put after the base and
    the size w342, with a slash put in front of it when it does not
    start with one (a path that starts with slashes keeps them all); the
    backdrop, with the size w780, is used only when the poster is
    missing. *)
Theorem pickCover_prefers_poster (posterPath backdropPath : value) (s : string) :
  s <> "" ->
  (isFullUrl (VStr s) = true -> pickCover (VStr s) backdropPath = VStr s)
  /\ (isFullUrl (VStr s) = false ->
      pickCover (VStr s) backdropPath
      = VStr ("https://image.tmdb.org/t/p/w342"
              ++ (if JsString.startsWith "/" s then s else "/" ++ s)))
  /\ (truthy posterPath = false -> isFullUrl (VStr s) = true ->
      pickCover posterPath (VStr s) = VStr s)
  /\ (truthy posterPath = false -> isFullUrl (VStr s) = false ->
      pickCover posterPath (VStr s)
      = VStr ("https://image.tmdb.org/t/p/w780"
              ++ (if JsString.startsWith "/" s then s else "/" ++ s))).
Proof.
  intros Hs. assert (Ht : truthy (VStr s) = true).
  { simpl. apply negb_true_iff. now apply is_empty_false. }
  assert (Hfull : forall size, isFullUrl (VStr s) = true -> withSize (VStr s) size = VStr s).
  { intros size H. unfold withSize. now rewrite Ht, H. }
  assert (Hpath : forall size, isFullUrl (VStr s) = false ->
            withSize (VStr s) size
            = VStr (TMDB_IMG_BASE ++ size
                    ++ (if JsString.startsWith "/" s then s else "/" ++ s))).
  { intros size H. unfold withSize. rewrite Ht, H. reflexivity. }
  unfold pickCover. repeat split.
  - intros H. rewrite (Hfull _ H), (js_or_left _ _ Ht), (js_or_left _ _ Ht). reflexivity.
  - intros H. rewrite (Hpath _ H). reflexivity.
  - intros Hp H. rewrite (withSize_missing _ _ Hp), (js_or_right VNull) by reflexivity.
    rewrite (Hfull _ H), (js_or_left _ _ Ht). reflexivity.
  - intros Hp H. rewrite (withSize_missing _ _ Hp), (js_or_right VNull) by reflexivity.
    rewrite (Hpath _ H). reflexivity.
Qed.

Lemma pickCover_prefers_poster_witness :
  "poster.jpg" <> ""
  /\ isFullUrl (VStr "poster.jpg") = false
  /\ pickCover (VStr "poster.jpg") (VStr "/backdrop.jpg")
     = VStr "https://image.tmdb.org/t/p/w342/poster.jpg".
Proof.
  assert (Hne : "poster.jpg" <> "") by discriminate.
  split; [exact Hne|]. split; [reflexivity|].
  exact (proj1 (proj2 (pickCover_prefers_poster VUndefined (VStr "/backdrop.jpg")
                         "poster.jpg" Hne)) eq_refl).
Defined.

(** ** Covers of the book page *)

Lemma normalizeBookUrl_cases (path : value) :
  BookPage.normalizeBookUrl path = VNull
  \/ exists s, BookPage.normalizeBookUrl path = VStr s /\ isFullUrl (VStr s) = true.
Proof.
  unfold BookPage.normalizeBookUrl. destruct (truthy path); simpl; [|auto].
  destruct (isFullUrl path) eqn:Hfull.
  - right. destruct path as [| |b|x|s]; try discriminate. eauto.
  - destruct (JsString.startsWith "/books" _); [|auto].
    right. eexists. split; reflexivity.
Qed.

Lemma book_pickCover_placeholder (a b : value) :
  BookPage.pickCover a b = VStr "/next.svg"
  <-> BookPage.normalizeBookUrl a = VNull /\ BookPage.normalizeBookUrl b = VNull.
Proof.
  unfold BookPage.pickCover.
  destruct (normalizeBookUrl_cases a) as [Ha|(s & Ha & Hs)]; rewrite Ha.
  - rewrite (js_or_right VNull) by reflexivity.
    destruct (normalizeBookUrl_cases b) as [Hb|(t & Hb & Ht)]; rewrite Hb.
    + simpl. tauto.
    + pose proof (isFullUrl_truthy _ Ht) as Htr. rewrite (js_or_left _ _ Htr).
      split; [|intros [_ H]; discriminate H].
      intros H. inversion H; subst. discriminate Ht.
  - pose proof (isFullUrl_truthy _ Hs) as Htr.
    rewrite (js_or_left _ _ Htr), (js_or_left _ _ Htr).
    split; [|intros [H _]; discriminate H].
    intros H. inversion H; subst. discriminate Hs.
Qed.

(** X8: the cover of the book page is always a string, never null: a
    full url that was given, a url of books.google.com made from a path
    under /books, or the placeholder; a path that is not under /books
    is not used. *)
Theorem book_pickCover_is_url (posterPath backdropPath : value) :
  (exists s,
     BookPage.pickCover posterPath backdropPath = VStr s
     /\ (isFullUrl (VStr s) = true \/ s = "/next.svg"))
  /\ (forall s, s <> "" -> isFullUrl (VStr s) = false ->
        BookPage.normalizeBookUrl (VStr s)
        = if JsString.startsWith "/books" (if JsString.startsWith "/" s then s else "/" ++ s)
          then VStr ("https://books.google.com"
                     ++ (if JsString.startsWith "/" s then s else "/" ++ s))
          else VNull).
Proof.
  split.
  - unfold BookPage.pickCover.
    destruct (normalizeBookUrl_cases posterPath) as [Ha|(s & Ha & Hs)]; rewrite Ha.
    + rewrite (js_or_right VNull) by reflexivity.
      destruct (normalizeBookUrl_cases backdropPath) as [Hb|(t & Hb & Ht)]; rewrite Hb.
      * exists "/next.svg". simpl. auto.
      * exists t. rewrite (js_or_left _ _ (isFullUrl_truthy _ Ht)). auto.
    + exists s. pose proof (isFullUrl_truthy _ Hs) as Htr.
      rewrite (js_or_left _ _ Htr), (js_or_left _ _ Htr). auto.
  - intros s Hs Hfull. unfold BookPage.normalizeBookUrl.
    assert (Ht : truthy (VStr s) = true).
    { simpl. apply negb_true_iff. now apply is_empty_false. }
    rewrite Ht, Hfull. reflexivity.
Qed.

(** X9: on the book page the poster shows the placeholder exactly when
    the backdrop does; and a book with one usable image shows it in both
    places. *)
Theorem book_images_share_fallback (posterUrl backdropUrl : value) :
  (BookPage.posterSrc posterUrl backdropUrl = VStr "/next.svg"
   <-> BookPage.backdropSrc posterUrl backdropUrl = VStr "/next.svg")
  /\ (BookPage.normalizeBookUrl posterUrl = VNull
      \/ BookPage.normalizeBookUrl backdropUrl = VNull ->
      BookPage.posterSrc posterUrl backdropUrl
      = BookPage.backdropSrc posterUrl backdropUrl).
Proof.
  unfold BookPage.posterSrc, BookPage.backdropSrc. split.
  - rewrite !book_pickCover_placeholder. tauto.
  - unfold BookPage.pickCover.
    destruct (normalizeBookUrl_cases posterUrl) as [Ha|(s & Ha & Hs)];
      destruct (normalizeBookUrl_cases backdropUrl) as [Hb|(t & Hb & Ht)];
      rewrite Ha, Hb; intros H.
    + reflexivity.
    + rewrite (js_or_right VNull (VStr t)) by reflexivity.
      rewrite (js_or_left (VStr t) VNull) by (now apply isFullUrl_truthy). reflexivity.
    + rewrite (js_or_right VNull (VStr s)) by reflexivity.
      rewrite (js_or_left (VStr s) VNull) by (now apply isFullUrl_truthy). reflexivity.
    + destruct H as [H|H]; discriminate H.
Qed.

Lemma book_images_share_fallback_witness :
  BookPage.normalizeBookUrl VUndefined = VNull
  /\ BookPage.posterSrc VUndefined (VStr "books/content?id=1")
     = BookPage.backdropSrc VUndefined (VStr "books/content?id=1").
Proof.
  split; [reflexivity|].
  exact (proj2 (book_images_share_fallback VUndefined (VStr "books/content?id=1"))
               (or_introl eq_refl)).
Defined.

(** ** Years of four digits *)

Lemma substring_prefix (s r : string) :
  substring 0 (String.length s) (s ++ r) = s.
Proof.
  induction s as [|c s IH]; simpl.
  - destruct r; reflexivity.
  - now rewrite IH.
Qed.

Lemma four_digit_years_checked :
  forallb four_digit_year_ok
          (map (fun n => (1000 + N.of_nat n)%N) (seq 0 (N.to_nat 9000))) = true.
Proof. vm_compute. reflexivity. Qed.

Lemma four_digit_year (y : N) :
  (1000 <= y <= 9999)%N ->
  String.length (JsNumber.digits_of_N y) = 4
  /\ JsNumber.ofString (JsNumber.digits_of_N y) = JsNumber.Dec false y 0
  /\ JsNumber.toString (JsNumber.Dec false y 0) = JsNumber.digits_of_N y.
Proof.
  intros Hy. pose proof four_digit_years_checked as Hall.
  rewrite forallb_forall in Hall.
  assert (Hin : In y (map (fun n => (1000 + N.of_nat n)%N) (seq 0 (N.to_nat 9000)))).
  { apply in_map_iff. exists (N.to_nat (y - 1000)). split; [lia|].
    apply in_seq. lia. }
  specialize (Hall y Hin). unfold four_digit_year_ok in Hall.
  apply andb_true_iff in Hall. destruct Hall as [Hall H3].
  apply andb_true_iff in Hall. destruct Hall as [H1 H2].
  apply Nat.eqb_eq in H1. apply String.eqb_eq in H3.
  split; [exact H1|]. split; [|exact H3].
  destruct (JsNumber.ofString (JsNumber.digits_of_N y)) as [|neg|neg m e]; try discriminate.
  destruct neg; [discriminate|]. destruct e; try discriminate.
  apply N.eqb_eq in H2. now subst.
Qed.

(** X10: when the release date of a tracked record and that of an
    external item both start with a year from 1000 to 9999, the year key
    of the record is that year as a number, the year of the item is its
    four digits, and the year test of the fallback passes exactly when
    the two years are equal. *)
Theorem four_digit_years_agree (trackedMedia feedMedia : Media) (it : Item)
    (y1 y2 : N) (rest1 rest2 titleKey extTitle : string) :
  (1000 <= y1 <= 9999)%N ->
  (1000 <= y2 <= 9999)%N ->
  m_releaseDate trackedMedia = VStr (JsNumber.digits_of_N y1 ++ rest1) ->
  m_releaseDate feedMedia = VStr (JsNumber.digits_of_N y2 ++ rest2) ->
  external_item feedMedia = Ok it ->
  year_key trackedMedia = VNum (JsNumber.Dec false y1 0)
  /\ it_year it = VStr (JsNumber.digits_of_N y2)
  /\ fallback_test titleKey (year_key trackedMedia) extTitle (js_or (it_year it) VUndefined)
     = negb (JsString.is_empty extTitle) && String.eqb extTitle titleKey && N.eqb y1 y2.
Proof.
  intros Hy1 Hy2 Hd1 Hd2 Hit.
  destruct (four_digit_year _ Hy1) as (Hl1 & Hof1 & Hto1).
  destruct (four_digit_year _ Hy2) as (Hl2 & Hof2 & Hto2).
  assert (Hne : forall y r, String.length (JsNumber.digits_of_N y) = 4 ->
             truthy (VStr (JsNumber.digits_of_N y ++ r)) = true).
  { intros y r Hl. destruct (JsNumber.digits_of_N y); [discriminate Hl | reflexivity]. }
  assert (Hsl : forall y r, String.length (JsNumber.digits_of_N y) = 4 ->
             JsString.slice0 4 (JsNumber.digits_of_N y ++ r) = JsNumber.digits_of_N y).
  { intros y r Hl. unfold JsString.slice0. rewrite <- Hl at 1. apply substring_prefix. }
  assert (Hkey : year_key trackedMedia = VNum (JsNumber.Dec false y1 0)).
  { unfold year_key, toYear. rewrite Hd1, (Hne _ _ Hl1). simpl String_of.
    rewrite (Hsl _ _ Hl1), Hof1. apply js_or_left. simpl.
    apply negb_true_iff, N.eqb_neq. lia. }
  assert (Hyear : it_year it = VStr (JsNumber.digits_of_N y2)).
  { rewrite (external_item_year _ _ Hit), Hd2, (Hne _ _ Hl2). simpl String_of.
    now rewrite (Hsl _ _ Hl2). }
  split; [exact Hkey|]. split; [exact Hyear|].
  rewrite (external_item_year_or _ _ Hit), Hkey, Hyear. unfold fallback_test.
  change (String_of (VNum (JsNumber.Dec false y1 0)))
    with (JsNumber.toString (JsNumber.Dec false y1 0)).
  rewrite Hto1. cbn [nullish String_of orb]. f_equal.
  destruct (N.eqb_spec y1 y2) as [->|Hneq].
  - apply String.eqb_refl.
  - apply String.eqb_neq. intros Heq. apply Hneq.
    rewrite Heq in Hof2. rewrite Hof1 in Hof2. now inversion Hof2.
Qed.

Lemma four_digit_years_agree_witness :
  (1000 <= 2021 <= 9999)%N
  /\ m_releaseDate (media_of dune_by_title) = VStr (JsNumber.digits_of_N 2021 ++ "-05-01")
  /\ m_releaseDate (hd empty_media dune_feed) = VStr (JsNumber.digits_of_N 2021 ++ "-10-01")
  /\ external_item (hd empty_media dune_feed) = Ok (hd empty_item dune_items)
  /\ year_key (media_of dune_by_title) = VNum (JsNumber.Dec false 2021 0).
Proof.
  assert (Hy : (1000 <= 2021 <= 9999)%N) by lia.
  split; [exact Hy|]. split; [reflexivity|]. split; [reflexivity|]. split; [reflexivity|].
  exact (proj1 (four_digit_years_agree (media_of dune_by_title) (hd empty_media dune_feed)
                  (hd empty_item dune_items) 2021 2021 "-05-01" "-10-01" "dune" "dune"
                  Hy Hy eq_refl eq_refl eq_refl)).
Defined.

(** ** The list of a feed alone *)

Lemma find_app {A : Type} (p : A -> bool) (l1 l2 : list A) :
  find p (l1 ++ l2)%list
  = match find p l1 with Some x => Some x | None => find p l2 end.
Proof.
  induction l1 as [|x l1 IH]; simpl; [reflexivity|].
  destruct (p x); [reflexivity | exact IH].
Qed.

(** After successive [set]s a key holds what the last [set] on it gave. *)
Lemma fold_set_get (items : list Item) (k : string) :
  forall m0,
    JsMap.get k (fold_left (fun acc it => JsMap.set (String_of (it_id it)) it acc) items m0)
    = match find (fun it => String.eqb (String_of (it_id it)) k) (rev items) with
      | Some it => Some it
      | None => JsMap.get k m0
      end.
Proof.
  induction items as [|it rest IH]; intros m0; simpl; [reflexivity|].
  rewrite IH, find_app. destruct (find _ (rev rest)); [reflexivity|]. simpl.
  destruct (String.eqb_spec (String_of (it_id it)) k) as [<-|Hne].
  - apply get_set_same.
  - apply get_set_other. congruence.
Qed.

Lemma Forall2_rev {A B : Type} (R : A -> B -> Prop) (l : list A) (l' : list B) :
  Forall2 R l l' -> Forall2 R (rev l) (rev l').
Proof.
  induction 1 as [|x y l l' Hxy HF IH]; simpl; [constructor|].
  apply Forall2_app; [exact IH | repeat constructor; exact Hxy].
Qed.

Lemma find_related (c : string) (l : list Media) (l' : list Item) :
  Forall2 (fun m it => external_item m = Ok it) l l' ->
  match find (fun it => String.eqb (String_of (it_id it)) c) l' with
  | Some it => exists m, find (fun m => String.eqb (canonical_id m) c) l = Some m
                         /\ external_item m = Ok it
  | None => find (fun m => String.eqb (canonical_id m) c) l = None
  end.
Proof.
  induction 1 as [|m it l l' Hm HF IH]; simpl; [reflexivity|].
  rewrite (external_item_id _ _ Hm). simpl String_of.
  destruct (String.eqb (canonical_id m) c); [eauto | exact IH].
Qed.

Lemma external_first_all (im : JsMap.t Item) (P : Item -> Item -> Prop) (items : list Item) :
  Forall (fun it => exists v, JsMap.get (String_of (it_id it)) im = Some v /\ P it v) items ->
  Forall2 P items (external_first im items).
Proof.
  induction 1 as [|it rest (v & Hv & HP) HF IH]; simpl; [constructor|].
  rewrite Hv. now constructor.
Qed.

Lemma tracked_only_tail_self (em : JsMap.t Item) (entries : list (string * Item)) :
  (forall k v, In (k, v) entries -> JsMap.has k em = true) ->
  tracked_only_tail em entries = [].
Proof.
  induction entries as [|[k v] rest IH]; simpl; intros H; [reflexivity|].
  rewrite (H k v) by now left. apply IH. intros; eapply H; right; eauto.
Qed.

Lemma Forall2_compose {A B C : Type} (R : A -> B -> Prop) (S : B -> C -> Prop)
    (l1 : list A) (l2 : list B) :
  Forall2 R l1 l2 ->
  forall l3, Forall2 S l2 l3 -> Forall2 (fun a c => exists b, R a b /\ S b c) l1 l3.
Proof.
  induction 1 as [|a b l1 l2 Hab HF IH]; intros l3 H23; inversion H23; subst;
    constructor; eauto.
Qed.

Lemma Forall2_with_In {A B : Type} (R : A -> B -> Prop) (l : list A) (l' : list B) :
  Forall2 R l l' -> Forall2 (fun a b => In a l /\ R a b) l l'.
Proof.
  induction 1 as [|x y l l' Hxy HF IH]; constructor.
  - split; [now left | exact Hxy].
  - eapply Forall2_impl; [|exact IH]. intros a b [Hin Hr]. split; [now right | exact Hr].
Qed.

Lemma NoDup_map_same {A B : Type} (f : A -> B) (l : list A) (a b : A) :
  NoDup (map f l) -> In a l -> In b l -> f a = f b -> a = b.
Proof.
  induction l as [|x l IH]; simpl; intros Hnd Ha Hb Hf; [contradiction|].
  inversion Hnd as [|? ? Hnotin Hnd']; subst.
  destruct Ha as [->|Ha], Hb as [->|Hb]; auto.
  - exfalso. apply Hnotin. rewrite Hf. now apply in_map.
  - exfalso. apply Hnotin. rewrite <- Hf. now apply in_map.
Qed.

(** With no tracked record every position of the final list shows the
    item made from the last feed element with that canonical id. *)
Lemma reconcile_feed_only (external : list Media) (out : list Item) :
  reconcile external [] = Ok out ->
  Forall2 (fun x o => exists l, last_with_id external (canonical_id x) = Some l
                                /\ external_item l = Ok o) external out.
Proof.
  intros H. destruct (reconcile_ids _ _ _ H) as (items & em & st & Hrun & Hout & _).
  destruct (run_inv _ _ _ _ _ Hrun) as (st0 & Hrun0 & Him0 & Hloop & _).
  simpl in Hloop. inversion Hloop; subst st0; clear Hloop.
  destruct (run_Inv _ _ _ _ _ Hrun) as (HI & HF & Hem & Hkeys).
  rewrite tracked_only_tail_self, app_nil_r in Hout.
  2:{ intros k v Hin. unfold JsMap.entries in Hin. rewrite Him0 in Hin.
      apply has_in_keys. unfold JsMap.keys. now apply (in_map fst) in Hin. }
  subst out. rewrite Him0.
  assert (Hall : Forall2 (fun it v => JsMap.get (String_of (it_id it)) em = Some v)
                         items (external_first em items)).
  { apply external_first_all. apply Forall_forall. intros it Hin.
    assert (Hh : JsMap.has (String_of (it_id it)) em = true).
    { apply Hkeys. destruct (Forall2_external_ids _ _ HF) as [<- _].
      now apply (in_map (fun it => String_of (it_id it))). }
    apply has_true_iff in Hh. destruct Hh as [v Hv]. eauto. }
  pose proof (Forall2_compose _ _ _ _ HF _ Hall) as Hcomp.
  eapply Forall2_impl; [|exact Hcomp].
  intros x o (it & Hit & Hget). rewrite (external_item_id _ _ Hit) in Hget.
  simpl String_of in Hget. rewrite Hem in Hget. unfold init_itemsMap in Hget.
  rewrite fold_set_get in Hget.
  pose proof (find_related (canonical_id x) _ _ (Forall2_rev _ _ _ HF)) as Hrel.
  destruct (find _ (rev items)) as [it'|]; [|discriminate Hget].
  inversion Hget; subst it'. destruct Hrel as (l & Hl & Hlo). exists l. auto.
Qed.

(** With distinct canonical ids the last element with an id is the
    element itself. *)
Lemma last_with_id_self (external : list Media) (x l : Media) :
  NoDup (map canonical_id external) -> In x external ->
  last_with_id external (canonical_id x) = Some l -> l = x.
Proof.
  intros Hnd Hx Hl. unfold last_with_id in Hl. apply find_some in Hl.
  destruct Hl as [Hl Hc]. apply in_rev in Hl. apply String.eqb_eq in Hc.
  exact (NoDup_map_same canonical_id external l x Hnd Hl Hx Hc).
Qed.

(** X11: with no tracked record, the final list has one entry per feed
    element, in the order of the feed, and each position shows the item
    made from the last feed element that has the same canonical id; when
    the canonical ids are pairwise distinct, the list is the external
    items themselves. *)
Theorem feed_alone (external : list Media) (out : list Item) :
  reconcile external [] = Ok out ->
  Forall2 (fun x o => exists l, last_with_id external (canonical_id x) = Some l
                                /\ external_item l = Ok o) external out
  /\ (NoDup (map canonical_id external) ->
      Forall2 (fun x o => external_item x = Ok o) external out).
Proof.
  intros H. pose proof (reconcile_feed_only _ _ H) as Hlast.
  split; [exact Hlast|]. intros Hnd.
  eapply Forall2_impl; [|exact (Forall2_with_In _ _ _ Hlast)].
  intros x o (Hx & l & Hl & Hlo). simpl in *.
  now rewrite <- (last_with_id_self _ _ _ Hnd Hx Hl).
Qed.

Lemma feed_alone_witness :
  NoDup (map canonical_id dune_feed)
  /\ exists out,
       reconcile dune_feed [] = Ok out
       /\ Forall2 (fun x o => external_item x = Ok o) dune_feed out.
Proof.
  assert (Hnd : NoDup (map canonical_id dune_feed)).
  { simpl. constructor; [simpl; tauto | constructor]. }
  split; [exact Hnd|].
  destruct (reconcile dune_feed []) as [out|] eqn:Hrec; [|discriminate Hrec].
  exists out. split; [reflexivity|].
  exact (proj2 (feed_alone dune_feed out Hrec) Hnd).
Defined.

(** ** The size of the final list *)

Lemma set_keys_grow {V : Type} (k : string) (v : V) (m : JsMap.t V) (p : string -> bool) :
  List.length (filter p (JsMap.keys (JsMap.set k v m)))
  <= List.length (filter p (JsMap.keys m)) + 1.
Proof.
  destruct (JsMap.has k m) eqn:Hk.
  - rewrite keys_set_present by assumption. lia.
  - rewrite keys_set_absent by assumption. rewrite filter_app, length_app. simpl.
    destruct (p k); simpl; lia.
Qed.

Lemma process_ums_keys_grow (externalMap : JsMap.t Item) (st st' : State) (ums : Ums)
    (p : string -> bool) :
  process_ums externalMap st ums = Ok st' ->
  List.length (filter p (JsMap.keys (itemsMap st')))
  <= List.length (filter p (JsMap.keys (itemsMap st))) + 1.
Proof.
  rewrite process_ums_outcome. intros H. inv_bind H. destruct a as [c|].
  - unfold merge_into in H. inv_bind H. inversion H; subst; simpl. apply set_keys_grow.
  - unfold track_only in H. inv_bind H. inversion H; subst; simpl. apply set_keys_grow.
Qed.

Lemma tracked_loop_keys_grow (externalMap : JsMap.t Item) (p : string -> bool)
    (tracked : list Ums) :
  forall st st',
    tracked_loop externalMap st tracked = Ok st' ->
    List.length (filter p (JsMap.keys (itemsMap st')))
    <= List.length (filter p (JsMap.keys (itemsMap st))) + List.length tracked.
Proof.
  induction tracked as [|ums rest IH]; simpl; intros st st' H.
  - inversion H; subst. lia.
  - inv_bind H. pose proof (process_ums_keys_grow _ _ _ _ p Ha).
    pose proof (IH _ _ H). lia.
Qed.

(** X12: the final list has at least one entry for every feed element
    and at most one more for every tracked record. *)
Theorem final_list_size (external : list Media) (tracked : list Ums) (out : list Item) :
  reconcile external tracked = Ok out ->
  List.length external <= List.length out
  /\ List.length out <= List.length external + List.length tracked.
Proof.
  intros H. destruct (reconcile_ids _ _ _ H) as (items & em & st & Hrun & _ & Hids).
  destruct (run_inv _ _ _ _ _ Hrun) as (st0 & _ & Him0 & Hloop & _).
  apply (f_equal (@List.length value)) in Hids.
  rewrite !length_map, length_app, length_map in Hids.
  pose proof (tracked_loop_keys_grow em (fun k => negb (JsMap.has k em)) _ _ _ Hloop) as Hgrow.
  rewrite Him0 in Hgrow. rewrite (filter_all_out _ (JsMap.keys em)) in Hgrow.
  - simpl in Hgrow. lia.
  - intros k Hk. apply negb_false_iff. now apply has_in_keys.
Qed.

Lemma final_list_size_witness :
  exists out,
    reconcile dune_feed two_tracked = Ok out
    /\ List.length dune_feed <= List.length out
    /\ List.length out <= List.length dune_feed + List.length two_tracked.
Proof.
  destruct (reconcile dune_feed two_tracked) as [out|] eqn:Hrec; [|discriminate Hrec].
  exists out. split; [reflexivity|]. exact (final_list_size dune_feed two_tracked out Hrec).
Defined.

(** ** A record that comes twice *)

Lemma set_get_same {V : Type} (k : string) (v : V) (m : JsMap.t V) :
  JsMap.get k m = Some v -> JsMap.set k v m = m.
Proof.
  induction m as [|[k' v'] m IH]; simpl; [discriminate|].
  destruct (String.eqb_spec k k') as [->|Hne]; intros H.
  - now inversion H.
  - f_equal. auto.
Qed.

Lemma set_set_same {V : Type} (k : string) (v : V) (m : JsMap.t V) :
  JsMap.set k v (JsMap.set k v m) = JsMap.set k v m.
Proof. apply set_get_same, get_set_same. Qed.

Lemma js_coalesce_twice (r x : value) :
  js_coalesce r (js_coalesce r x) = js_coalesce r x.
Proof. unfold js_coalesce. destruct (nullish r) eqn:Hr; reflexivity. Qed.

Lemma js_coalesce_same (r : value) : js_coalesce r r = r.
Proof. unfold js_coalesce. destruct (nullish r); reflexivity. Qed.

Lemma overlay_twice (base : Item) (ums : Ums) (href : value) :
  overlay (overlay base ums href) ums href = overlay base ums href.
Proof. unfold overlay. simpl. now rewrite js_coalesce_twice. Qed.

Lemma alias_key_fixed (k : option string) (c : string) (am : JsMap.t string) :
  (forall x, k = Some x -> x <> "" -> JsMap.get x am = Some c) ->
  alias_key k c am = am.
Proof.
  intros H. unfold alias_key. destruct k as [x|]; [|reflexivity].
  destruct (JsString.is_empty x) eqn:Hx; [reflexivity|].
  apply set_get_same, H; [reflexivity | now apply is_empty_false].
Qed.

(** After [if (umsExternal) ...; if (umsInternal) ...] both names point
    at [c]. *)
Lemma alias_both_registered (i e : option string) (c : string) (am : JsMap.t string)
    (x : string) :
  i = Some x \/ e = Some x -> x <> "" ->
  JsMap.get x (alias_key i c (alias_key e c am)) = Some c.
Proof.
  intros [Hx|Hx] Hne.
  - now apply alias_key_registered.
  - unfold alias_key at 1. destruct i as [s|].
    + destruct (JsString.is_empty s) eqn:Hs.
      * now apply alias_key_registered.
      * destruct (String.eqb_spec x s) as [->|Hxs].
        -- apply get_set_same.
        -- rewrite get_set_other by assumption. now apply alias_key_registered.
    + now apply alias_key_registered.
Qed.

Lemma alias_updates_twice (i e : option string) (c : string) (am : JsMap.t string) :
  let am' := alias_key i c (alias_key e c am) in
  alias_key i c (alias_key e c am') = am'.
Proof.
  intros am'. rewrite (alias_key_fixed e c am').
  - apply alias_key_fixed. intros x Hx Hne. apply alias_both_registered; auto.
  - intros x Hx Hne. apply alias_both_registered; auto.
Qed.

Lemma key_in_set_present {V : Type} (k : option string) (c : string) (v : V) (m : JsMap.t V) :
  JsMap.has c m = true -> key_in k (JsMap.set c v m) = key_in k m.
Proof.
  intros Hc. unfold key_in. destruct k as [s|]; [|reflexivity].
  rewrite has_set. destruct (String.eqb_spec s c) as [->|Hne]; [|reflexivity].
  now rewrite Hc.
Qed.

Lemma key_in_registered (i e : option string) (c : string) (am : JsMap.t string)
    (x : string) :
  i = Some x \/ e = Some x -> x <> "" ->
  key_in (Some x) (alias_key i c (alias_key e c am)) = true.
Proof.
  intros Hx Hne. apply key_in_true. exists x. repeat split; [assumption|].
  apply has_true_iff. exists c. now apply alias_both_registered.
Qed.

(** Under the invariant the test [if (canonical)] passes whenever the
    chain found something. *)
Lemma if_truthy_resolve (externalMap : JsMap.t Item) (st : State) (i e : option string) :
  Inv externalMap st ->
  if_truthy (resolve_canonical st i e) = resolve_canonical st i e.
Proof.
  intros HI. destruct (resolve_canonical st i e) as [c|] eqn:Hr; [|reflexivity].
  destruct (resolve_canonical_has _ _ _ _ _ HI Hr) as [Hne _].
  apply if_truthy_some. auto.
Qed.

Lemma outcome_of_resolved (externalMap : JsMap.t Item) (st : State) (ums : Ums) (c : string) :
  Inv externalMap st ->
  resolve_canonical st (string_or_null (m_mediaId (media_of ums)))
                    (string_or_null (m_externalMediaId (media_of ums))) = Some c ->
  outcome_of externalMap st ums = Ok (Merge c).
Proof.
  intros HI Hr. unfold outcome_of. rewrite (if_truthy_resolve _ _ _ _ HI), Hr. reflexivity.
Qed.

Lemma resolve_canonical_no_ids (st : State) : resolve_canonical st None None = None.
Proof. reflexivity. Qed.

(** After a turn that stored the record under [c] and registered its
    names, the chain of tests finds [c] for the same record, when the
    record has a name at all. *)
Lemma resolve_after_turn (st : State) (i e : option string) (c : string) (v : Item) :
  (forall x, i = Some x -> x <> "") ->
  (forall x, e = Some x -> x <> "") ->
  (key_in i (JsMap.set c v (itemsMap st)) = true -> i = Some c) ->
  i <> None \/ e <> None ->
  resolve_canonical {| itemsMap := JsMap.set c v (itemsMap st);
                       aliasMap := alias_key i c (alias_key e c (aliasMap st)) |} i e
  = Some c.
Proof.
  intros Hi He Hfirst Hsome. unfold resolve_canonical. simpl.
  destruct (key_in i (JsMap.set c v (itemsMap st))) eqn:H1; [now apply Hfirst|].
  destruct e as [x|].
  - rewrite key_in_registered by auto. apply alias_both_registered; auto.
  - simpl key_in at 1. simpl key_in at 1.
    destruct i as [y|]; [|destruct Hsome; congruence].
    rewrite key_in_registered by auto. apply alias_both_registered; auto.
Qed.

(** After a turn that stored the record under [c], the same record is
    decided in the same way when it has no name, and is merged into [c]
    when it has one. *)
Lemma outcome_after_turn (externalMap : JsMap.t Item) (st : State) (ums : Ums)
    (c : string) (v : Item) :
  let i := string_or_null (m_mediaId (media_of ums)) in
  let e := string_or_null (m_externalMediaId (media_of ums)) in
  let st' := {| itemsMap := JsMap.set c v (itemsMap st);
                aliasMap := alias_key i c (alias_key e c (aliasMap st)) |} in
  Inv externalMap st' ->
  (key_in i (JsMap.set c v (itemsMap st)) = true -> i = Some c) ->
  outcome_of externalMap st' ums
  = match i, e with
    | None, None => outcome_of externalMap st ums
    | _, _ => Ok (Merge c)
    end.
Proof.
  intros i e st' HI' Hfirst.
  assert (Hi : forall x, i = Some x -> x <> "").
  { intros x Hx. now destruct (string_or_null_some _ _ Hx) as (_ & _ & Hne). }
  assert (He : forall x, e = Some x -> x <> "").
  { intros x Hx. now destruct (string_or_null_some _ _ Hx) as (_ & _ & Hne). }
  assert (Hsome : i <> None \/ e <> None -> outcome_of externalMap st' ums = Ok (Merge c)).
  { intros Hs. apply (outcome_of_resolved _ _ _ _ HI'). fold i e.
    apply resolve_after_turn; auto. }
  destruct i as [y|] eqn:Hiy.
  - apply Hsome. left. discriminate.
  - destruct e as [x|] eqn:Hex.
    + apply Hsome. right. discriminate.
    + unfold outcome_of. fold i e. rewrite Hiy, Hex. reflexivity.
Qed.

Lemma merge_into_fixed (externalMap : JsMap.t Item) (st : State) (ums : Ums) (m : Media)
    (i e : option string) (c ty : string) (b : Item) :
  JsMap.get c (itemsMap st) = Some b ->
  lower_or_empty (m_type m) = Ok ty ->
  overlay b ums (collection_href ty (js_coalesce (m_mediaId m) (ums_id ums))) = b ->
  alias_key i c (alias_key e c (aliasMap st)) = aliasMap st ->
  merge_into externalMap st ums m i e c = Ok st.
Proof.
  intros Hb Hty Hov Hal. unfold merge_into.
  rewrite (base_of_present _ _ _ _ Hb), Hty. simpl.
  rewrite Hov, Hal, (set_get_same _ _ _ Hb). now destruct st.
Qed.

Lemma process_ums_twice (externalMap : JsMap.t Item) (st st' : State) (ums : Ums) :
  Inv externalMap st ->
  process_ums externalMap st ums = Ok st' ->
  process_ums externalMap st' ums = Ok st'.
Proof.
  intros HI Hstep. pose proof (process_ums_Inv _ _ _ _ HI Hstep) as HI'.
  rewrite process_ums_outcome in Hstep |- *.
  destruct (outcome_of externalMap st ums) as [[c|]|] eqn:Hout; simpl in Hstep;
    [| |discriminate Hstep].
  - (* the first turn merged the record into c *)
    destruct (outcome_merge_has _ _ _ _ HI Hout) as [Hc Hhas].
    pose proof Hhas as Hh. apply has_true_iff in Hh. destruct Hh as [old Hold].
    destruct (merge_into_spec _ _ _ _ _ _ _ _ _ Hold Hstep) as (ty & Hty & Him & Ham).
    assert (Hst' : st' = {| itemsMap := JsMap.set c
                              (overlay old ums (collection_href ty
                                 (js_coalesce (m_mediaId (media_of ums)) (ums_id ums))))
                              (itemsMap st);
                            aliasMap := alias_key (string_or_null (m_mediaId (media_of ums))) c
                              (alias_key (string_or_null (m_externalMediaId (media_of ums))) c
                                 (aliasMap st)) |}).
    { destruct st'; simpl in *. now subst. }
    assert (Hout' : outcome_of externalMap st' ums = Ok (Merge c)).
    { rewrite Hst'. rewrite outcome_after_turn.
      - rewrite Hout. destruct (string_or_null (m_mediaId _)), (string_or_null (m_externalMediaId _));
          reflexivity.
      - now rewrite <- Hst'.
      - rewrite key_in_set_present by exact Hhas. intros H1.
        pose proof H1 as H1'. apply key_in_true in H1'. destruct H1' as (s & Hs & _).
        assert (Hr : resolve_canonical st (string_or_null (m_mediaId (media_of ums)))
                       (string_or_null (m_externalMediaId (media_of ums)))
                     = Some s).
        { unfold resolve_canonical. now rewrite H1. }
        pose proof (outcome_of_resolved _ _ _ _ HI Hr) as H0.
        rewrite Hout in H0. rewrite Hs. now inversion H0. }
    rewrite Hout'. simpl.
    apply (merge_into_fixed _ _ _ _ _ _ _ ty
             (overlay old ums (collection_href ty
                (js_coalesce (m_mediaId (media_of ums)) (ums_id ums))))).
    + rewrite Him. apply get_set_same.
    + exact Hty.
    + apply overlay_twice.
    + rewrite Ham. apply alias_updates_twice.
  - (* the first turn made a tracked-only entry *)
    unfold track_only in Hstep.
    destruct (new_item ums (media_of ums)) as [newItem|] eqn:Hnew; [|discriminate Hstep].
    simpl in Hstep. injection Hstep as Hst'.
    set (K := new_key ums (media_of ums)) in *.
    assert (Hout' : outcome_of externalMap st' ums
                    = match string_or_null (m_mediaId (media_of ums)),
                            string_or_null (m_externalMediaId (media_of ums)) with
                      | None, None => Ok TrackOnly
                      | _, _ => Ok (Merge K)
                      end).
    { rewrite <- Hst'. rewrite outcome_after_turn.
      - now rewrite Hout.
      - now rewrite Hst'.
      - intros H1. apply key_in_true in H1. destruct H1 as (s & Hs & _).
        rewrite Hs. destruct (string_or_null_some _ _ Hs) as (Ht & -> & _).
        unfold K, new_key, js_or. now rewrite Ht, Ht. }
    rewrite Hout'.
    assert (Hmerge : merge_into externalMap st' ums (media_of ums)
                       (string_or_null (m_mediaId (media_of ums)))
                       (string_or_null (m_externalMediaId (media_of ums))) K = Ok st').
    { unfold new_item in Hnew.
      destruct (lower_or_empty (m_type (media_of ums))) as [ty|] eqn:Hty; [|discriminate Hnew].
      simpl in Hnew. inversion Hnew as [Hitem].
      apply (merge_into_fixed _ _ _ _ _ _ _ ty newItem).
      - rewrite <- Hst'. simpl. apply get_set_same.
      - exact Hty.
      - rewrite <- Hitem. unfold overlay. simpl. now rewrite js_coalesce_same.
      - rewrite <- Hst'. simpl. apply alias_updates_twice. }
    destruct (string_or_null (m_mediaId (media_of ums))) eqn:Hi;
      [exact Hmerge|].
    destruct (string_or_null (m_externalMediaId (media_of ums))) eqn:He;
      [exact Hmerge|].
    simpl. unfold track_only. fold K. rewrite Hnew. simpl.
    rewrite <- Hst'. simpl. now rewrite set_set_same.
Qed.

Lemma tracked_loop_twice (externalMap : JsMap.t Item) (ums : Ums) (rest seen : list Ums) :
  forall st,
    Inv externalMap st ->
    tracked_loop externalMap st (seen ++ ums :: ums :: rest)
    = tracked_loop externalMap st (seen ++ ums :: rest).
Proof.
  induction seen as [|u seen IH]; simpl; intros st HI.
  - destruct (process_ums externalMap st ums) as [st1|] eqn:H1; [|reflexivity].
    simpl. now rewrite (process_ums_twice _ _ _ _ HI H1).
  - destruct (process_ums externalMap st u) as [st1|] eqn:H1; [|reflexivity].
    simpl. apply IH. eapply process_ums_Inv; eauto.
Qed.

(** X13: a tracked record that comes twice in a row counts once: the
    final list is the same as with a single copy. *)
Theorem repeated_record_counts_once (external : list Media) (seen rest : list Ums)
    (ums : Ums) :
  reconcile external (seen ++ ums :: ums :: rest)
  = reconcile external (seen ++ ums :: rest).
Proof.
  rewrite !reconcile_run. unfold run.
  destruct (map_external external JsMap.empty JsMap.empty) as [[[items em] am]|] eqn:Hmap;
    [|reflexivity].
  simpl.
  assert (HI : Inv em (mkState (init_itemsMap items) am)).
  { apply (run_Inv external [] items). unfold run. rewrite Hmap. reflexivity. }
  now rewrite (tracked_loop_twice _ _ _ _ _ HI).
Qed.

(** ** The last record *)

Lemma external_first_in (im : JsMap.t Item) (items : list Item) (it v : Item) :
  In it items -> JsMap.get (String_of (it_id it)) im = Some v ->
  In v (external_first im items).
Proof.
  induction items as [|x rest IH]; simpl; [tauto|].
  intros [->|Hin] Hget.
  - rewrite Hget. now left.
  - destruct (JsMap.get (String_of (it_id x)) im); [right|]; auto.
Qed.

Lemma tracked_only_tail_keeps (em : JsMap.t Item) (entries : list (string * Item))
    (k : string) (v : Item) :
  In (k, v) entries -> JsMap.has k em = false -> In v (tracked_only_tail em entries).
Proof.
  induction entries as [|[k' v'] rest IH]; simpl; [tauto|].
  intros [Heq|Hin] Hk.
  - inversion Heq; subst. rewrite Hk. now left.
  - destruct (JsMap.has k' em); [|right]; auto.
Qed.

(** Every entry of [itemsMap] is in the final list. *)
Lemma final_list_has_entries (external : list Media) (tracked : list Ums)
    (items : list Item) (em : JsMap.t Item) (st : State) (k : string) (v : Item) :
  run external tracked = Ok (items, em, st) ->
  JsMap.get k (itemsMap st) = Some v ->
  In v (external_first (itemsMap st) items
        ++ tracked_only_tail em (JsMap.entries (itemsMap st)))%list.
Proof.
  intros Hrun Hget. destruct (run_Inv _ _ _ _ _ Hrun) as (HI & HF & _ & Hkeys).
  apply in_or_app. destruct (JsMap.has k em) eqn:Hk.
  - left. apply Hkeys in Hk. destruct (Forall2_external_ids _ _ HF) as [Hids _].
    rewrite <- Hids in Hk. apply in_map_iff in Hk. destruct Hk as (it & <- & Hin).
    eapply external_first_in; eauto.
  - right. eapply tracked_only_tail_keeps; eauto. now apply get_in.
Qed.

(** X14: the record the loop sees last is shown: the final list has an
    entry with the status of that record and the href made of its type
    and id, whatever came before it. *)
Theorem last_record_is_shown (external : list Media) (seen : list Ums) (ums : Ums)
    (out : list Item) :
  reconcile external (seen ++ [ums]) = Ok out ->
  exists it ty,
    In it out
    /\ lower_or_empty (m_type (media_of ums)) = Ok ty
    /\ it_status it = ums_status ums
    /\ (nullish (ums_rating ums) = false -> it_rating it = ums_rating ums)
    /\ it_href it
       = VStr ("/collection/" ++ ty ++ "/"
               ++ String_of (if nullish (m_mediaId (media_of ums))
                             then ums_id ums else m_mediaId (media_of ums))).
Proof.
  intros H. destruct (reconcile_ids _ _ _ H) as (items & em & st & Hrun & Hout & _).
  destruct (run_app_inv _ _ _ _ _ _ _ Hrun) as (st1 & st2 & Hseen & Hstep & Hrest).
  simpl in Hrest. inversion Hrest; subst st2; clear Hrest.
  destruct (run_Inv _ _ _ _ _ Hseen) as (HI1 & _).
  assert (Hentry : exists k it ty,
             JsMap.get k (itemsMap st) = Some it
             /\ lower_or_empty (m_type (media_of ums)) = Ok ty
             /\ it_status it = ums_status ums
             /\ it_rating it = js_coalesce (ums_rating ums) (it_rating it)
             /\ it_href it = collection_href ty (js_coalesce (m_mediaId (media_of ums))
                                                             (ums_id ums))).
  { rewrite process_ums_outcome in Hstep. inv_bind Hstep. destruct a as [c|].
    - destruct (outcome_merge_has _ _ _ _ HI1 Ha) as [_ Hhas].
      apply has_true_iff in Hhas. destruct Hhas as [old Hold].
      destruct (merge_into_spec _ _ _ _ _ _ _ _ _ Hold Hstep) as (ty & Hty & Him & _).
      exists c, (overlay old ums (collection_href ty
                   (js_coalesce (m_mediaId (media_of ums)) (ums_id ums)))), ty.
      rewrite Him. split; [apply get_set_same|]. split; [exact Hty|]. simpl.
      now rewrite js_coalesce_twice.
    - unfold track_only in Hstep. inv_bind Hstep. inversion Hstep; subst st; clear Hstep.
      unfold new_item in Ha0. inv_bind Ha0. inversion Ha0; subst a. simpl.
      exists (new_key ums (media_of ums)). eexists. exists a0.
      split; [apply get_set_same|]. simpl. now rewrite js_coalesce_same. }
  destruct Hentry as (k & it & ty & Hget & Hty & Hs & Hr & Hh).
  exists it, ty. split.
  - rewrite Hout. eapply final_list_has_entries; eauto.
  - split; [exact Hty|]. split; [exact Hs|]. split; [|exact Hh].
    intros Hn. unfold js_coalesce in Hr. now rewrite Hn in Hr.
Qed.

Lemma last_record_is_shown_witness :
  exists out it,
    reconcile dune_feed ([] ++ [watching_seven]) = Ok out
    /\ In it out /\ it_status it = VStr "WATCHING".
Proof.
  destruct (reconcile dune_feed ([] ++ [watching_seven])) as [out|] eqn:Hrec;
    [|discriminate Hrec].
  destruct (last_record_is_shown dune_feed [] watching_seven out Hrec)
    as (it & ty & Hin & _ & Hs & _).
  exists out, it. auto.
Defined.

(** ** The page without the reconciler *)

Lemma mapM_Forall2 {A B : Type} (f : A -> result B) (l : list A) (ys : list B) :
  mapM f l = Ok ys <-> Forall2 (fun x y => f x = Ok y) l ys.
Proof.
  revert ys. induction l as [|x l IH]; intros ys; simpl.
  - split; intros H; [inversion H; constructor | inversion H; reflexivity].
  - split; intros H.
    + inv_bind H. inv_bind H. inversion H; subst. constructor; [assumption|].
      now apply IH.
    + inversion H as [|? y ? ys' Hx Hl]; subst. rewrite Hx. simpl.
      apply IH in Hl. rewrite Hl. reflexivity.
Qed.

Lemma mapM_total {A B : Type} (f : A -> result B) (l : list A) :
  Forall (fun x => exists y, f x = Ok y) l -> exists ys, mapM f l = Ok ys.
Proof.
  induction 1 as [|x l [y Hy] _ [ys Hys]]; simpl; [eauto|].
  rewrite Hy, Hys. simpl. eauto.
Qed.

Lemma mapM_throws {A B : Type} (f : A -> result B) (l : list A) (x : A) :
  In x l -> f x = TypeError -> mapM f l = TypeError.
Proof.
  intros Hin Hx. induction l as [|a l IH]; [contradiction|]. simpl.
  destruct Hin as [->|Hin].
  - rewrite Hx. reflexivity.
  - destruct (f a); [|reflexivity]. simpl. rewrite (IH Hin). reflexivity.
Qed.

(** After the filter the type of a record is the wanted type, so the
    callback of the tracked records returns. *)
Lemma tracked_item_of_filter (w : string) (raw : list Ums) (ums : Ums) :
  In ums (byWantedType w raw) ->
  exists it, TrackedFirst.tracked_item ums = Ok it
             /\ it_type it = VStr (JsString.toLowerCase w)
             /\ it_status it = ums_status ums
             /\ it_id it = js_coalesce (m_mediaId (media_of ums)) (ums_id ums).
Proof.
  intros Hin. unfold byWantedType in Hin. apply filter_In in Hin.
  destruct Hin as [_ Hty]. unfold TrackedFirst.tracked_item, media_of.
  destruct (ums_media ums) as [m|]; [|discriminate].
  destruct (m_type m) as [| |b|x|s]; try discriminate. simpl in Hty.
  apply String.eqb_eq in Hty. subst s. rewrite lower_or_empty_string. simpl.
  eexists. split; [reflexivity|]. simpl. auto.
Qed.

(** The keys with a backend type are the four the discover feed exists
    for. *)
Lemma own_key_has_feed (key w : string) :
  get_property typeMap key = Own w ->
  existsb (String.eqb key) ["movie"; "tv"; "music"; "books"] = true.
Proof.
  unfold get_property, typeMap. cbn [find fst snd existsb].
  rewrite !(String.eqb_sym key).
  destruct (String.eqb "movie" key); [reflexivity|].
  destruct (String.eqb "tv" key); [reflexivity|].
  destruct (String.eqb "music" key); [reflexivity|].
  destruct (String.eqb "books" key); [reflexivity|].
  cbn [orb]. destruct (existsb _ _); discriminate.
Qed.

(** The item of the reconciler for a feed element and the item of the
    earlier page show the same. *)
Lemma discover_item_external_item (m : Media) (n : Item) :
  external_item m = Ok n ->
  exists o, TrackedFirst.discover_item m = Ok o
            /\ shown o = shown n /\ it_id n = VStr (String_of (it_id o)).
Proof.
  unfold external_item, TrackedFirst.discover_item. intros H.
  inv_bind H. inv_bind H. rewrite Ha, Ha0. simpl. inversion H; subst n; clear H.
  eexists. split; [reflexivity|]. split; reflexivity.
Qed.

Lemma discover_item_throws (m : Media) :
  external_item m = TypeError <-> TrackedFirst.discover_item m = TypeError.
Proof.
  unfold external_item, TrackedFirst.discover_item.
  destruct (lower_or_empty (m_type m)); simpl; [|tauto].
  destruct (string_method _ _); simpl; [|tauto].
  split; discriminate.
Qed.

Lemma map_external_throws (external : list Media) (m : Media) :
  In m external -> external_item m = TypeError ->
  forall em am, map_external external em am = TypeError.
Proof.
  intros Hin Hm. induction external as [|a l IH]; [contradiction|]. intros em am.
  simpl. destruct Hin as [->|Hin].
  - rewrite Hm. reflexivity.
  - destruct (external_item a); [|reflexivity]. simpl. rewrite (IH Hin). reflexivity.
Qed.


(** X16: in the earlier page, for a user who is logged in and a key with
    a backend type: when some record has that type, the grid has one
    item per such record, in their order, with the status of the record,
    and the feed plays no part; when none has, the grid is made from the
    discover feed of the key. *)
Theorem earlier_page_tracked_first (base : string) (fetchFeed : string -> list Media)
    (raw : list Ums) (rawMediaType userId : value) (w : string) :
  truthy userId = true ->
  get_property typeMap (normalizeTypeKey rawMediaType) = Own w ->
  (byWantedType w raw = [] ->
   TrackedFirst.MediaPage base fetchFeed raw rawMediaType userId
   = Ok (Grid (TrackedFirst.discover_items
                 (fetchFeed (discover_url base (normalizeTypeKey rawMediaType))))))
  /\ (byWantedType w raw <> [] ->
      exists items,
        TrackedFirst.MediaPage base fetchFeed raw rawMediaType userId = Ok (Grid items)
        /\ Forall2 (fun ums it => TrackedFirst.tracked_item ums = Ok it
                                  /\ it_type it = VStr (JsString.toLowerCase w)
                                  /\ it_status it = ums_status ums
                                  /\ it_id it = js_coalesce (m_mediaId (media_of ums))
                                                            (ums_id ums))
                   (byWantedType w raw) items).
Proof.
  intros Hu Hp. unfold TrackedFirst.MediaPage. cbv zeta. rewrite Hp, Hu.
  cbn [negb]. split.
  - intros ->. simpl mapM. cbn [bind List.length Nat.eqb andb].
    rewrite (own_key_has_feed _ _ Hp). reflexivity.
  - intros Hne.
    destruct (mapM_total TrackedFirst.tracked_item (byWantedType w raw)) as [items Hitems].
    { apply Forall_forall. intros ums Hin.
      destruct (tracked_item_of_filter _ _ _ Hin) as (it & Hit & _). eauto. }
    rewrite Hitems. cbn [bind]. apply mapM_Forall2 in Hitems.
    assert (Hlen : (List.length items =? 0)%nat = false).
    { destruct Hitems; [contradiction Hne; reflexivity | reflexivity]. }
    rewrite Hlen. cbn [andb]. exists items. split; [reflexivity|].
    eapply Forall2_impl; [|exact (Forall2_with_In _ _ _ Hitems)].
    intros ums it (Hin & Hit). simpl in Hin, Hit.
    destruct (tracked_item_of_filter _ _ _ Hin) as (it' & Hit' & Hrest).
    rewrite Hit in Hit'. inversion Hit'; subst it'. split; [exact Hit | exact Hrest].
Qed.

Lemma earlier_page_tracked_first_witness :
  truthy (VStr "u1") = true
  /\ get_property typeMap (normalizeTypeKey (VStr "Movie")) = Own "MOVIE"
  /\ exists items,
       TrackedFirst.MediaPage "http://localhost:8080" (fun _ => dune_feed) two_tracked
                              (VStr "Movie") (VStr "u1") = Ok (Grid items)
       /\ List.length items = 2%nat.
Proof.
  split; [reflexivity|]. split; [reflexivity|].
  destruct (earlier_page_tracked_first "http://localhost:8080" (fun _ => dune_feed)
              two_tracked (VStr "Movie") (VStr "u1") "MOVIE" eq_refl eq_refl)
    as [_ Hsome].
  destruct Hsome as (items & Hpage & Hall); [discriminate|].
  exists items. split; [exact Hpage|].
  symmetry. exact (Forall2_length Hall).
Defined.

(** The grid of the earlier page for a feed the reconciler accepts, when
    the canonical ids of the feed are distinct. *)
Lemma discover_items_reconciled (feed : list Media) (new : list Item) :
  NoDup (map canonical_id feed) ->
  reconcile feed [] = Ok new ->
  Forall2 (fun o n => shown o = shown n /\ it_id n = VStr (String_of (it_id o)))
          (TrackedFirst.discover_items feed) new.
Proof.
  intros Hnd H. pose proof (reconcile_feed_only _ _ H) as Hlast.
  assert (Hself : Forall2 (fun x n => external_item x = Ok n) feed new).
  { eapply Forall2_impl; [|exact (Forall2_with_In _ _ _ Hlast)].
    intros x o (Hx & l & Hl & Hlo). simpl in *.
    now rewrite <- (last_with_id_self _ _ _ Hnd Hx Hl). }
  clear Hlast H Hnd. unfold TrackedFirst.discover_items.
  assert (Hex : exists old, mapM TrackedFirst.discover_item feed = Ok old
                            /\ Forall2 (fun o n => shown o = shown n
                                                   /\ it_id n = VStr (String_of (it_id o)))
                                       old new).
  { induction Hself as [|x n l new' Hx _ (old & Hold & Hrel)]; simpl.
    - exists []. split; [reflexivity | constructor].
    - destruct (discover_item_external_item _ _ Hx) as (o & Ho & Hshown).
      rewrite Ho, Hold. simpl. exists (o :: old). split; [reflexivity|].
      constructor; assumption. }
  destruct Hex as (old & -> & Hrel). exact Hrel.
Qed.

(** X17: for a user none of whose records has the wanted type of the
    key (records of other types there may be), and a feed with pairwise
    distinct canonical ids, the page with the reconciler and the earlier
    page show the same grid: item by item the same title, type, year,
    rating, cover, link and (absent) status; the newer [id] is the older
    one as a string. *)
Theorem versions_agree_without_records (base : string) (fetchFeed : string -> list Media)
    (raw : list Ums) (rawMediaType userId : value) (new : list Item) :
  (forall w, get_property typeMap (normalizeTypeKey rawMediaType) = Own w ->
             byWantedType w raw = []) ->
  NoDup (map canonical_id (fetchFeed (discover_url base (normalizeTypeKey rawMediaType)))) ->
  MediaPage base fetchFeed raw rawMediaType userId = Ok (Grid new) ->
  exists old,
    TrackedFirst.MediaPage base fetchFeed raw rawMediaType userId = Ok (Grid old)
    /\ Forall2 (fun o n => shown o = shown n /\ it_id n = VStr (String_of (it_id o)))
               old new.
Proof.
  intros Hraw Hnd. unfold MediaPage, TrackedFirst.MediaPage. cbv zeta.
  destruct (get_property typeMap (normalizeTypeKey rawMediaType)) as [w| |] eqn:Hp;
    cbv iota; [rewrite (Hraw w eq_refl)| |discriminate];
    (destruct (negb (truthy userId)); [discriminate|]);
    cbn [mapM bind List.length Nat.eqb andb];
    destruct (existsb _ _); intros H; inv_bind H; inversion H; subst a; clear H.
  - eexists. split; [reflexivity|]. now apply discover_items_reconciled.
  - exists []. split; [reflexivity|]. inversion Ha. constructor.
  - eexists. split; [reflexivity|]. now apply discover_items_reconciled.
  - exists []. split; [reflexivity|]. inversion Ha. constructor.
Qed.

Lemma versions_agree_without_records_witness :
  (forall w, get_property typeMap (normalizeTypeKey (VStr "music")) = Own w ->
             byWantedType w two_tracked = [])
  /\ NoDup (map canonical_id five_six_feed)
  /\ exists new old,
       MediaPage "http://localhost:8080" (fun _ => five_six_feed) two_tracked
                 (VStr "music") (VStr "u1") = Ok (Grid new)
       /\ TrackedFirst.MediaPage "http://localhost:8080" (fun _ => five_six_feed) two_tracked
                                 (VStr "music") (VStr "u1") = Ok (Grid old)
       /\ map shown old = map shown new
       /\ List.length new = 2.
Proof.
  assert (Hraw : forall w, get_property typeMap (normalizeTypeKey (VStr "music")) = Own w ->
                           byWantedType w two_tracked = []).
  { intros w Hw. vm_compute in Hw. inversion Hw; subst w. reflexivity. }
  assert (Hnd : NoDup (map canonical_id five_six_feed)).
  { simpl. repeat constructor; simpl; intuition discriminate. }
  split; [exact Hraw|]. split; [exact Hnd|].
  destruct (MediaPage "http://localhost:8080" (fun _ => five_six_feed) two_tracked
                      (VStr "music") (VStr "u1")) as [[to|new]|] eqn:Hnew;
    try discriminate Hnew.
  exists new.
  destruct (versions_agree_without_records "http://localhost:8080"
              (fun _ => five_six_feed) two_tracked (VStr "music") (VStr "u1") new
              Hraw Hnd Hnew) as (old & Hold & Hrel).
  exists old. split; [reflexivity|]. split; [exact Hold|]. split.
  - clear Hold Hnew. induction Hrel as [|o n old new [Hs _] _ IH]; simpl;
      [reflexivity | now rewrite Hs, IH].
  - vm_compute in Hnew. inversion Hnew. reflexivity.
Defined.

(** X18: one feed element on which the callback of [external.map]
    throws (a type or a release date that is truthy and not a string):
    the page with the reconciler throws, whatever the records are, while
    the earlier page, for a user without a record of the wanted type,
    shows the empty grid. *)
Theorem malformed_feed_element (base : string) (fetchFeed : string -> list Media)
    (raw : list Ums) (rawMediaType userId : value) (w : string) (m : Media) :
  truthy userId = true ->
  get_property typeMap (normalizeTypeKey rawMediaType) = Own w ->
  In m (fetchFeed (discover_url base (normalizeTypeKey rawMediaType))) ->
  external_item m = TypeError ->
  MediaPage base fetchFeed raw rawMediaType userId = TypeError
  /\ (byWantedType w raw = [] ->
      TrackedFirst.MediaPage base fetchFeed raw rawMediaType userId = Ok (Grid [])).
Proof.
  intros Hu Hp Hin Hm. unfold MediaPage, TrackedFirst.MediaPage. cbv zeta.
  rewrite Hp, Hu, (own_key_has_feed _ _ Hp). cbn [negb]. split.
  - unfold reconcile. rewrite (map_external_throws _ _ Hin Hm). reflexivity.
  - intros ->. cbn [mapM bind List.length Nat.eqb andb].
    unfold TrackedFirst.discover_items.
    rewrite (mapM_throws _ _ _ Hin (proj1 (discover_item_throws m) Hm)). reflexivity.
Qed.

Lemma malformed_feed_element_witness :
  truthy (VStr "u1") = true
  /\ get_property typeMap (normalizeTypeKey (VStr "movie")) = Own "MOVIE"
  /\ In (hd empty_media numeric_date_feed) numeric_date_feed
  /\ external_item (hd empty_media numeric_date_feed) = TypeError
  /\ MediaPage "http://localhost:8080" (fun _ => numeric_date_feed) two_tracked
               (VStr "movie") (VStr "u1") = TypeError.
Proof.
  split; [reflexivity|]. split; [reflexivity|]. split; [left; reflexivity|].
  split; [reflexivity|].
  exact (proj1 (malformed_feed_element "http://localhost:8080"
                  (fun _ => numeric_date_feed) two_tracked (VStr "movie") (VStr "u1")
                  "MOVIE" (hd empty_media numeric_date_feed)
                  eq_refl eq_refl (or_introl eq_refl) eq_refl)).
Defined.

(** ** The initials of the profile page *)

Lemma upper_char_initial (c : ascii) :
  JsString.is_white_space c = false -> initial_char (Profile.upper_char c) = true.
Proof.
  destruct c as [[] [] [] [] [] [] [] []]; vm_compute; intros H;
    first [reflexivity | discriminate H].
Qed.

Lemma upper_lower_char (c : ascii) :
  Profile.upper_char (JsString.lower_char c) = Profile.upper_char c.
Proof.
  destruct c as [[] [] [] [] [] [] [] []]; reflexivity.
Qed.

Lemma lower_char_white_space (c : ascii) :
  JsString.is_white_space (JsString.lower_char c) = JsString.is_white_space c.
Proof.
  destruct c as [[] [] [] [] [] [] [] []]; reflexivity.
Qed.

Lemma split_white_space_cons (b : bool) (s : string) :
  exists piece pieces, Profile.split_white_space b s = piece :: pieces.
Proof.
  revert b. induction s as [|c s IH]; intros b; simpl; [eauto|].
  destruct (JsString.is_white_space c).
  - destruct b; [apply IH | eauto].
  - destruct (IH false) as (p & ps & ->). eauto.
Qed.

(** No piece holds white space. *)
Lemma split_white_space_pieces (b : bool) (s : string) :
  Forall (fun p => all_chars (fun c => negb (JsString.is_white_space c)) p = true)
         (Profile.split_white_space b s).
Proof.
  revert b. induction s as [|c s IH]; intros b; simpl.
  - constructor; [reflexivity | constructor].
  - destruct (JsString.is_white_space c) eqn:Hc.
    + destruct b; [apply IH | constructor; [reflexivity | apply IH]].
    + specialize (IH false).
      destruct (Profile.split_white_space false s) as [|p ps].
      * constructor; [simpl; now rewrite Hc | constructor].
      * inversion IH; subst. constructor; [simpl; rewrite Hc; simpl; assumption | assumption].
Qed.

(** The words do not depend on whether a run of white space has begun. *)
Lemma words_any_run (s : string) :
  filter (fun p => negb (JsString.is_empty p)) (Profile.split_white_space true s)
  = filter (fun p => negb (JsString.is_empty p)) (Profile.split_white_space false s).
Proof.
  destruct s as [|c s]; simpl; [reflexivity|].
  destruct (JsString.is_white_space c); reflexivity.
Qed.

Lemma first_upper_initial (w : string) :
  JsString.is_empty w = false ->
  all_chars (fun c => negb (JsString.is_white_space c)) w = true ->
  exists c, Profile.first_upper w = String c EmptyString /\ initial_char c = true.
Proof.
  destruct w as [|c w]; [discriminate|]. simpl. intros _ H.
  apply andb_prop in H. destruct H as [H _]. apply negb_true_iff in H.
  eexists. split; [reflexivity|]. now apply upper_char_initial.
Qed.

(** X19: the initials of a name that is a string of ASCII characters
    are one or two characters, none of them white space or a lower-case
    letter. *)
Theorem initials_shape (name : string) :
  all_chars ascii_char name = true ->
  exists out, Profile.initials (VStr name) = Ok out
              /\ (String.length out = 1 \/ String.length out = 2)%nat
              /\ all_chars initial_char out = true.
Proof.
  intros _. unfold Profile.initials. cbv zeta.
  pose proof (split_white_space_pieces false name) as Hp.
  set (words := filter (fun p => negb (JsString.is_empty p))
                       (Profile.split_white_space false name)).
  assert (Hw : Forall (fun w => JsString.is_empty w = false
                                /\ all_chars (fun c => negb (JsString.is_white_space c)) w
                                   = true) words).
  { apply Forall_forall. intros w Hin. unfold words in Hin. apply filter_In in Hin.
    destruct Hin as [Hin Hne]. apply negb_true_iff in Hne. split; [exact Hne|].
    rewrite Forall_forall in Hp. now apply Hp. }
  clearbody words. eexists. split; [reflexivity|].
  destruct Hw as [|w1 ws1 [Hn1 Hc1] Hw]; [simpl; auto|].
  destruct (first_upper_initial _ Hn1 Hc1) as (c1 & E1 & I1).
  destruct Hw as [|w2 ws2 [Hn2 Hc2] Hw].
  - cbn [firstn map String.concat]. rewrite E1. simpl. rewrite I1. auto.
  - destruct (first_upper_initial _ Hn2 Hc2) as (c2 & E2 & I2).
    cbn [firstn map String.concat]. rewrite E1, E2. simpl. rewrite I1, I2. auto.
Qed.

Lemma initials_shape_witness :
  all_chars ascii_char "  ada  lovelace king " = true
  /\ Profile.initials (VStr "  ada  lovelace king ") = Ok "AL".
Proof.
  split; [reflexivity|].
  destruct (initials_shape "  ada  lovelace king " eq_refl) as (out & Hout & _).
  rewrite Hout. vm_compute in Hout. inversion Hout. reflexivity.
Defined.

(** The first piece, and the other pieces that are not empty. *)
Lemma split_white_space_lower (b : bool) (s : string) :
  Profile.split_white_space b (JsString.toLowerCase s)
  = map JsString.toLowerCase (Profile.split_white_space b s).
Proof.
  revert b. induction s as [|c s IH]; intros b; simpl; [reflexivity|].
  rewrite lower_char_white_space. destruct (JsString.is_white_space c).
  - destruct b; simpl; now rewrite IH.
  - rewrite IH. destruct (split_white_space_cons false s) as (p & ps & ->). reflexivity.
Qed.

Lemma words_lower (s : string) :
  words (JsString.toLowerCase s) = map JsString.toLowerCase (words s).
Proof.
  unfold words. rewrite split_white_space_lower.
  induction (Profile.split_white_space false s) as [|p ps IH]; simpl; [reflexivity|].
  destruct p; simpl; now rewrite IH.
Qed.

Lemma first_upper_lower (w : string) :
  Profile.first_upper (JsString.toLowerCase w) = Profile.first_upper w.
Proof.
  destruct w as [|c w]; simpl; [reflexivity | now rewrite upper_lower_char].
Qed.

Lemma filter_nonempty_cons (l : list string) :
  l <> [] ->
  filter (fun p => negb (JsString.is_empty p)) l
  = ((if JsString.is_empty (hd EmptyString l) then [] else [hd EmptyString l])
     ++ filter (fun p => negb (JsString.is_empty p)) (tl l))%list.
Proof.
  destruct l as [|p ps]; [congruence|]. intros _. simpl.
  destruct (JsString.is_empty p); reflexivity.
Qed.

Lemma split_white_space_not_nil (b : bool) (s : string) :
  Profile.split_white_space b s <> [].
Proof.
  destruct (split_white_space_cons b s) as (p & ps & ->). discriminate.
Qed.

Lemma trimEnd_cons (c : ascii) (s : string) :
  JsString.is_white_space c = false ->
  JsString.trimEnd (String c s) = String c (JsString.trimEnd s).
Proof.
  intros Hc. simpl. rewrite Hc. destruct (JsString.trimEnd s); reflexivity.
Qed.

Lemma split_white_space_step (b : bool) (c : ascii) (s : string) :
  Profile.split_white_space b (String c s)
  = if JsString.is_white_space c
    then if b then Profile.split_white_space true s
         else EmptyString :: Profile.split_white_space true s
    else match Profile.split_white_space false s with
         | piece :: pieces => String c piece :: pieces
         | [] => [String c EmptyString]
         end.
Proof. reflexivity. Qed.

(** White space at the end adds empty pieces only. *)
Lemma split_white_space_trimEnd (b : bool) (s : string) :
  hd EmptyString (Profile.split_white_space b (JsString.trimEnd s))
  = hd EmptyString (Profile.split_white_space b s)
  /\ filter (fun p => negb (JsString.is_empty p))
            (tl (Profile.split_white_space b (JsString.trimEnd s)))
     = filter (fun p => negb (JsString.is_empty p)) (tl (Profile.split_white_space b s)).
Proof.
  revert b. induction s as [|c s IH]; intros b; [split; reflexivity|].
  destruct (JsString.is_white_space c) eqn:Hc.
  - assert (Hall : filter (fun p => negb (JsString.is_empty p))
                          (Profile.split_white_space true (JsString.trimEnd s))
                   = filter (fun p => negb (JsString.is_empty p))
                            (Profile.split_white_space true s)).
    { rewrite (filter_nonempty_cons _ (split_white_space_not_nil true (JsString.trimEnd s))).
      rewrite (filter_nonempty_cons _ (split_white_space_not_nil true s)).
      destruct (IH true) as [-> ->]. reflexivity. }
    rewrite (split_white_space_step b c s), Hc.
    simpl JsString.trimEnd. rewrite Hc.
    destruct (JsString.trimEnd s) as [|c' r] eqn:Hr.
    + destruct b; [exact (IH true)|]. split; [reflexivity|]. simpl tl.
      rewrite <- Hall. reflexivity.
    + rewrite (split_white_space_step b c (String c' r)), Hc.
      destruct b; [exact (IH true)|]. split; [reflexivity|]. exact Hall.
  - rewrite (trimEnd_cons _ _ Hc).
    rewrite (split_white_space_step b c s), (split_white_space_step b c (JsString.trimEnd s)).
    rewrite Hc. destruct (IH false) as [Hh Ht].
    destruct (split_white_space_cons false (JsString.trimEnd s)) as (p & ps & E).
    destruct (split_white_space_cons false s) as (p' & ps' & E').
    rewrite E, E' in *. simpl in *. subst p'. split; [reflexivity | exact Ht].
Qed.

Lemma words_trimEnd (s : string) : words (JsString.trimEnd s) = words s.
Proof.
  unfold words.
  rewrite (filter_nonempty_cons _ (split_white_space_not_nil false (JsString.trimEnd s))).
  rewrite (filter_nonempty_cons _ (split_white_space_not_nil false s)).
  destruct (split_white_space_trimEnd false s) as [-> ->]. reflexivity.
Qed.

Lemma words_trimStart (s : string) : words (JsString.trimStart s) = words s.
Proof.
  unfold words. induction s as [|c s IH]; [reflexivity|]. simpl.
  destruct (JsString.is_white_space c) eqn:Hc; [|simpl; rewrite Hc; reflexivity].
  simpl. rewrite IH. symmetry. apply words_any_run.
Qed.

(** X20: the initials of a name that is a string of ASCII characters do
    not change when white space around the name is removed, nor when the
    name is put in lower case. *)
Theorem initials_ignore_space_and_case (name : string) :
  all_chars ascii_char name = true ->
  Profile.initials (VStr (JsString.trim name)) = Profile.initials (VStr name)
  /\ Profile.initials (VStr (JsString.toLowerCase name)) = Profile.initials (VStr name).
Proof.
  intros _. unfold Profile.initials. cbv zeta. fold (words (JsString.trim name)).
  fold (words (JsString.toLowerCase name)). fold (words name). split.
  - unfold JsString.trim. now rewrite words_trimEnd, words_trimStart.
  - rewrite words_lower, firstn_map, map_map.
    rewrite (map_ext _ _ first_upper_lower). reflexivity.
Qed.

Lemma initials_ignore_space_and_case_witness :
  all_chars ascii_char "  Ada Lovelace " = true
  /\ Profile.initials (VStr "ada lovelace") = Profile.initials (VStr "  Ada Lovelace ").
Proof.
  split; [reflexivity|].
  destruct (initials_ignore_space_and_case "  Ada Lovelace " eq_refl) as [Htrim _].
  destruct (initials_ignore_space_and_case "Ada Lovelace" eq_refl) as [_ Hlower].
  change (JsString.trim "  Ada Lovelace ") with "Ada Lovelace" in Htrim.
  change (JsString.toLowerCase "Ada Lovelace") with "ada lovelace" in Hlower.
  now rewrite Hlower, Htrim.
Defined.

(** ** The star rating *)

Lemma doSave_of_star (userId mediaId sid : value) (n : Z) :
  truthy userId = true -> n <> 0%Z ->
  StarRating.doSave userId mediaId sid (StarRating.or_null n)
  = StarRating.Upsert {| StarRating.p_id := js_or sid VNull;
                         StarRating.p_userId := userId;
                         StarRating.p_mediaId := mediaId;
                         StarRating.p_status := "COMPLETED";
                         StarRating.p_rating := n |}.
Proof.
  intros Hu Hn. unfold StarRating.doSave, StarRating.or_null. rewrite Hu.
  apply Z.eqb_neq in Hn. rewrite Hn. cbn [negb]. rewrite Hn. reflexivity.
Qed.


(** X21: with a rating between 0 and 5, a key either changes nothing or
    is an arrow key: then the new rating is between 1 and 5, one step
    from the old one at most, the old one is kept for the rollback, and
    the save that waits is, for a user who is logged in, an upsert of the
    new rating with status COMPLETED, never a delete. *)
Theorem arrow_keys_keep_a_rating (st : StarRating.State) (key : string) :
  (0 <= StarRating.rating st <= 5)%Z ->
  StarRating.handleKeyDown false st key = st
  \/ (let st' := StarRating.handleKeyDown false st key in
      star (StarRating.rating st')
      /\ (Z.abs (StarRating.rating st' - StarRating.rating st) <= 1)%Z
      /\ StarRating.prevRating st' = StarRating.rating st
      /\ StarRating.saveTimer st' = Some (StarRating.rating st')
      /\ forall userId mediaId sid, truthy userId = true ->
           StarRating.doSave userId mediaId sid
                             (StarRating.or_null (StarRating.rating st'))
           = StarRating.Upsert {| StarRating.p_id := js_or sid VNull;
                                  StarRating.p_userId := userId;
                                  StarRating.p_mediaId := mediaId;
                                  StarRating.p_status := "COMPLETED";
                                  StarRating.p_rating := StarRating.rating st' |}).
Proof.
  intros Hr. unfold StarRating.handleKeyDown.
  destruct (String.eqb key "ArrowRight" || String.eqb key "ArrowUp");
    [|destruct (String.eqb key "ArrowLeft" || String.eqb key "ArrowDown"); [|left; reflexivity]];
    right; cbv zeta; unfold StarRating.setAndSave, star; cbn [StarRating.rating
      StarRating.prevRating StarRating.saveTimer];
    (split; [lia|]); (split; [lia|]); (split; [reflexivity|]); (split; [reflexivity|]);
    intros userId mediaId sid Hu; apply doSave_of_star; [exact Hu | lia | exact Hu | lia].
Qed.

Lemma arrow_keys_keep_a_rating_witness :
  (0 <= StarRating.rating (StarRating.mkState 0 0 VNull 0 None) <= 5)%Z
  /\ StarRating.rating
       (StarRating.handleKeyDown false (StarRating.mkState 0 0 VNull 0 None) "ArrowLeft")
     = 1%Z.
Proof.
  split; [simpl; lia|].
  destruct (arrow_keys_keep_a_rating (StarRating.mkState 0 0 VNull 0 None) "ArrowLeft")
    as [H|H]; [simpl; lia | discriminate H | reflexivity].
Defined.



